(** * Shader graph compiler: a shallow embedding of [src/graph.ts] and of the
    input-discovery strategies, with the properties its design document
    states about them.

    The embedding follows the TypeScript source function by function.

    - Parsed GLSL is a tree of JavaScript values: a node is an object with
      string keys, a child is a node, an array of nodes or a string.
    - Code that throws returns an error value.  Recursion along the edges
      of a graph is bounded by the depth of the call stack, a parameter.
    - A closure that mutates the tree of its node in place (a "filler") is
      the function from the tree to the mutated tree.  A node that the
      closure captured by reference is addressed by its location from the
      root of the tree; reference and location designate the same node as
      long as no ancestor of the node has been replaced since.  Where
      statements are put in front of an array of the tree between capture
      and use, the location counts array elements from the end.
    - A tree is a value.  An expression that one node hands to another as
      filler is the same object in both trees in JavaScript; here each tree
      has its own copy, and a later write inside the expression shows in
      the tree it was made through only.
    - Objects used as maps are plain objects.  A lookup finds the own
      properties of the object and, under the names of the members of
      [Object.prototype], what every plain object inherits.  The record of
      node contexts is written by assignment, which under the name
      [__proto__] sets the prototype of the record instead of a property;
      the entry of that name stands for it, and a lookup of [__proto__]
      finds it there.  What lookups of other names would inherit from a
      prototype set this way is not modelled.
    - The parsing library and the module [nodestuff] are not part of the
      sources at hand: the compiler is parameterised by them, and the tree
      walk of the library is modelled after its interface. *)

From stdpp Require Import gmap strings list pretty.
From Stdlib Require Import Ascii String.

Abbreviation length := List.length.

Local Open Scope string_scope.
Local Open Scope list_scope.

(** ** Results of code that may throw *)

Inductive ShaderStage := fragment | vertex.

Inductive Error : Type :=
| MissingParser (type : string)
| MissingOutputNode (stage : ShaderStage)
| MissingNodeContext (id : string)
| DanglingEdge (from : string)
| MissingFillerAst (id : string)
| MissingInputs
| UnknownInputPort (input : string)
| MissingFillerTarget (letter : string)
| NoAssignNode
| NoParent
| TypeError
| ExternalError (what : string)
| StackExhausted.

Inductive Res (A : Type) : Type :=
| Ok (a : A)
| Err (e : Error).
Arguments Ok {A} a.
Arguments Err {A} e.

#[global] Instance Res_ret : MRet Res := fun A a => Ok a.
#[global] Instance Res_bind : MBind Res := fun A B k r =>
  match r with
  | Ok a => k a
  | Err e => Err e
  end.

Definition is_ok {A} (r : Res A) : bool :=
  match r with Ok _ => true | Err _ => false end.

(** [xs.forEach(f)] where [f] updates the variables it closes over and may
    throw. *)
Fixpoint for_each {A St} (f : St -> A -> Res St) (xs : list A) (s : St) : Res St :=
  match xs with
  | [] => Ok s
  | x :: rest => s' ← f s x; for_each f rest s'
  end.

Definition from_option {A} (e : Error) (o : option A) : Res A :=
  match o with
  | Some a => Ok a
  | None => Err e
  end.

(** ** JavaScript strings and arrays *)

Module Js.

(** [s.charAt(i)]: the one-character string at [i], or the empty string
    out of range. *)
Definition charAt (s : string) (i : nat) : string :=
  match String.get i s with
  | Some c => String c EmptyString
  | None => EmptyString
  end.

(** [xs.join(sep)] *)
Fixpoint join (sep : string) (xs : list string) : string :=
  match xs with
  | [] => ""
  | [x] => x
  | x :: rest => x +:+ sep +:+ join sep rest
  end.

(** [xs.find(p)] *)
Definition find {A} (p : A -> bool) (xs : list A) : option A :=
  List.find p xs.

(** Truthiness of an optional string: [undefined] and [""] are falsy. *)
Definition truthy_string (s : option string) : bool :=
  match s with
  | Some EmptyString => false
  | Some _ => true
  | None => false
  end.

(** Decimal rendering of an array index in a template literal. *)
Definition of_nat (n : nat) : string := pretty n.

(** The properties of [Object.prototype]: every plain object has them
    without owning them.  They are functions, but for [__proto__], which
    reads as the prototype itself; all are truthy. *)
Definition object_prototype : list string :=
  ["constructor"; "__defineGetter__"; "__defineSetter__"; "hasOwnProperty";
   "__lookupGetter__"; "__lookupSetter__"; "isPrototypeOf"; "propertyIsEnumerable";
   "toString"; "valueOf"; "__proto__"; "toLocaleString"].

(** [k in {}] *)
Definition inherited (k : string) : bool := existsb (String.eqb k) object_prototype.

End Js.

(** ** JavaScript objects used as records keyed by strings

    Property order is observable through [Object.values]: keys that are
    array indices come first in ascending numeric order, the other keys
    follow in the order of their first insertion.  An object is kept as the
    list of its own properties in that order. *)

Module JsObject.

Definition t (V : Type) : Type := list (string * V).

Definition is_digit (c : ascii) : bool :=
  let n := nat_of_ascii c in ((48 <=? n) && (n <=? 57))%nat.

Fixpoint digits_value (s : string) (acc : N) : option N :=
  match s with
  | EmptyString => Some acc
  | String c r =>
      if is_digit c
      then digits_value r (acc * 10 + N.of_nat (nat_of_ascii c - 48)%nat)%N
      else None
  end.

(** An array index is the canonical decimal form of an integer below
    [2^32 - 1]. *)
Definition array_index (k : string) : option N :=
  match k with
  | EmptyString => None
  | String c r =>
      if (Ascii.eqb c "0"%char) && negb (String.eqb r "") then None
      else
        match digits_value k 0%N with
        | Some n => if (n <? 4294967295)%N then Some n else None
        | None => None
        end
  end.

Definition get {V} (k : string) (o : t V) : option V :=
  snd <$> List.find (fun kv => String.eqb (fst kv) k) o.

Definition has {V} (k : string) (o : t V) : bool :=
  match get k o with Some _ => true | None => false end.

(** [k in o], and the truth of [o[k]] for an object whose own values are
    truthy: an own property, or a member of [Object.prototype]. *)
Definition has_in {V} (k : string) (o : t V) : bool := has k o || Js.inherited k.

(** Where a new key goes: before the first property that must follow it. *)
Definition goes_before (k k' : string) : bool :=
  match array_index k, array_index k' with
  | Some n, Some n' => (n <? n')%N
  | Some _, None => true
  | None, _ => false
  end.

Fixpoint insert_new {V} (k : string) (v : V) (o : t V) : t V :=
  match o with
  | [] => [(k, v)]
  | (k', v') :: r =>
      if goes_before k k' then (k, v) :: (k', v') :: r
      else (k', v') :: insert_new k v r
  end.

Fixpoint replace {V} (k : string) (v : V) (o : t V) : t V :=
  match o with
  | [] => []
  | (k', v') :: r =>
      if String.eqb k' k then (k', v) :: r else (k', v') :: replace k v r
  end.

(** [o[k] = v], also [{...o, [k]: v}] on a copy. *)
Definition set {V} (k : string) (v : V) (o : t V) : t V :=
  if has k o then replace k v o else insert_new k v o.

(** [{...a, ...b}] *)
Definition spread {V} (a b : t V) : t V :=
  fold_left (fun acc kv => set (fst kv) (snd kv) acc) b a.

Definition keys {V} (o : t V) : list string := map fst o.
Definition values {V} (o : t V) : list V := map snd o.

Definition empty {V} : t V := [].

End JsObject.

(** ** Syntax trees

    The parser's trees are plain JavaScript values.  [AObj] keeps the
    properties of an object in insertion order, which is the order in which
    the tree walk descends into them. *)

(** A step from a node to one of its children: into a property holding a
    node, or into element [index] of a property holding an array. *)
Inductive Step : Type :=
| SField (key : string)
| SItem (key : string) (index : nat).

Definition Loc : Type := list Step.

(** [ARef] is a second reference to a node of the same tree, as the scopes
    of a parsed program hold for every occurrence of a binding. *)
#[warnings="-register-all"]
Inductive AstNode : Type :=
| AUndef
| AStr (s : string)
| AArr (items : list AstNode)
| AObj (fields : list (string * AstNode))
| ARef (target : Loc).

(** Induction over trees, with the induction hypothesis for every child. *)
Section AstInduction.
Variable P : AstNode -> Prop.
Hypothesis HUndef : P AUndef.
Hypothesis HStr : forall s, P (AStr s).
Hypothesis HArr : forall items, Forall P items -> P (AArr items).
Hypothesis HObj : forall fields, Forall (fun kv => P (snd kv)) fields -> P (AObj fields).
Hypothesis HRef : forall target, P (ARef target).

Fixpoint AstNode_nested_ind (n : AstNode) : P n :=
  match n with
  | AUndef => HUndef
  | AStr s => HStr s
  | AArr items =>
      HArr items
        ((fix all (l : list AstNode) : Forall P l :=
            match l with
            | [] => @List.Forall_nil _ P
            | c :: l' => @List.Forall_cons _ P c l' (AstNode_nested_ind c) (all l')
            end) items)
  | AObj fields =>
      HObj fields
        ((fix all (l : list (string * AstNode)) : Forall (fun kv => P (snd kv)) l :=
            match l with
            | [] => @List.Forall_nil _ _
            | kv :: l' =>
                @List.Forall_cons _ (fun kv => P (snd kv)) kv l'
                  (AstNode_nested_ind (snd kv)) (all l')
            end) fields)
  | ARef target => HRef target
  end.
End AstInduction.

(** The path handed to a visitor: the node, its parent path, the property of
    the parent it sits in and, inside an array, its index.  [p_loc] is the
    location of the node from the root of the walk; it stands for the
    reference to the node that the JavaScript path holds. *)
#[warnings="-register-all"]
Inductive Path : Type :=
| mkPath (p_node : AstNode) (p_loc : Loc) (p_parentPath : option Path)
         (p_key : option string) (p_index : option nat).

Module Ast.

Definition lookup (k : string) (fs : list (string * AstNode)) : AstNode :=
  match List.find (fun kv => String.eqb (fst kv) k) fs with
  | Some kv => snd kv
  | None => AUndef
  end.

(** [n?.k]: [undefined] when [n] is not an object or has no such property. *)
Definition field (k : string) (n : AstNode) : AstNode :=
  match n with
  | AObj fs => lookup k fs
  | _ => AUndef
  end.

(** [k in n] *)
Definition has_field (k : string) (n : AstNode) : bool :=
  match n with
  | AObj fs => existsb (fun kv => String.eqb (fst kv) k) fs
  | _ => false
  end.

(** [n === s] for a string [s] *)
Definition is_str (s : string) (n : AstNode) : bool :=
  match n with
  | AStr s' => String.eqb s' s
  | _ => false
  end.

Definition truthy (n : AstNode) : bool :=
  match n with
  | AUndef => false
  | AStr EmptyString => false
  | _ => true
  end.

Definition type_is (t : string) (n : AstNode) : bool := is_str t (field "type" n).

(** The elements of [n] when it is an array. *)
Definition items (n : AstNode) : option (list AstNode) :=
  match n with
  | AArr l => Some l
  | _ => None
  end.

(** [isNode]: the value has a truthy [type]. *)
Definition isNode (n : AstNode) : bool := truthy (field "type" n).

(** [o[k] = v] on the property list of an object. *)
Fixpoint assign (k : string) (v : AstNode) (fs : list (string * AstNode))
  : list (string * AstNode) :=
  match fs with
  | [] => [(k, v)]
  | (k', v') :: r =>
      if String.eqb k' k then (k', v) :: r else (k', v') :: assign k v r
  end.

Definition set_field (k : string) (v : AstNode) (n : AstNode) : AstNode :=
  match n with
  | AObj fs => AObj (assign k v fs)
  | _ => n
  end.

Fixpoint alter_field (f : AstNode -> AstNode) (k : string)
  (fs : list (string * AstNode)) : list (string * AstNode) :=
  match fs with
  | [] => []
  | (k', v') :: r =>
      if String.eqb k' k then (k', f v') :: r else (k', v') :: alter_field f k r
  end.

(** The node at a location. *)
Fixpoint at_loc (loc : Loc) (n : AstNode) : AstNode :=
  match loc with
  | [] => n
  | SField k :: rest => at_loc rest (field k n)
  | SItem k i :: rest =>
      match field k n with
      | AArr l => at_loc rest (default AUndef (l !! i))
      | _ => AUndef
      end
  end.

(** In-place mutation of the node at a location, seen from the root. *)
Fixpoint update_at (f : AstNode -> AstNode) (loc : Loc) (n : AstNode) : AstNode :=
  match loc with
  | [] => f n
  | SField k :: rest =>
      match n with
      | AObj fs => AObj (alter_field (update_at f rest) k fs)
      | _ => n
      end
  | SItem k i :: rest =>
      match n with
      | AObj fs =>
          AObj (alter_field
                  (fun a => match a with
                            | AArr l => AArr (alter (update_at f rest) i l)
                            | _ => a
                            end) k fs)
      | _ => n
      end
  end.

(** A reference to a node outlives [unshift]: statements put in front of
    an array move its elements up by one index and leave their distance to
    the end of the array.  [anchor] turns the indices of a location into
    distances to the end; [resolve] turns them back in the tree as it is
    then. *)
Fixpoint anchor (n : AstNode) (loc : Loc) : Loc :=
  match loc with
  | [] => []
  | SField k :: rest => SField k :: anchor (field k n) rest
  | SItem k i :: rest =>
      match field k n with
      | AArr l => SItem k (length l - 1 - i) :: anchor (default AUndef (l !! i)) rest
      | _ => loc
      end
  end.

Fixpoint resolve (n : AstNode) (anchored : Loc) : Loc :=
  match anchored with
  | [] => []
  | SField k :: rest => SField k :: resolve (field k n) rest
  | SItem k j :: rest =>
      match field k n with
      | AArr l =>
          SItem k (length l - 1 - j)
            :: resolve (default AUndef (l !! (length l - 1 - j))) rest
      | _ => anchored
      end
  end.

(** Whether a value converts to a property key.  A string does; an object
    does through [Object.prototype.toString] unless it has a [toString]
    property of its own, which in a tree is no function; an array does
    when its elements do. *)
Fixpoint converts (n : AstNode) : bool :=
  match n with
  | AObj fs => negb (existsb (fun kv => String.eqb (fst kv) "toString") fs)
  | AArr l => forallb converts l
  | _ => true
  end.

Definition p_node (p : Path) : AstNode := let 'mkPath n _ _ _ _ := p in n.
Definition p_loc (p : Path) : Loc := let 'mkPath _ l _ _ _ := p in l.
Definition p_parentPath (p : Path) : option Path := let 'mkPath _ _ pp _ _ := p in pp.
Definition p_key (p : Path) : option string := let 'mkPath _ _ _ k _ := p in k.
Definition p_index (p : Path) : option nat := let 'mkPath _ _ _ _ i := p in i.

(** [path.parent] as a reference: the location of the parent node. *)
Definition p_parent (p : Path) : option Loc := p_loc <$> p_parentPath p.

(** [path.findParent(test)]: the nearest enclosing path passing [test]. *)
Fixpoint findParent (test : Path -> bool) (p : Path) : option Path :=
  match p with
  | mkPath _ _ (Some pp) _ _ => if test pp then Some pp else findParent test pp
  | mkPath _ _ None _ _ => None
  end.

(** A visitor's [enter] hook: the new value of the variables it closes
    over, and whether it called [path.skip()]. *)
Definition Visitor (St : Type) : Type := Path -> St -> St * bool.

(** [NodeVisitors]: hooks by node type. *)
Definition NodeVisitors (St : Type) : Type := list (string * Visitor St).

Definition enter {St} (visitors : NodeVisitors St) (p : Path) (s : St) : St * bool :=
  match field "type" (p_node p) with
  | AStr t =>
      match List.find (fun tv => String.eqb (fst tv) t) visitors with
      | Some tv => snd tv p s
      | None => (s, false)
      end
  | _ => (s, false)
  end.

(** Modelled from the spec: [visit] of the external parsing library, a
    tree walk with per-node-kind enter hooks and a parent/key path.  The
    walk enters a node, then descends into each property that holds a node
    or an array, in property order; array elements are entered in index
    order with the array's property name as key and their index. *)
Definition Walk (St : Type) : Type :=
  AstNode -> Loc -> option Path -> option string -> option nat -> St -> St.

Definition visit_elems {St} (rec : Walk St) (loc : Loc) (path : Path) (k : string)
  : nat -> list AstNode -> St -> St :=
  fix elems (i : nat) (l : list AstNode) (s : St) : St :=
    match l with
    | [] => s
    | c :: l' =>
        elems (S i) l' (rec c (loc ++ [SItem k i]) (Some path) (Some k) (Some i) s)
    end.

Definition visit_child {St} (rec : Walk St) (loc : Loc) (path : Path)
  (k : string) (v : AstNode) (s : St) : St :=
  match v with
  | AArr l => visit_elems rec loc path k 0%nat l s
  | AObj _ =>
      if isNode v then rec v (loc ++ [SField k]) (Some path) (Some k) None s else s
  | _ => s
  end.

Definition visit_fields {St} (rec : Walk St) (loc : Loc) (path : Path)
  : list (string * AstNode) -> St -> St :=
  fix fields (fs : list (string * AstNode)) (s : St) : St :=
    match fs with
    | [] => s
    | (k, v) :: r => fields r (visit_child rec loc path k v s)
    end.

Fixpoint visitNode {St} (visitors : NodeVisitors St) (n : AstNode) (loc : Loc)
  (parent : option Path) (key : option string) (index : option nat) (s : St)
  {struct n} : St :=
  let path := mkPath n loc parent key index in
  let '(s1, skipped) := enter visitors path s in
  if skipped then s1 else
  match n with
  | AObj fs => visit_fields (visitNode visitors) loc path fs s1
  | _ => s1
  end.

Definition visit {St} (ast : AstNode) (visitors : NodeVisitors St) (s : St) : St :=
  visitNode visitors ast [] None None None s.

(** The paths of a walk that skips nothing, in the order they are
    entered. *)
Definition Listing : Type :=
  AstNode -> Loc -> option Path -> option string -> option nat -> list Path.

Definition preorder_elems (rec : Listing) (loc : Loc) (path : Path) (k : string)
  : nat -> list AstNode -> list Path :=
  fix elems (i : nat) (l : list AstNode) : list Path :=
    match l with
    | [] => []
    | c :: l' =>
        rec c (loc ++ [SItem k i]) (Some path) (Some k) (Some i) ++ elems (S i) l'
    end.

Definition preorder_child (rec : Listing) (loc : Loc) (path : Path)
  (k : string) (v : AstNode) : list Path :=
  match v with
  | AArr l => preorder_elems rec loc path k 0%nat l
  | AObj _ =>
      if isNode v then rec v (loc ++ [SField k]) (Some path) (Some k) None else []
  | _ => []
  end.

Definition preorder_fields (rec : Listing) (loc : Loc) (path : Path)
  : list (string * AstNode) -> list Path :=
  fix fields (fs : list (string * AstNode)) : list Path :=
    match fs with
    | [] => []
    | (k, v) :: r => preorder_child rec loc path k v ++ fields r
    end.

Fixpoint preorderNode (n : AstNode) (loc : Loc) (parent : option Path)
  (key : option string) (index : option nat) {struct n} : list Path :=
  let path := mkPath n loc parent key index in
  path :: match n with
          | AObj fs => preorder_fields preorderNode loc path fs
          | _ => []
          end.

Definition preorder (ast : AstNode) : list Path := preorderNode ast [] None None None.

(** The names of the [identifier] nodes of a tree, in walk order. *)
Definition identifier_names (ast : AstNode) : list AstNode :=
  visit ast
    [("identifier",
      fun path acc => (acc ++ [field "identifier" (p_node path)], false))]
    [].

(** Constructors for the node kinds the compiler itself builds or tests. *)
Definition identifier (name : string) : AstNode :=
  AObj [("type", AStr "identifier"); ("identifier", AStr name)].

End Ast.

(** ** Graph model

    Modelled from the spec: the declarations of [Node], [Edge], [Graph] and
    [ShaderType] (in [nodestuff], not under src/), with the fields that
    [graph.ts] reads. *)

Inductive ShaderType : Type :=
| output
| shader
| add
| multiply
| other (tag : string).

#[global] Instance ShaderType_eq_dec : EqDecision ShaderType.
Proof. solve_decision. Defined.
#[global] Instance ShaderStage_eq_dec : EqDecision ShaderStage.
Proof. solve_decision. Defined.

Record Node : Type := mkNode {
  n_id : string;
  n_name : string;
  n_type : ShaderType;
  n_stage : option ShaderStage;
  n_source : option string;
  n_expressionOnly : bool;
  n_nextStageNodeId : option string;
  n_originalEngine : option string;
}.

Record Edge : Type := mkEdge {
  e_from : string;
  e_to : string;
  e_output : string;
  e_input : string;
  e_stage : option ShaderStage;
}.

Record Graph : Type := mkGraph {
  g_nodes : list Node;
  g_edges : list Edge;
}.

#[global] Instance Node_eq_dec : EqDecision Node.
Proof. solve_decision. Defined.
#[global] Instance Edge_eq_dec : EqDecision Edge.
Proof. solve_decision. Defined.

Definition type_name (t : ShaderType) : string :=
  match t with
  | output => "output"
  | shader => "shader"
  | add => "add"
  | multiply => "multiply"
  | other tag => tag
  end.

(** [graph.nodes.find((node) => edge.from === node.id)] *)
Definition find_node (graph : Graph) (id : string) : option Node :=
  Js.find (fun node => String.eqb id (n_id node)) (g_nodes graph).

(** [graph.nodes.find((node) => node.type === 'output' && node.stage === stage)] *)
Definition find_output (graph : Graph) (stage : ShaderStage) : option Node :=
  Js.find (fun node => bool_decide (n_type node = output)
                       && bool_decide (n_stage node = Some stage))
    (g_nodes graph).

(** [edges.filter((edge) => edge.to === node.id)] *)
Definition input_edges (edges : list Edge) (node : Node) : list Edge :=
  List.filter (fun edge => String.eqb (e_to edge) (n_id node)) edges.

(** ** Node contexts, engine contexts and parsers *)

(** A filler [(a: AstNode) => void] mutates the tree of the node context it
    closes over; it is the function from the filler expression and that tree
    to the tree after the call. *)
Definition InputFiller : Type := AstNode -> AstNode -> Res AstNode.

Definition NodeInputs : Type := JsObject.t InputFiller.

Record NodeContext : Type := mkNodeContext {
  nc_ast : AstNode;
  nc_source : option string;
  nc_inputs : option NodeInputs;
  nc_id : option string;
  nc_name : option string;
}.

Record EngineContext (T : Type) : Type := mkEngineContext {
  ec_engine : string;
  ec_compileCount : nat;
  ec_nodes : gmap string NodeContext;
  ec_runtime : T;
}.
Arguments mkEngineContext {T}.
Arguments ec_engine {T}.
Arguments ec_compileCount {T}.
Arguments ec_nodes {T}.
Arguments ec_runtime {T}.

(** The part of an [Engine] that a parser can read: its name and the
    identifiers it exempts from mangling.  ([mergeOptions] is not read by
    this file.) *)
Record EngineInfo : Type := mkEngineInfo {
  eng_name : string;
  eng_preserve : gset string;
}.

Record ShaderParser (T : Type) : Type := mkShaderParser {
  produceAst : EngineContext T -> EngineInfo -> Graph -> Node -> list Edge -> Res AstNode;
  findInputs : EngineContext T -> Node -> AstNode -> NodeContext -> list Edge -> Res NodeInputs;
  produceFiller : Node -> AstNode -> Res AstNode;
}.
Arguments mkShaderParser {T}.
Arguments produceAst {T}.
Arguments findInputs {T}.
Arguments produceFiller {T}.

(** [NodeParser]: a parser per stage with an optional hook, or one parser. *)
Inductive NodeParser (T : Type) : Type :=
| ProgramParser (onBeforeCompile : option (EngineContext T -> Node -> Res (EngineContext T)))
    (fragment_parser vertex_parser : ShaderParser T)
| SingleParser (parser : ShaderParser T).
Arguments ProgramParser {T}.
Arguments SingleParser {T}.

(** [Parser]: a partial table by node type. *)
Definition Parser (T : Type) : Type := ShaderType -> option (NodeParser T).

Record Engine (T : Type) : Type := mkEngine {
  eng_info : EngineInfo;
  eng_parsers : Parser T;
}.
Arguments mkEngine {T}.
Arguments eng_info {T}.
Arguments eng_parsers {T}.

(** [(stage in parser ? parser[stage] : parser)] followed by a method call:
    a per-stage parser asked for no stage has no such method. *)
Definition stage_parser {T} (parser : NodeParser T) (stage : option ShaderStage)
  : Res (ShaderParser T) :=
  match parser, stage with
  | ProgramParser _ f _, Some fragment => Ok f
  | ProgramParser _ _ v, Some vertex => Ok v
  | ProgramParser _ _ _, None => Err TypeError
  | SingleParser p, _ => Ok p
  end.

Definition emptyFiller (node : Node) (ast : AstNode) : Res AstNode := Ok AUndef.

(** ** What the compiler imports

    The GLSL preprocessor, parser and code generator, the scope renamers of
    the parsing library and the helpers of [nodestuff] are not under src/;
    the compiler is modelled over any implementation of them.  Helpers that
    mutate a tree in place return the mutated tree. *)

Record Externals : Type := mkExternals {
  ShaderSections : Type;
  emptyShaderSections : ShaderSections;
  mergeShaderSections : ShaderSections -> ShaderSections -> ShaderSections;
  findShaderSections : AstNode -> Res ShaderSections;
  preprocess : option string -> Res string;
  parse : string -> Res AstNode;
  generate : AstNode -> string;
  makeExpression : string -> Res AstNode;
  makeFnStatement : string -> Res AstNode;
  from2To3 : AstNode -> ShaderStage -> Res AstNode;
  convert300MainToReturn : AstNode -> Res AstNode;
  returnGlPositionVec3Right : AstNode -> Res AstNode;
  returnGlPosition : AstNode -> Res AstNode;
  doesLinkThruShader : Graph -> Node -> bool;
  renameBindings : AstNode -> (string -> string) -> Res AstNode;
  renameFunctions : AstNode -> (string -> string) -> Res AstNode;
}.

(** ** [graph.ts] *)

Definition alphabet : string := "abcdefghijklmnopqrstuvwxyz".

(** [s.replace(/[^a-zA-Z0-9]/g, ' ')] *)
Definition is_alnum (c : ascii) : bool :=
  let n := nat_of_ascii c in
  (((48 <=? n) && (n <=? 57)) || ((65 <=? n) && (n <=? 90))
   || ((97 <=? n) && (n <=? 122)))%nat.

Fixpoint blank_non_alnum (s : string) : string :=
  match s with
  | EmptyString => EmptyString
  | String c r => String (if is_alnum c then c else " "%char) (blank_non_alnum r)
  end.

(** [s.replace(/ +/g, '_')]: every maximal run of spaces becomes one
    underscore. *)
Fixpoint underscore_runs (in_run : bool) (s : string) : string :=
  match s with
  | EmptyString => EmptyString
  | String c r =>
      if Ascii.eqb c " "%char
      then if in_run then underscore_runs true r
           else String "_"%char (underscore_runs true r)
      else String c (underscore_runs false r)
  end.

Definition nodeName (node : Node) : string :=
  "main_" +:+ underscore_runs false (blank_non_alnum (n_name node)).

(** *** Binary-operation nodes *)

Section BinaryNode.
Context (X : Externals) {T : Type}.

(** The text handed to [makeExpression]: one placeholder letter per input
    edge joined by the operator, or [a op b] when no edge is connected. *)
Definition binary_placeholders (inputEdges : list Edge) : list string :=
  imap (fun index _ => Js.charAt alphabet index) inputEdges.

Definition binary_expression_text (operation : string) (inputEdges : list Edge)
  : string :=
  if bool_decide (length inputEdges ≠ 0%nat)
  then Js.join (" " +:+ operation +:+ " ") (binary_placeholders inputEdges)
  else "a " +:+ operation +:+ " b".

Definition binary_produceAst (operation : string)
  (engineContext : EngineContext T) (engine : EngineInfo) (graph : Graph)
  (node : Node) (inputEdges : list Edge) : Res AstNode :=
  e ← makeExpression X (binary_expression_text operation inputEdges);
  mret (AObj [("type", AStr "program"); ("program", AArr [e]); ("scopes", AArr [])]).

(** The visitor of a slot's filler: remember the last [identifier] node
    named by the letter. *)
Definition find_letter (letter : string) (ast : AstNode) : option Path :=
  Ast.visit ast
    [("identifier",
      fun path foundPath =>
        (if Ast.is_str letter (Ast.field "identifier" (Ast.p_node path))
         then Some path else foundPath, false))]
    None.

(** The filler of slot [letter].  It reads [nodeContext.ast] when it is
    called; the last branch rebinds [nodeContext.ast] itself. *)
Definition binary_filler (letter : string) : InputFiller :=
  fun fillerAst ast =>
    match find_letter letter ast with
    | None => Err (MissingFillerTarget letter)
    | Some foundPath =>
        match Ast.p_parent foundPath, Ast.p_key foundPath with
        | Some parent, Some key =>
            if Js.truthy_string (Some key)
            then Ok (Ast.update_at (Ast.set_field key fillerAst) parent ast)
            else Ok fillerAst
        | _, _ => Ok fillerAst
        end
    end.

Definition binary_slots (inputEdges : list Edge) : list string :=
  map (Js.charAt alphabet) (seq 0 (Nat.max (length inputEdges + 1) 2)).

Definition binary_findInputs (engineContext : EngineContext T) (node : Node)
  (ast : AstNode) (nodeContext : NodeContext) (inputEdges : list Edge)
  : Res NodeInputs :=
  Ok (fold_left
        (fun inputs letter => JsObject.set letter (binary_filler letter) inputs)
        (binary_slots inputEdges) JsObject.empty).

(** [ast.program], which throws when there is no tree. *)
Definition binary_produceFiller (node : Node) (ast : AstNode) : Res AstNode :=
  match ast with
  | AUndef => Err TypeError
  | _ => Ok (Ast.field "program" ast)
  end.

Definition binaryNode (operation : string) : NodeParser T :=
  SingleParser
    {| produceAst := binary_produceAst operation;
       findInputs := binary_findInputs;
       produceFiller := binary_produceFiller |}.

End BinaryNode.

(** *** Finding splice points *)

(** [findVec4Constructor]: the nearest ancestor with a [right] property of
    the last [vec4(...)] call entered; calls inside a [vec4(...)] call are
    skipped. *)
Definition findVec4Constructor (ast : AstNode) : option Loc :=
  Ast.visit ast
    [("function_call",
      fun path parent =>
        if Ast.is_str "vec4"
             (Ast.field "token" (Ast.field "specifier" (Ast.field "identifier" (Ast.p_node path))))
        then (Ast.p_loc <$> Ast.findParent (fun p => Ast.has_field "right" (Ast.p_node p)) path,
              true)
        else (parent, false))]
    None.

(** [findAssignmentTo]: the last expression statement whose expression has
    [assignTo] as left identifier; nothing inside an expression statement is
    entered. *)
Definition findAssignmentTo (ast : AstNode) (assignTo : string) : option Loc :=
  Ast.visit ast
    [("expression_statement",
      fun path assign =>
        (if Ast.is_str assignTo
              (Ast.field "identifier" (Ast.field "left" (Ast.field "expression" (Ast.p_node path))))
         then Some (Ast.p_loc path) else assign,
         true))]
    None.

(** [xs.find(p)] with the index of the element found. *)
Fixpoint find_index {A} (p : A -> bool) (xs : list A) : option nat :=
  match xs with
  | [] => None
  | x :: rest => if p x then Some 0%nat else S <$> find_index p rest
  end.

Section Parsers.
Context (X : Externals) {T : Type}.

(** **** Output nodes *)

Definition output_produceAst (engineContext : EngineContext T) (engine : EngineInfo)
  (graph : Graph) (node : Node) (inputEdges : list Edge) : Res AstNode :=
  preprocessed ← preprocess X (n_source node);
  parse X preprocessed.

(** [color]: [assignNode.right = fillerAst] *)
Definition color_filler (assignNode : Loc) : InputFiller :=
  fun fillerAst ast => Ok (Ast.update_at (Ast.set_field "right" fillerAst) assignNode ast).

Definition output_fragment_findInputs (engineContext : EngineContext T) (node : Node)
  (ast : AstNode) (nodeContext : NodeContext) (inputEdges : list Edge)
  : Res NodeInputs :=
  match findVec4Constructor ast with
  | None => Err NoAssignNode
  | Some assignNode => Ok (JsObject.set "color" (color_filler assignNode) JsObject.empty)
  end.

(** [mainStmts]:
    [ast.program.find((stmt) => stmt.type === 'function')
        .body.statements.unshift(makeFnStatement(generate(fillerAst)))].
    The callee chain is evaluated before the argument. *)
Definition mainStmts_filler : InputFiller :=
  fun fillerAst ast =>
    program ← from_option TypeError (Ast.items (Ast.field "program" ast));
    i ← from_option TypeError (find_index (Ast.type_is "function") program);
    statements ← from_option TypeError
      (Ast.items (Ast.field "statements" (Ast.field "body" (default AUndef (program !! i)))));
    stmt ← makeFnStatement X (generate X fillerAst);
    Ok (Ast.update_at (fun _ => AArr (stmt :: statements))
          [SItem "program" i; SField "body"; SField "statements"] ast).

(** [position]: [assignNode.expression.right = fillerAst].  The closure
    holds the statement found by [findInputs]; [mainStmts] may have put
    statements in front of it since, so the statement is addressed by its
    anchored location. *)
Definition position_filler (assignNode : Loc) : InputFiller :=
  fun fillerAst ast =>
    Ok (Ast.update_at (Ast.set_field "right" fillerAst)
          (Ast.resolve ast assignNode ++ [SField "expression"]) ast).

Definition output_vertex_findInputs (engineContext : EngineContext T) (node : Node)
  (ast : AstNode) (nodeContext : NodeContext) (inputEdges : list Edge)
  : Res NodeInputs :=
  match findAssignmentTo ast "gl_Position" with
  | None => Err NoAssignNode
  | Some assignNode =>
      Ok (JsObject.set "position" (position_filler (Ast.anchor ast assignNode))
            (JsObject.set "mainStmts" mainStmts_filler JsObject.empty))
  end.

(** **** Shader nodes *)

(** The "total hack": names of one runtime's varyings replaced by the
    other's. *)
Definition three_to_babylon (name : string) : string :=
  if String.eqb name "vUv" then "vMainUV1"
  else if String.eqb name "vNormal" then "vNormalW"
  else name.

(** The mangling of bindings:
    [(name) => engine.preserve.has(name) ? name : `${name}_${node.id}`] *)
Definition mangle_binding (engine : EngineInfo) (node : Node) (name : string) : string :=
  if bool_decide (name ∈ eng_preserve engine) then name
  else name +:+ "_" +:+ n_id node.

(** The mangling of functions:
    [(name) => name === 'main' ? nodeName(node) : `${name}_${node.id}`] *)
Definition mangle_function (node : Node) (name : string) : string :=
  if String.eqb name "main" then nodeName node
  else name +:+ "_" +:+ n_id node.

Definition shader_fragment_produceAst (engineContext : EngineContext T)
  (engine : EngineInfo) (graph : Graph) (node : Node) (inputEdges : list Edge)
  : Res AstNode :=
  fragmentPreprocessed ← preprocess X (n_source node);
  fragmentAst ← parse X fragmentPreprocessed;
  fragmentAst ← from2To3 X fragmentAst fragment;
  fragmentAst ←
    (if bool_decide (n_originalEngine node = Some "three")
        && String.eqb (eng_name engine) "babylon"
     then renameBindings X fragmentAst three_to_babylon
     else Ok fragmentAst);
  fragmentAst ← convert300MainToReturn X fragmentAst;
  fragmentAst ← renameBindings X fragmentAst (mangle_binding engine node);
  renameFunctions X fragmentAst (mangle_function node).

(** The calls the fragment parser offers as inputs: [texture2D] calls that
    sit in a property of their parent. *)
Definition fragment_texture2Dcalls (ast : AstNode) : list (Loc * string) :=
  Ast.visit ast
    [("function_call",
      fun path texture2Dcalls =>
        (if Ast.is_str "texture2D"
              (Ast.field "identifier" (Ast.field "specifier" (Ast.field "identifier" (Ast.p_node path))))
            && Js.truthy_string (Ast.p_key path)
         then texture2Dcalls ++ [(Ast.p_loc path, default "" (Ast.p_key path))]
         else texture2Dcalls,
         false))]
    [].

(** The fragment parser pairs the call node itself, not its parent, with
    the key: the filler assigns to that property of the call. *)
Definition shader_fragment_findInputs (engineContext : EngineContext T) (node : Node)
  (ast : AstNode) (nodeContext : NodeContext) (inputEdges : list Edge)
  : Res NodeInputs :=
  Ok (fold_left
        (fun inputs '(index, (parent, key)) =>
           JsObject.set ("texture2d_" +:+ Js.of_nat index)
             (fun fillerAst ast => Ok (Ast.update_at (Ast.set_field key fillerAst) parent ast))
             inputs)
        (imap (fun index call => (index, call)) (fragment_texture2Dcalls ast))
        JsObject.empty).

Definition shader_produceFiller (node : Node) (ast : AstNode) : Res AstNode :=
  makeExpression X (nodeName node +:+ "()").

Definition shader_vertex_produceAst (engineContext : EngineContext T)
  (engine : EngineInfo) (graph : Graph) (node : Node) (inputEdges : list Edge)
  : Res AstNode :=
  if negb (Js.truthy_string (n_source node)) then Ok (AObj [("type", AStr "empty")])
  else
    vertexPreprocessed ← preprocess X (n_source node);
    vertexAst ← parse X vertexPreprocessed;
    vertexAst ← from2To3 X vertexAst vertex;
    vertexAst ←
      (if doesLinkThruShader X graph node
       then returnGlPositionVec3Right X vertexAst
       else returnGlPosition X vertexAst);
    vertexAst ← renameBindings X vertexAst (mangle_binding engine node);
    renameFunctions X vertexAst (mangle_function node).

(** One reference of the binding [position]: an identifier or a parameter
    declaration of that name takes the generated text of the filler. *)
Definition rewrite_reference (name text : string) (ref : AstNode) : AstNode :=
  if Ast.type_is "identifier" ref && Ast.is_str name (Ast.field "identifier" ref)
  then Ast.set_field "identifier" (AStr text) ref
  else if Ast.type_is "parameter_declaration" ref
          && Ast.is_str name
               (Ast.field "identifier" (Ast.field "identifier" (Ast.field "declaration" ref)))
  then Ast.update_at (Ast.set_field "identifier" (AStr text))
         [SField "declaration"; SField "identifier"] ref
  else ref.

Definition shader_vertex_position_filler : InputFiller :=
  fun fillerAst ast =>
    scopes ← from_option TypeError (Ast.items (Ast.field "scopes" ast));
    scope ← from_option TypeError (scopes !! 0%nat);
    let references :=
      default []
        (Ast.items (Ast.field "references" (Ast.field "position" (Ast.field "bindings" scope)))) in
    Ok (fold_left
          (fun ast ref =>
             match ref with
             | ARef target =>
                 Ast.update_at (rewrite_reference "position" (generate X fillerAst)) target ast
             | _ => ast
             end)
          references ast).

Definition shader_vertex_findInputs (engineContext : EngineContext T) (node : Node)
  (ast : AstNode) (nodeContext : NodeContext) (inputEdges : list Edge)
  : Res NodeInputs :=
  Ok (JsObject.set "position" shader_vertex_position_filler JsObject.empty).

(** **** The built-in parser table *)

(** What [parsers[type]] finds under the name of a member of
    [Object.prototype]: a function, or the prototype, without the methods of
    a parser and without a stage; calling a method on it throws. *)
Definition inherited_parser : NodeParser T :=
  SingleParser
    {| produceAst := fun _ _ _ _ _ => Err TypeError;
       findInputs := fun _ _ _ _ _ => Err TypeError;
       produceFiller := fun _ _ => Err TypeError |}.

Definition parsers : Parser T := fun type =>
  match type with
  | output =>
      Some (ProgramParser None
              {| produceAst := output_produceAst;
                 findInputs := output_fragment_findInputs;
                 produceFiller := emptyFiller |}
              {| produceAst := output_produceAst;
                 findInputs := output_vertex_findInputs;
                 produceFiller := emptyFiller |})
  | shader =>
      Some (ProgramParser None
              {| produceAst := shader_fragment_produceAst;
                 findInputs := shader_fragment_findInputs;
                 produceFiller := shader_produceFiller |}
              {| produceAst := shader_vertex_produceAst;
                 findInputs := shader_vertex_findInputs;
                 produceFiller := shader_produceFiller |})
  | add => Some (binaryNode X "+")
  | multiply => Some (binaryNode X "*")
  | other tag => if Js.inherited tag then Some inherited_parser else None
  end.

End Parsers.

(** *** Connected nodes *)

Definition NodeIds : Type := JsObject.t Node.

(** The recursion of [collectConnectedNodes] and of [compileNode] follows
    the edges backward and is bounded only by the call stack: [depth] is the
    number of nested calls the stack still allows, and running out of it is
    the error JavaScript throws then. *)
Fixpoint collectConnectedNodes (depth : nat) (graph : Graph) (edges : list Edge)
  (node : Node) (ids : NodeIds) : Res NodeIds :=
  match depth with
  | O => Err StackExhausted
  | S depth =>
      let inputEdges := input_edges edges node in
      if bool_decide (length inputEdges ≠ 0%nat) then
        compiledIds ←
          for_each
            (fun compiledIds edge =>
               fromNode ← from_option (DanglingEdge (e_from edge))
                            (find_node graph (e_from edge));
               childIds ← collectConnectedNodes depth graph edges fromNode ids;
               Ok (JsObject.spread compiledIds childIds))
            inputEdges ids;
        Ok (JsObject.set (n_id node) node compiledIds)
      else
        Ok (JsObject.set (n_id node) node ids)
  end.

(** *** The compiler *)

Section Compiler.
Context (X : Externals) {T : Type}.

Abbreviation Sections := (ShaderSections X).

(** [engine.parsers[node.type] || parsers[node.type]] *)
Definition lookup_parser (engine : Engine T) (node : Node) : option (NodeParser T) :=
  match eng_parsers engine (n_type node) with
  | Some parser => Some parser
  | None => parsers X (n_type node)
  end.

(** The tree of a node as the engine context holds it. *)
Definition context_ast (engineContext : EngineContext T) (id : string) : AstNode :=
  match ec_nodes engineContext !! id with
  | Some nodeContext => nc_ast nodeContext
  | None => AUndef
  end.

Definition set_context_ast (id : string) (ast : AstNode)
  (engineContext : EngineContext T) : EngineContext T :=
  {| ec_engine := ec_engine engineContext;
     ec_compileCount := ec_compileCount engineContext;
     ec_nodes :=
       alter (fun nodeContext =>
                {| nc_ast := ast;
                   nc_source := nc_source nodeContext;
                   nc_inputs := nc_inputs nodeContext;
                   nc_id := nc_id nodeContext;
                   nc_name := nc_name nodeContext |})
         id (ec_nodes engineContext);
     ec_runtime := ec_runtime engineContext |}.

(** [node.expressionOnly ? emptyShaderSections() : findShaderSections(ast)] *)
Definition own_sections (node : Node) (ast : AstNode) : Res Sections :=
  if n_expressionOnly node then Ok (emptyShaderSections X)
  else findShaderSections X ast.

Definition CompileNodeResult : Type := Sections * AstNode * NodeIds.

(** [const nodeContext = engineContext.nodes[node.id]] and, when that is
    truthy, [const { ast, inputs } = nodeContext]: the node context stored
    under the id or, under the name of a member of [Object.prototype], that
    member, which has neither a tree nor inputs. *)
Definition node_context (engineContext : EngineContext T) (node : Node)
  : Res (AstNode * option NodeInputs) :=
  match ec_nodes engineContext !! n_id node with
  | Some nodeContext => Ok (nc_ast nodeContext, nc_inputs nodeContext)
  | None =>
      if Js.inherited (n_id node) then Ok (AUndef, None)
      else Err (MissingNodeContext (n_id node))
  end.

(** A member of [Object.prototype] called as a method of [inputs] on the
    filler expression.  [constructor], [valueOf], [toString] and
    [isPrototypeOf] return; [toLocaleString] calls [inputs.toString()],
    which is the input of that name when there is one; [hasOwnProperty],
    [propertyIsEnumerable], [__lookupGetter__] and [__lookupSetter__]
    convert the expression to a property key; [__defineGetter__] and
    [__defineSetter__] throw for want of a function as second argument, and
    [__proto__] is no function. *)
Definition call_member (inputs : NodeInputs) (member : string)
  (fillerAst ast : AstNode) : Res AstNode :=
  if existsb (String.eqb member) ["constructor"; "valueOf"; "toString"; "isPrototypeOf"]
  then Ok ast
  else if String.eqb member "toLocaleString" then
    match JsObject.get "toString" inputs with
    | Some filler => filler AUndef ast
    | None => Ok ast
    end
  else if existsb (String.eqb member)
            ["hasOwnProperty"; "propertyIsEnumerable"; "__lookupGetter__"; "__lookupSetter__"]
  then if Ast.converts fillerAst then Ok ast else Err TypeError
  else Err TypeError.

(** [if (!(edge.input in inputs)) throw ...; inputs[edge.input](fillerAst)] *)
Definition call_input (inputs : NodeInputs) (input : string)
  (fillerAst ast : AstNode) : Res AstNode :=
  match JsObject.get input inputs with
  | Some filler => filler fillerAst ast
  | None =>
      if Js.inherited input then call_member inputs input fillerAst ast
      else Err (UnknownInputPort input)
  end.

(** [compileNode] returns its result and leaves the trees of the engine
    context mutated by the fillers it called. *)
Fixpoint compileNode (depth : nat) (engine : Engine T) (graph : Graph)
  (edges : list Edge) (engineContext : EngineContext T) (node : Node)
  (stage : ShaderStage) (ids : NodeIds)
  : Res (CompileNodeResult * EngineContext T) :=
  match depth with
  | O => Err StackExhausted
  | S depth =>
      parser ← from_option (MissingParser (type_name (n_type node)))
                 (lookup_parser engine node);
      '(ast, inputs) ← node_context engineContext node;
      let inputEdges := input_edges edges node in
      if bool_decide (length inputEdges ≠ 0%nat) then
        '(continuation, compiledIds, engineContext) ←
          for_each
            (fun '(continuation, compiledIds, engineContext) edge =>
               fromNode ← from_option (DanglingEdge (e_from edge))
                            (find_node graph (e_from edge));
               '(inputSections, fillerAst, childIds, engineContext) ←
                 compileNode depth engine graph edges engineContext fromNode stage ids;
               if negb (Ast.truthy fillerAst) then Err (MissingFillerAst (n_id fromNode))
               else
                 let continuation := mergeShaderSections X continuation inputSections in
                 let compiledIds := JsObject.spread compiledIds childIds in
                 inputs ← from_option MissingInputs inputs;
                 ast ← call_input inputs (e_input edge) fillerAst
                         (context_ast engineContext (n_id node));
                 Ok (continuation, compiledIds,
                     set_context_ast (n_id node) ast engineContext))
            inputEdges (emptyShaderSections X, ids, engineContext);
        own ← own_sections node (context_ast engineContext (n_id node));
        let sections := mergeShaderSections X continuation own in
        shaderParser ← stage_parser parser (Some stage);
        filler ← produceFiller shaderParser node (context_ast engineContext (n_id node));
        Ok (sections, filler, JsObject.set (n_id node) node compiledIds, engineContext)
      else
        sections ← own_sections node ast;
        shaderParser ← stage_parser parser (Some stage);
        filler ← produceFiller shaderParser node ast;
        Ok (sections, filler, JsObject.set (n_id node) node ids, engineContext)
  end.

Definition computeNodeContext (engineContext : EngineContext T) (engine : Engine T)
  (graph : Graph) (parser : NodeParser T) (node : Node) (stage : option ShaderStage)
  : Res (NodeContext * EngineContext T) :=
  engineContext ←
    match parser with
    | ProgramParser (Some onBeforeCompile) _ _ => onBeforeCompile engineContext node
    | _ => Ok engineContext
    end;
  let inputEdges := input_edges (g_edges graph) node in
  shaderParser ← stage_parser parser stage;
  ast ← produceAst shaderParser engineContext (eng_info engine) graph node inputEdges;
  let nodeContext :=
    {| nc_ast := ast; nc_source := None; nc_inputs := None;
       nc_id := Some (n_id node); nc_name := Some (n_name node) |} in
  inputs ← findInputs shaderParser engineContext node ast nodeContext inputEdges;
  Ok ({| nc_ast := ast; nc_source := None; nc_inputs := Some inputs;
         nc_id := Some (n_id node); nc_name := Some (n_name node) |},
      engineContext).

(** [context[node.id] = {...(context[node.id] || {}), ...nodeContext}]: the
    new context sets [ast], [id], [name] and [inputs]; a [source] that was
    there stays.  (A member of [Object.prototype] found under the id has no
    enumerable property to spread.) *)
Definition store_context (id : string) (nodeContext : NodeContext)
  (engineContext : EngineContext T) : EngineContext T :=
  {| ec_engine := ec_engine engineContext;
     ec_compileCount := ec_compileCount engineContext;
     ec_nodes :=
       <[id :=
           {| nc_ast := nc_ast nodeContext;
              nc_source := (ec_nodes engineContext !! id) ≫= nc_source;
              nc_inputs := nc_inputs nodeContext;
              nc_id := nc_id nodeContext;
              nc_name := nc_name nodeContext |}]>
         (ec_nodes engineContext);
     ec_runtime := ec_runtime engineContext |}.

Definition computeSideContext (engineContext : EngineContext T) (engine : Engine T)
  (graph : Graph) (nodes : list Node) : Res (EngineContext T) :=
  for_each
    (fun engineContext node =>
       parser ← from_option (MissingParser (type_name (n_type node)))
                  (lookup_parser engine node);
       '(nodeContext, engineContext) ←
         computeNodeContext engineContext engine graph parser node (n_stage node);
       Ok (store_context (n_id node) nodeContext engineContext))
    nodes engineContext.

Definition computeAllContexts (engineContext : EngineContext T) (engine : Engine T)
  (graph : Graph) : Res (EngineContext T) :=
  computeSideContext engineContext engine graph (g_nodes graph).

(** The filter that finds the vertex nodes feeding the fragment stage
    without being connected to the vertex output:
    [fragmentIds[node.nextStageNodeId] && !vertexIds[node.id]]. *)
Definition is_orphan (fragmentIds vertexIds : NodeIds) (node : Node) : bool :=
  bool_decide (n_stage node = Some vertex)
  && Js.truthy_string (n_nextStageNodeId node)
  && JsObject.has_in (default "" (n_nextStageNodeId node)) fragmentIds
  && negb (JsObject.has_in (n_id node) vertexIds).

Definition computeGraphContext (depth : nat) (engineContext : EngineContext T)
  (engine : Engine T) (graph : Graph) : Res (EngineContext T) :=
  outputFrag ← from_option (MissingOutputNode fragment) (find_output graph fragment);
  outputVert ← from_option (MissingOutputNode vertex) (find_output graph vertex);
  vertexIds ← collectConnectedNodes depth graph (g_edges graph) outputVert JsObject.empty;
  fragmentIds ← collectConnectedNodes depth graph (g_edges graph) outputFrag JsObject.empty;
  let additionalIds := List.filter (is_orphan fragmentIds vertexIds) (g_nodes graph) in
  engineContext ←
    computeSideContext engineContext engine graph
      (outputFrag :: JsObject.values fragmentIds);
  computeSideContext engineContext engine graph
    (outputVert :: JsObject.values vertexIds ++ additionalIds).

Record CompileGraphResult : Type := mkCompileGraphResult {
  r_fragment : Sections;
  r_vertex : Sections;
}.

(** The edge synthesized for an orphan. *)
Definition orphan_edge (outputVert node : Node) : Edge :=
  {| e_from := n_id node;
     e_to := n_id outputVert;
     e_output := "main";
     e_input := "mainStmts";
     e_stage := Some vertex |}.

Definition orphanEdges (graph : Graph) (outputVert : Node)
  (fragmentIds vertexIds : NodeIds) : list Edge :=
  map (orphan_edge outputVert)
    (List.filter (is_orphan fragmentIds vertexIds) (g_nodes graph)).

(** [compileGraph] works on the graph object and on the engine context it
    is given: it returns the two programs together with the graph and the
    context as the call leaves them. *)
Definition compileGraph (depth : nat) (engineContext : EngineContext T)
  (engine : Engine T) (graph : Graph)
  : Res (CompileGraphResult * Graph * EngineContext T) :=
  engineContext ← computeGraphContext depth engineContext engine graph;
  outputFrag ← from_option (MissingOutputNode fragment) (find_output graph fragment);
  '(fragmentSections, _, fragmentIds, engineContext) ←
    compileNode depth engine graph (g_edges graph) engineContext outputFrag
      fragment JsObject.empty;
  outputVert ← from_option (MissingOutputNode vertex) (find_output graph vertex);
  vertexIds ← collectConnectedNodes depth graph (g_edges graph) outputVert JsObject.empty;
  let orphans := orphanEdges graph outputVert fragmentIds vertexIds in
  '(vertexSections, _, _, engineContext) ←
    compileNode depth engine graph (g_edges graph ++ orphans) engineContext
      outputVert vertex JsObject.empty;
  let engineContext :=
    {| ec_engine := ec_engine engineContext;
       ec_compileCount := S (ec_compileCount engineContext);
       ec_nodes := ec_nodes engineContext;
       ec_runtime := ec_runtime engineContext |} in
  Ok ({| r_fragment := fragmentSections; r_vertex := vertexSections |},
      graph, engineContext).

End Compiler.

Arguments r_fragment {X} _.
Arguments r_vertex {X} _.

(** ** Input-discovery strategies

    A strategy returns, for every input it discovers, the descriptor of the
    input and a filler.  A filler is kept as the closure it is: its kind and
    the variables it captured, a captured node being its location in the
    tree the strategy scanned. *)

Inductive Category := data | code.

#[global] Instance Category_eq_dec : EqDecision Category.
Proof. solve_decision. Defined.

Record NodeInput : Type := mkNodeInput {
  i_name : string;
  i_id : string;
  i_category : Category;
  i_bakeable : bool;
}.

Inductive StrategyFiller : Type :=
| HardCodeFiller
| UniformFiller (name : string) (statement : nat) (declarations : list AstNode)
| Texture2DFiller (parent : Loc) (key : string).

Definition ComputedInput : Type := NodeInput * StrategyFiller.

(** [(fillerAst) => { parent[key] = fillerAst; return ast; }] *)
Definition fill_texture2D (parent : Loc) (key : string) (fillerAst ast : AstNode)
  : AstNode :=
  Ast.update_at (Ast.set_field key fillerAst) parent ast.

Module Strategy.
Section Runners.
Context (X : Externals).

(** [StrategyType.HARD_CODE] *)
Definition hard_code (inputs : list NodeInput) : list ComputedInput :=
  map (fun input => (input, HardCodeFiller)) inputs.

(** The test of the Uniform strategy on one top-level statement. *)
Definition has_uniform_qualifier (node : AstNode) : bool :=
  match Ast.field "qualifiers" (Ast.field "specified_type" (Ast.field "declaration" node)) with
  | AArr qualifiers => existsb (fun n => Ast.is_str "uniform" (Ast.field "token" n)) qualifiers
  | _ => false
  end.

Definition uniformType (node : AstNode) : AstNode :=
  Ast.field "token"
    (Ast.field "specifier"
       (Ast.field "specifier" (Ast.field "specified_type" (Ast.field "declaration" node)))).

Definition is_uniform_line (node : AstNode) : bool :=
  Ast.type_is "declaration_statement" node
  && has_uniform_qualifier node
  && negb (Ast.is_str "sampler2D" (uniformType node)).

(** [d.identifier.identifier], a string in the trees of the parser (the
    source casts the names to [string[]]). *)
Definition declared_name (d : AstNode) : Res string :=
  match Ast.field "identifier" d with
  | AObj _ as identifier =>
      match Ast.field "identifier" identifier with
      | AStr name => Ok name
      | _ => Err TypeError
      end
  | _ => Err TypeError
  end.

Fixpoint declared_names (declarations : list AstNode) : Res (list string) :=
  match declarations with
  | [] => Ok []
  | d :: rest =>
      name ← declared_name d;
      names ← declared_names rest;
      Ok (name :: names)
  end.

Definition uniform_input (name : string) : NodeInput :=
  {| i_name := name; i_id := name; i_category := data; i_bakeable := true |}.

(** The inputs of one top-level statement, the [index]-th of the program. *)
Definition uniform_line (index : nat) (node : AstNode) : Res (list ComputedInput) :=
  if is_uniform_line node then
    declarations ← from_option TypeError
                     (Ast.items (Ast.field "declarations" (Ast.field "declaration" node)));
    names ← declared_names declarations;
    Ok (map (fun name => (uniform_input name, UniformFiller name index declarations)) names)
  else Ok [].

Fixpoint uniform_lines (index : nat) (program : list AstNode)
  : Res (list ComputedInput) :=
  match program with
  | [] => Ok []
  | node :: rest =>
      inputs ← uniform_line index node;
      more ← uniform_lines (S index) rest;
      Ok (inputs ++ more)
  end.

(** [StrategyType.UNIFORM]: [ast.program.flatMap(...)] *)
Definition uniform (graphNode : Node) (ast : AstNode) : Res (list ComputedInput) :=
  program ← from_option TypeError (Ast.items (Ast.field "program" ast));
  uniform_lines 0 program.

(** [StrategyType.TEXTURE_2D] *)

Definition is_sample_call (node : AstNode) : bool :=
  let callee :=
    Ast.field "identifier" (Ast.field "specifier" (Ast.field "identifier" node)) in
  Ast.is_str "texture2D" callee || Ast.is_str "texture" callee.

(** What [seen] holds under a name: a count, or the text that adding 1 to
    a function gave. *)
Inductive Seen : Type :=
| Count (n : nat)
| NotACount.

(** [seen[name] = (seen[name] || 0) + 1].  Under the name of a member of
    [Object.prototype] the first read finds that member: adding 1 to it
    gives a text, and to that text again.  Under [__proto__] the assignment
    of a text is ignored. *)
Definition count_seen (name : string) (seen : JsObject.t Seen) : JsObject.t Seen :=
  match JsObject.get name seen with
  | Some (Count n) => JsObject.set name (Count (n + 1)) seen
  | Some NotACount => JsObject.set name NotACount seen
  | None =>
      if Js.inherited name then
        if String.eqb name "__proto__" then seen else JsObject.set name NotACount seen
      else JsObject.set name (Count 1) seen
  end.

Definition Texture2DScan : Type := list (string * Loc * string) * JsObject.t Seen.

Definition texture2D_enter : Ast.Visitor (Res Texture2DScan) :=
  fun path state =>
    (if is_sample_call (Ast.p_node path) && Js.truthy_string (Ast.p_key path) then
       '(texture2Dcalls, seen) ← state;
       parent ← from_option NoParent (Ast.p_parent path);
       args ← from_option TypeError (Ast.items (Ast.field "args" (Ast.p_node path)));
       let name := generate X (default AUndef (args !! 0%nat)) in
       Ok (texture2Dcalls ++ [(name, parent, default "" (Ast.p_key path))],
           count_seen name seen)
     else state,
     false).

Definition texture2D_scan (ast : AstNode) : Res Texture2DScan :=
  Ast.visit ast [("function_call", texture2D_enter)] (Ok ([], JsObject.empty)).

(** [count > 1], which no text satisfies. *)
Definition more_than_once (count : Seen) : bool :=
  match count with
  | Count n => (1 <? n)%nat
  | NotACount => false
  end.

(** The names seen more than once. *)
Definition repeated_names (seen : JsObject.t Seen) : gset string :=
  list_to_set
    (fold_left
       (fun arr '(name, count) => arr ++ (if more_than_once count then [name] else []))
       seen []).

Definition texture2D_input (names : gset string) (index : nat)
  (call : string * Loc * string) : ComputedInput :=
  let '(name, parent, key) := call in
  let iName :=
    if bool_decide (name ∈ names) then name +:+ "_" +:+ Js.of_nat index else name in
  ({| i_name := iName; i_id := iName; i_category := code; i_bakeable := false |},
   Texture2DFiller parent key).

Definition texture2D (node : Node) (ast : AstNode) : Res (list ComputedInput) :=
  '(texture2Dcalls, seen) ← texture2D_scan ast;
  Ok (imap (texture2D_input (repeated_names seen)) texture2Dcalls).

End Runners.
End Strategy.

(** ** Statements of the design document, in its words *)

Definition alphabet_letters : list string :=
  ["a"; "b"; "c"; "d"; "e"; "f"; "g"; "h"; "i"; "j"; "k"; "l"; "m";
   "n"; "o"; "p"; "q"; "r"; "s"; "t"; "u"; "v"; "w"; "x"; "y"; "z"].

(** "An expression chaining exactly [k] placeholder identifiers (the first
    [k] letters of the alphabet, assigned in edge order) joined by the
    node's operator." *)
Definition chains_first_letters (operation : string) (k : nat) (text : string) : Prop :=
  exists letters,
    letters = take k alphabet_letters
    /\ length letters = k
    /\ text = Js.join (" " +:+ operation +:+ " ") letters.

(** "A filler map with exactly [max(k+1, 2)] entries, keyed by the first
    [max(k+1, 2)] lowercase letters, even though the synthesized expression
    contains only [max(k, 2)] placeholder identifiers." *)
Definition one_slot_more_than_placeholders (X : Externals) (operation : string)
  (inputEdges : list Edge) : Prop :=
  let k := length inputEdges in
  forall (engineContext : EngineContext unit) engine graph node nodeContext,
  exists inputs ast,
    binary_produceAst X operation engineContext engine graph node inputEdges = Ok ast
    /\ binary_findInputs engineContext node ast nodeContext inputEdges = Ok inputs
    /\ JsObject.keys inputs = take (Nat.max (k + 1) 2) alphabet_letters
    /\ length inputs = Nat.max (k + 1) 2
    /\ length (Ast.identifier_names ast) = Nat.max k 2.

(** "The per-node mangling renames each occurrence of an identifier [x]
    that two distinct nodes declare to [x] suffixed with that node's id,
    yielding two distinct identifiers, never a collision." *)
Definition mangles_by_node_id (rename : Node -> string -> string) : Prop :=
  forall (n1 n2 : Node) (x : string),
    n_id n1 <> n_id n2 ->
    rename n1 x = x +:+ "_" +:+ n_id n1
    /\ rename n2 x = x +:+ "_" +:+ n_id n2
    /\ rename n1 x <> rename n2 x.

(** Backward reachability.  [feeds graph edges n m]: an edge ends at [n]
    and its source id resolves to [m]; [reaches_back] follows such edges any
    number of times. *)
Definition feeds (graph : Graph) (edges : list Edge) (n m : Node) : Prop :=
  exists e, e ∈ edges /\ e_to e = n_id n /\ find_node graph (e_from e) = Some m.

Definition reaches_back (graph : Graph) (edges : list Edge) : Node -> Node -> Prop :=
  rtc (feeds graph edges).

(** "Memoized by node id: node ids already present in the visited mapping
    are not revisited."  Collecting from a node whose id the mapping already
    holds then adds no id to it. *)
Definition skips_visited_nodes : Prop :=
  forall depth graph edges node ids r,
    JsObject.has (n_id node) ids = true ->
    collectConnectedNodes depth graph edges node ids = Ok r ->
    forall id, JsObject.has id r = JsObject.has id ids.

(** "An edge references a node id absent from the graph", at either end. *)
Definition dangling (graph : Graph) (e : Edge) : Prop :=
  find_node graph (e_from e) = None \/ find_node graph (e_to e) = None.

(** "For every edge whose from id or to id does not resolve, compilation
    aborts with a DanglingEdge error." *)
Definition aborts_on_dangling_edges (X : Externals) : Prop :=
  forall depth (engineContext : EngineContext unit) engine graph e,
    e ∈ g_edges graph -> dangling graph e ->
    exists from, compileGraph X depth engineContext engine graph = Err (DanglingEdge from).

(** The texture-sample calls of a tree: the [function_call] nodes, in walk
    order, whose callee is [texture2D] or [texture] and that sit in a
    property of a parent. *)
Definition is_sample_site (p : Path) : bool :=
  Ast.type_is "function_call" (Ast.p_node p)
  && Strategy.is_sample_call (Ast.p_node p)
  && Js.truthy_string (Ast.p_key p).

Definition sample_sites (ast : AstNode) : list Path :=
  List.filter is_sample_site (Ast.preorder ast).

(** A call with an argument list. *)
Definition has_args (p : Path) : Prop :=
  is_Some (Ast.items (Ast.field "args" (Ast.p_node p))).

(** The text of the first argument of a call. *)
Definition site_name (X : Externals) (p : Path) : string :=
  generate X
    (default AUndef (default [] (Ast.items (Ast.field "args" (Ast.p_node p))) !! 0)).

Definition count_name (name : string) (names : list string) : nat :=
  length (List.filter (String.eqb name) names).

(** "For any first-argument text occurring more than once, every occurrence
    of that text gets an input name formed by suffixing its occurrence
    index; a text occurring exactly once keeps its plain text." *)
Definition occurrence_suffixed (names : list string) : list string :=
  imap (fun i name =>
          if (1 <? count_name name names)%nat
          then name +:+ "_" +:+ Js.of_nat (count_name name (take i names))
          else name)
    names.

Definition names_by_occurrence_index (X : Externals) : Prop :=
  forall node ast inputs,
    Strategy.texture2D X node ast = Ok inputs ->
    map (fun input => i_name (fst input)) inputs
    = occurrence_suffixed (map (site_name X) (sample_sites ast)).

(** The names a declaration statement declares, when it is well formed. *)
Definition declared (node : AstNode) : list string :=
  match Ast.items (Ast.field "declarations" (Ast.field "declaration" node)) with
  | Some declarations =>
      match Strategy.declared_names declarations with
      | Ok names => names
      | Err _ => []
      end
  | None => []
  end.

(** A declaration statement as the parser builds it: a list of declarators
    whose identifiers hold a name. *)
Definition well_declared (node : AstNode) : Prop :=
  exists declarations names,
    Ast.items (Ast.field "declarations" (Ast.field "declaration" node)) = Some declarations
    /\ Strategy.declared_names declarations = Ok names.

(** "A sampler type": the opaque sampler types of GLSL, [sampler2D],
    [samplerCube], [sampler3D], [isampler2D], [usampler2D] and the like. *)
Definition is_sampler_type (token : AstNode) : bool :=
  match token with
  | AStr t => String.prefix "sampler" t || String.prefix "isampler" t
              || String.prefix "usampler" t
  | _ => false
  end.

(** "For every uniform declaration whose declared type is a sampler type it
    produces no input." *)
Definition skips_sampler_uniforms : Prop :=
  forall index node,
    Ast.type_is "declaration_statement" node = true ->
    Strategy.has_uniform_qualifier node = true ->
    is_sampler_type (Strategy.uniformType node) = true ->
    Strategy.uniform_line index node = Ok [].

(** The programs of a compilation as text, when it returned. *)
Definition compiled_text (X : Externals) {T} (text : ShaderSections X -> list string)
  (r : Res (CompileGraphResult X * Graph * EngineContext T))
  : option (list string * list string) :=
  match r with
  | Ok (result, _, _) => Some (text (r_fragment result), text (r_vertex result))
  | Err _ => None
  end.

(** ** Auxiliary notions for the proofs *)

(** A walk whose visitors never skip enters the paths of [preorder] in
    order. *)
Definition never_skips {St} (visitors : Ast.NodeVisitors St) : Prop :=
  forall p s, snd (Ast.enter visitors p s) = false.

Definition walk_step {St} (visitors : Ast.NodeVisitors St) (s : St) (p : Path) : St :=
  fst (Ast.enter visitors p s).

Definition walk_agrees {St} (visitors : Ast.NodeVisitors St) (n : AstNode) : Prop :=
  forall loc parent key index s,
    Ast.visitNode visitors n loc parent key index s =
      fold_left (walk_step visitors) (Ast.preorderNode n loc parent key index) s.

(** The step of the walk that lists identifier names. *)
Definition names_step (names : list AstNode) (p : Path) : list AstNode :=
  if Ast.type_is "identifier" (Ast.p_node p)
  then names ++ [Ast.field "identifier" (Ast.p_node p)] else names.

Definition failed {A} (r : Res A) : Prop := exists e, r = Err e.

(** The step of the loop of [collectConnectedNodes] over the input edges. *)
Definition collect_edge (graph : Graph) (edges : list Edge) (depth : nat)
  (ids compiledIds : NodeIds) (edge : Edge) : Res NodeIds :=
  fromNode ← from_option (DanglingEdge (e_from edge)) (find_node graph (e_from edge));
  childIds ← collectConnectedNodes depth graph edges fromNode ids;
  Ok (JsObject.spread compiledIds childIds).

(** The errors of [collectConnectedNodes]: a source id that does not
    resolve, and the exhausted stack. *)
Definition collect_error (graph : Graph) (e : Error) : Prop :=
  e = StackExhausted \/ exists from, e = DanglingEdge from /\ find_node graph from = None.

(** What the mapping returned by [collectConnectedNodes] holds, and what it
    holds after some of the input edges. *)
Definition collected (graph : Graph) (edges : list Edge) (node : Node)
  (ids r : NodeIds) : Prop :=
  (forall id, JsObject.has id r = true <->
                JsObject.has id ids = true
                \/ exists m, reaches_back graph edges node m /\ n_id m = id)
  /\ (forall id m, (id, m) ∈ r ->
                   (id, m) ∈ ids \/ (reaches_back graph edges node m /\ n_id m = id)).

Definition collected_through (graph : Graph) (edges : list Edge) (node : Node)
  (ids : NodeIds) (done : list Edge) (r : NodeIds) : Prop :=
  (forall id, JsObject.has id r = true <->
                JsObject.has id ids = true
                \/ exists e y m, e ∈ done /\ find_node graph (e_from e) = Some y
                                 /\ reaches_back graph edges y m /\ n_id m = id)
  /\ (forall id m, (id, m) ∈ r ->
                   (id, m) ∈ ids \/ (reaches_back graph edges node m /\ n_id m = id)).

(** The step of the scan of the Texture2D strategy at a sample call. *)
Definition add_call (X : Externals) (state : Res Strategy.Texture2DScan) (p : Path)
  : Res Strategy.Texture2DScan :=
  '(texture2Dcalls, seen) ← state;
  parent ← from_option NoParent (Ast.p_parent p);
  args ← from_option TypeError (Ast.items (Ast.field "args" (Ast.p_node p)));
  let name := generate X (default AUndef (args !! 0)) in
  Ok (texture2Dcalls ++ [(name, parent, default "" (Ast.p_key p))],
      Strategy.count_seen name seen).

Definition call_of (X : Externals) (p : Path) : string * Loc * string :=
  (site_name X p, default [] (Ast.p_parent p), default "" (Ast.p_key p)).

Definition seen_of (names : list string) : JsObject.t Strategy.Seen :=
  fold_left (fun seen name => Strategy.count_seen name seen) names JsObject.empty.

(** [seen] holds the number of occurrences of every name that is not the
    name of a member of [Object.prototype], a text under the names of the
    members, and nothing under [__proto__]. *)
Definition counts (names : list string) (seen : JsObject.t Strategy.Seen) : Prop :=
  NoDup (JsObject.keys seen)
  /\ forall name,
       JsObject.get name seen =
         if (count_name name names =? 0)%nat then None
         else if Js.inherited name then
           if String.eqb name "__proto__" then None else Some Strategy.NotACount
         else Some (Strategy.Count (count_name name names)).

Definition input_names (inputs : list ComputedInput) : list string :=
  map (fun input => i_name (fst input)) inputs.

Definition is_uniform_input (input : ComputedInput) : Prop :=
  i_category (fst input) = data
  /\ i_bakeable (fst input) = true
  /\ i_id (fst input) = i_name (fst input).

(** Objects have one property per key. *)
Fixpoint unique_keys (n : AstNode) : bool :=
  match n with
  | AObj fs =>
      bool_decide (NoDup (map fst fs)) && forallb (fun kv => unique_keys (snd kv)) fs
  | AArr l => forallb unique_keys l
  | _ => true
  end.

(** A path of a walk from [root] sits where it says: its location leads to
    its node; the root has neither parent nor key, and the parent of another
    node is an object that holds the node under the key of the path,
    directly or at the index of the path in an array. *)
Definition sits_in (root : AstNode) (p : Path) : Prop :=
  Ast.at_loc (Ast.p_loc p) root = Ast.p_node p
  /\ match Ast.p_parentPath p with
     | None => Ast.p_key p = None
     | Some pp =>
         Ast.at_loc (Ast.p_loc pp) root = Ast.p_node pp
         /\ exists fs key,
              Ast.p_node pp = AObj fs
              /\ Ast.p_key p = Some key
              /\ match Ast.p_index p with
                 | None => Ast.lookup key fs = Ast.p_node p
                 | Some i => exists l, Ast.lookup key fs = AArr l
                                       /\ l !! i = Some (Ast.p_node p)
                 end
     end.

Definition paths_sit (root : AstNode) (n : AstNode) : Prop :=
  forall loc parent key index,
    unique_keys n = true ->
    sits_in root (mkPath n loc parent key index) ->
    forall p, p ∈ Ast.preorderNode n loc parent key index -> sits_in root p.

(** ** Mangling in [produceAst] *)

(** What the mangling steps rely on in the renaming functions of the parser
    library, in terms of two readings of a tree, the names of its global
    bindings and those of its functions: [renameBindings] maps the former
    and [renameFunctions] the latter, and each leaves the other names. *)
Definition renaming_contract (X : Externals) (bindings functions : AstNode -> list string)
  : Prop :=
  (forall ast mapper ast',
     renameBindings X ast mapper = Ok ast' ->
     bindings ast' = map mapper (bindings ast) /\ functions ast' = functions ast)
  /\ (forall ast mapper ast',
        renameFunctions X ast mapper = Ok ast' ->
        functions ast' = map mapper (functions ast) /\ bindings ast' = bindings ast).

(** The source of a node parsed, the first steps of [produceAst] in both
    shader parsers. *)
Definition parsed_source (X : Externals) (stage : ShaderStage) (node : Node) : Res AstNode :=
  preprocessed ← preprocess X (n_source node);
  ast ← parse X preprocessed;
  from2To3 X ast stage.

(** [node.originalEngine === 'three' && engine.name === 'babylon'] *)
Definition three_on_babylon (engine : EngineInfo) (node : Node) : bool :=
  bool_decide (n_originalEngine node = Some "three") && String.eqb (eng_name engine) "babylon".

(** The tree that [produceAst] hands to its two mangling steps. *)
Definition before_mangling (X : Externals) (stage : ShaderStage) (engine : EngineInfo)
  (graph : Graph) (node : Node) : Res AstNode :=
  ast ← parsed_source X stage node;
  match stage with
  | fragment =>
      ast ← (if three_on_babylon engine node
             then renameBindings X ast three_to_babylon
             else Ok ast);
      convert300MainToReturn X ast
  | vertex =>
      if doesLinkThruShader X graph node
      then returnGlPositionVec3Right X ast
      else returnGlPosition X ast
  end.

(** [parsers[ShaderType.shader][stage].produceAst] *)
Definition shader_produceAst (X : Externals) {T : Type} (stage : ShaderStage)
  : EngineContext T -> EngineInfo -> Graph -> Node -> list Edge -> Res AstNode :=
  match stage with
  | fragment => shader_fragment_produceAst X
  | vertex => shader_vertex_produceAst X
  end.

(** ** A small implementation of the imports

    To run the compiler on concrete graphs the imports are instantiated
    with a small implementation: sources are looked up in a table of parsed
    programs, the generator prints the identifiers, literals and keywords of
    a tree in walk order, and [makeExpression] reads operator chains of
    identifiers and calls without arguments. *)

Module Sample.

Definition literal (text : string) : AstNode :=
  AObj [("type", AStr "literal"); ("literal", AStr text)].

Definition keyword (token : string) : AstNode :=
  AObj [("type", AStr "keyword"); ("token", AStr token)].

Definition binary (left : AstNode) (operator : string) (right : AstNode) : AstNode :=
  AObj [("type", AStr "binary"); ("left", left); ("operator", literal operator);
        ("right", right)].

(** A call of a named function, [callee(args)]. *)
Definition call (callee : string) (args : list AstNode) : AstNode :=
  AObj [("type", AStr "function_call");
        ("identifier",
         AObj [("type", AStr "type_specifier"); ("specifier", Ast.identifier callee)]);
        ("lp", literal "("); ("args", AArr args); ("rp", literal ")")].

(** A constructor call, [vec4(args)]: the callee is a keyword. *)
Definition construct (token : string) (args : list AstNode) : AstNode :=
  AObj [("type", AStr "function_call");
        ("identifier",
         AObj [("type", AStr "type_specifier"); ("specifier", keyword token)]);
        ("lp", literal "("); ("args", AArr args); ("rp", literal ")")].

Definition assignment (left : AstNode) (right : AstNode) : AstNode :=
  AObj [("type", AStr "assignment"); ("left", left); ("operator", literal "=");
        ("right", right)].

Definition expression_statement (expression : AstNode) : AstNode :=
  AObj [("type", AStr "expression_statement"); ("expression", expression);
        ("semi", literal ";")].

(** [returnType name() { statements }] *)
Definition function (returnType name : string) (statements : list AstNode) : AstNode :=
  AObj [("type", AStr "function");
        ("prototype",
         AObj [("type", AStr "function_prototype");
               ("header",
                AObj [("type", AStr "function_header");
                      ("returnType", keyword returnType);
                      ("name", Ast.identifier name);
                      ("lp", literal "(")]);
               ("rp", literal ")")]);
        ("body",
         AObj [("type", AStr "compound_statement"); ("lb", literal "{");
               ("statements", AArr statements); ("rb", literal "}")])].

(** [qualifiers type names;] *)
Definition declaration_statement (qualifiers : list string) (type : string)
  (names : list string) : AstNode :=
  AObj [("type", AStr "declaration_statement");
        ("declaration",
         AObj [("type", AStr "declarator_list");
               ("specified_type",
                AObj [("type", AStr "fully_specified_type");
                      ("qualifiers", AArr (map keyword qualifiers));
                      ("specifier",
                       AObj [("type", AStr "type_specifier");
                             ("specifier", keyword type)])]);
               ("declarations",
                AArr (map (fun name =>
                             AObj [("type", AStr "declaration");
                                   ("identifier", Ast.identifier name)])
                        names))]);
        ("semi", literal ";")].

Definition program (statements : list AstNode) : AstNode :=
  AObj [("type", AStr "program"); ("program", AArr statements);
        ("scopes", AArr [AObj [("name", AStr "global"); ("bindings", AObj [])]])].

Definition text_of (n : AstNode) : string :=
  match n with
  | AStr s => s
  | _ => ""
  end.

Definition emit (property : string) : Ast.Visitor string :=
  fun path text => (text +:+ text_of (Ast.field property (Ast.p_node path)), false).

Definition generate (ast : AstNode) : string :=
  Ast.visit ast
    [("identifier", emit "identifier"); ("literal", emit "literal");
     ("keyword", emit "token")]
    "".

(** The words of a text separated by single spaces. *)
Fixpoint words (s : string) (word : string) : list string :=
  match s with
  | EmptyString => [word]
  | String c rest =>
      if Ascii.eqb c " "%char then word :: words rest ""
      else words rest (word +:+ String c EmptyString)
  end.

Definition is_identifier_char (c : ascii) : bool :=
  is_alnum c || Ascii.eqb c "_"%char.

Fixpoint all_chars (p : ascii -> bool) (s : string) : bool :=
  match s with
  | EmptyString => true
  | String c rest => p c && all_chars p rest
  end.

Definition is_identifier (s : string) : bool :=
  negb (String.eqb s "") && all_chars is_identifier_char s.

(** [operand (operator operand)*], nested to the left. *)
Fixpoint chain (left : AstNode) (rest : list string) : Res AstNode :=
  match rest with
  | [] => Ok left
  | operator :: operand :: rest =>
      if is_identifier operand
      then chain (binary left operator (Ast.identifier operand)) rest
      else Err (ExternalError "syntax error")
  | _ => Err (ExternalError "syntax error")
  end.

Definition makeExpression (text : string) : Res AstNode :=
  let n := String.length text in
  if String.eqb (substring (n - 2) 2 text) "()"
     && is_identifier (substring 0 (n - 2) text)
  then Ok (call (substring 0 (n - 2) text) [])
  else
    match words text "" with
    | operand :: rest =>
        if is_identifier operand then chain (Ast.identifier operand) rest
        else Err (ExternalError "syntax error")
    | [] => Err (ExternalError "syntax error")
    end.

Definition makeFnStatement (text : string) : Res AstNode :=
  expression ← makeExpression text;
  Ok (expression_statement expression).

Definition parse (table : list (string * AstNode)) (source : string) : Res AstNode :=
  from_option (ExternalError "syntax error")
    (snd <$> List.find (fun entry => String.eqb (fst entry) source) table).

(** The sections of a program: its top-level statements, merged by
    concatenation. *)
Definition findShaderSections (ast : AstNode) : Res (list AstNode) :=
  from_option TypeError (Ast.items (Ast.field "program" ast)).

(** The declared functions of a program renamed: the name in the header
    of every top-level function. *)
Definition rename_function (mapper : string -> string) (statement : AstNode) : AstNode :=
  if Ast.type_is "function" statement then
    Ast.update_at
      (fun name => Ast.set_field "identifier"
                     (AStr (mapper (text_of (Ast.field "identifier" name)))) name)
      [SField "prototype"; SField "header"; SField "name"] statement
  else statement.

Definition renameFunctions (ast : AstNode) (mapper : string -> string) : Res AstNode :=
  program ← from_option TypeError (Ast.items (Ast.field "program" ast));
  Ok (Ast.set_field "program" (AArr (map (rename_function mapper) program)) ast).

Definition externals (table : list (string * AstNode)) : Externals :=
  mkExternals (list AstNode) [] app findShaderSections
    (from_option TypeError) (parse table) generate makeExpression makeFnStatement
    (fun ast _ => Ok ast) Ok Ok Ok (fun _ _ => false)
    (fun ast _ => Ok ast) renameFunctions.

(** An engine without parsers of its own, and a fresh context for it. *)
Definition engine : Engine unit :=
  {| eng_info := {| eng_name := "three"; eng_preserve := {["gl_Position"; "position"]} |};
     eng_parsers := fun _ => None |}.

Definition fresh_context : EngineContext unit :=
  {| ec_engine := "three"; ec_compileCount := 0; ec_nodes := ∅; ec_runtime := tt |}.

(** Sources of output nodes and their trees. *)
Definition fragment_source : string := "void main() { gl_FragColor = vec4(1.0); }".
Definition fragment_tree : AstNode :=
  program
    [function "void" "main"
       [expression_statement
          (assignment (Ast.identifier "gl_FragColor") (construct "vec4" [literal "1.0"]))]].

Definition vertex_source : string := "void main() { gl_Position = vec4(position, 1.0); }".
Definition vertex_main : AstNode :=
  function "void" "main"
    [expression_statement
       (assignment (Ast.identifier "gl_Position")
          (construct "vec4" [Ast.identifier "position"; literal ","; literal "1.0"]))].
Definition vertex_tree : AstNode := program [vertex_main].

Definition outputFrag : Node :=
  {| n_id := "1"; n_name := "Output F"; n_type := output; n_stage := Some fragment;
     n_source := Some fragment_source; n_expressionOnly := false;
     n_nextStageNodeId := None; n_originalEngine := None |}.

Definition outputVert : Node :=
  {| n_id := "2"; n_name := "Output V"; n_type := output; n_stage := Some vertex;
     n_source := Some vertex_source; n_expressionOnly := false;
     n_nextStageNodeId := None; n_originalEngine := None |}.

(** Sources of shader nodes. *)
Definition varying_source : string := "void main() { vPos = position; }".
Definition varying_tree : AstNode :=
  program
    [function "void" "main"
       [expression_statement
          (assignment (Ast.identifier "vPos") (Ast.identifier "position"))]].

Definition helper_source : string :=
  "float scale() {} void main() { gl_Position = vec4(position, 1.0); }".
Definition helper_tree : AstNode := program [function "float" "scale" []; vertex_main].

Definition table : list (string * AstNode) :=
  [(fragment_source, fragment_tree); (vertex_source, vertex_tree);
   (varying_source, varying_tree); (helper_source, helper_tree)].

Definition edge (from to input : string) (stage : ShaderStage) : Edge :=
  {| e_from := from; e_to := to; e_output := "out"; e_input := input;
     e_stage := Some stage |}.

Definition plain_node (id : string) (type : ShaderType) (stage : ShaderStage) : Node :=
  {| n_id := id; n_name := "Node " +:+ id; n_type := type; n_stage := Some stage;
     n_source := None; n_expressionOnly := true;
     n_nextStageNodeId := None; n_originalEngine := None |}.

End Sample.

(** Sample graphs. *)
Module SampleGraphs.
Import Sample.

(** A diamond: node 3 feeds nodes 4 and 5, which both feed node 6. *)
Definition diamond : Graph :=
  {| g_nodes := [plain_node "3" shader fragment; plain_node "4" shader fragment;
                 plain_node "5" shader fragment; plain_node "6" add fragment];
     g_edges := [edge "3" "4" "x" fragment; edge "3" "5" "x" fragment;
                 edge "4" "6" "a" fragment; edge "5" "6" "b" fragment] |}.

Definition diamond_rank (id : string) : nat :=
  if String.eqb id "6" then 2 else if String.eqb id "3" then 0 else 1.

(** The two outputs, an unconnected node 9, an edge into an id that no
    node has and an edge from such an id into node 9. *)
Definition loose_ends : Graph :=
  {| g_nodes := [outputFrag; outputVert; plain_node "9" shader fragment];
     g_edges := [edge "1" "nowhere" "x" fragment; edge "ghost" "9" "x" fragment] |}.

(** A vertex node 7 linked to the fragment node 8, which colours the
    fragment output; nothing connects node 7 to the vertex output. *)
Definition node7 : Node :=
  {| n_id := "7"; n_name := "Varying"; n_type := shader; n_stage := Some vertex;
     n_source := Some varying_source; n_expressionOnly := false;
     n_nextStageNodeId := Some "8"; n_originalEngine := None |}.

Definition node8 : Node :=
  {| n_id := "8"; n_name := "Colour"; n_type := shader; n_stage := Some fragment;
     n_source := Some fragment_source; n_expressionOnly := false;
     n_nextStageNodeId := None; n_originalEngine := None |}.

Definition with_orphan : Graph :=
  {| g_nodes := [outputFrag; outputVert; node7; node8];
     g_edges := [edge "8" "1" "color" fragment] |}.

(** The same graph with a vertex output whose source declares a helper
    function before [main]. *)
Definition outputVert_with_helper : Node :=
  {| n_id := "2"; n_name := "Output V"; n_type := output; n_stage := Some vertex;
     n_source := Some helper_source; n_expressionOnly := false;
     n_nextStageNodeId := None; n_originalEngine := None |}.

Definition with_orphan_and_helper : Graph :=
  {| g_nodes := [outputFrag; outputVert_with_helper; node7; node8];
     g_edges := [edge "8" "1" "color" fragment] |}.

(** An edge from an id that no node has into the fragment output. *)
Definition broken_input : Graph :=
  {| g_nodes := [outputFrag; outputVert];
     g_edges := [edge "ghost" "1" "color" fragment] |}.

(** The graph with the orphan node 7, and an edge from an id that no node
    has into node 7. *)
Definition broken_orphan_input : Graph :=
  {| g_nodes := [outputFrag; outputVert; node7; node8];
     g_edges := [edge "8" "1" "color" fragment; edge "ghost" "7" "position" vertex] |}.

End SampleGraphs.

(** Sample trees for the strategies. *)
Module SampleTrees.
Import Sample.

(** [target = callee(sampler, uv);] *)
Definition sample_statement (target callee sampler : string) : AstNode :=
  expression_statement
    (assignment (Ast.identifier target)
       (call callee [Ast.identifier sampler; literal ","; Ast.identifier "uv"])).

(** [void main() { c = texture2D(other, uv); d = texture2D(tex, uv);
    e = texture2D(tex, uv); }] *)
Definition three_samples : AstNode :=
  program
    [function "void" "main"
       [sample_statement "c" "texture2D" "other";
        sample_statement "d" "texture2D" "tex";
        sample_statement "e" "texture2D" "tex"]].

(** [void main() { c = texture2D(tex, uv); d = texture2D(tex, uv); }] *)
Definition two_samples : AstNode :=
  program
    [function "void" "main"
       [sample_statement "c" "texture2D" "tex";
        sample_statement "d" "texture2D" "tex"]].

(** [void main() { c = texture2D(constructor, uv); d = texture2D(constructor, uv); }] *)
Definition two_constructors : AstNode :=
  program
    [function "void" "main"
       [sample_statement "c" "texture2D" "constructor";
        sample_statement "d" "texture2D" "constructor"]].

(** [void main() { c = mix(texture2D(a, uv), texture2D(b, uv)); }] *)
Definition nested_samples : AstNode :=
  program
    [function "void" "main"
       [expression_statement
          (assignment (Ast.identifier "c")
             (call "mix"
                [call "texture2D" [Ast.identifier "a"; literal ","; Ast.identifier "uv"];
                 literal ",";
                 call "texture2D" [Ast.identifier "b"; literal ","; Ast.identifier "uv"]]))]].

(** [void main() { c = texture(tex2, uv); }] *)
Definition one_sample : AstNode :=
  program [function "void" "main" [sample_statement "c" "texture" "tex2"]].

(** [uniform vec4 color; uniform float a, b; uniform sampler2D map;
    uniform samplerCube env; varying vec2 vUv; void main() {}] *)
Definition uniforms : AstNode :=
  program
    [declaration_statement ["uniform"] "vec4" ["color"];
     declaration_statement ["uniform"] "float" ["a"; "b"];
     declaration_statement ["uniform"] "sampler2D" ["map"];
     declaration_statement ["uniform"] "samplerCube" ["env"];
     declaration_statement ["varying"] "vec2" ["vUv"];
     function "void" "main" []].

End SampleTrees.

(** Programs whose global scope lists the names of their bindings and
    functions, and renaming functions that rename the listed names. *)
Module SampleScopes.

Definition scope_table (table : string) : Loc := [SItem "scopes" 0; SField table].

Definition scoped (bindings functions : list string) (statements : list AstNode) : AstNode :=
  AObj [("type", AStr "program"); ("program", AArr statements);
        ("scopes",
         AArr [AObj [("name", AStr "global");
                     ("bindings",
                      AObj (map (fun name => (name, AObj [("references", AArr [])]))
                              bindings));
                     ("functions",
                      AObj (map (fun name => (name, AObj [("references", AArr [])]))
                              functions))]])].

Definition names (table : string) (ast : AstNode) : list string :=
  match Ast.at_loc (scope_table table) ast with
  | AObj entries => map fst entries
  | _ => []
  end.

Definition rename (table : string) (ast : AstNode) (mapper : string -> string)
  : Res AstNode :=
  match Ast.at_loc (scope_table table) ast with
  | AObj entries =>
      Ok (Ast.update_at
            (fun _ => AObj (map (fun entry => (mapper (fst entry), snd entry)) entries))
            (scope_table table) ast)
  | _ => Err TypeError
  end.

Definition externals (table : list (string * AstNode)) : Externals :=
  mkExternals (list AstNode) [] app Sample.findShaderSections
    (from_option TypeError) (Sample.parse table) Sample.generate Sample.makeExpression
    Sample.makeFnStatement
    (fun ast _ => Ok ast) Ok Ok Ok (fun _ _ => false)
    (rename "bindings") (rename "functions").

(** [varying vec2 vUv; uniform float x; float noise() {} void main() {}] *)
Definition noise_source : string :=
  "varying vec2 vUv; uniform float x; float noise() {} void main() {}".
Definition noise_tree : AstNode :=
  scoped ["vUv"; "x"; "position"] ["noise"; "main"]
    [Sample.declaration_statement ["varying"] "vec2" ["vUv"];
     Sample.declaration_statement ["uniform"] "float" ["x"];
     Sample.function "float" "noise" []; Sample.function "void" "main" []].

Definition table : list (string * AstNode) := [(noise_source, noise_tree)].

Definition noise_node (id : string) (stage : ShaderStage) (originalEngine : option string)
  : Node :=
  {| n_id := id; n_name := "Noise"; n_type := shader; n_stage := Some stage;
     n_source := Some noise_source; n_expressionOnly := false;
     n_nextStageNodeId := None; n_originalEngine := originalEngine |}.

Definition babylon : EngineInfo :=
  {| eng_name := "babylon"; eng_preserve := {["vMainUV1"]} |}.

End SampleScopes.
(** ** Further notions for the properties of the code *)

(** The characters of an identifier after its first: letters, digits and
    the underscore. *)
Definition word_char (c : ascii) : bool := is_alnum c || Ascii.eqb c "_"%char.

Fixpoint every_char (p : ascii -> bool) (s : string) : bool :=
  match s with
  | EmptyString => true
  | String c r => p c && every_char p r
  end.

(** No underscore is followed by an underscore. *)
Fixpoint underscores_apart (s : string) : bool :=
  match s with
  | EmptyString => true
  | String a r =>
      match r with
      | String b _ => negb (Ascii.eqb a "_"%char && Ascii.eqb b "_"%char)
      | EmptyString => true
      end && underscores_apart r
  end.

(** The first character of a string passes a test. *)
Definition starts_with (p : ascii -> bool) (s : string) : bool :=
  match s with
  | EmptyString => false
  | String c _ => p c
  end.

(** Induction along the parents of a path. *)
Section PathInduction.
Variable P : Path -> Prop.
Hypothesis Hroot : forall n l k i, P (mkPath n l None k i).
Hypothesis Hchild : forall n l pp k i, P pp -> P (mkPath n l (Some pp) k i).

Fixpoint Path_parent_ind (p : Path) : P p :=
  match p with
  | mkPath n l (Some pp) k i => Hchild n l pp k i (Path_parent_ind pp)
  | mkPath n l None k i => Hroot n l k i
  end.
End PathInduction.

(** A property of the variables of a walk that every visited path keeps
    is kept by the walk, whatever the visitors skip. *)
Definition walk_keeps {St} (visitors : Ast.NodeVisitors St) (P : St -> Prop)
  (n : AstNode) : Prop :=
  forall loc parent key index s,
    (forall p s, p ∈ Ast.preorderNode n loc parent key index -> P s ->
                 P (walk_step visitors s p)) ->
    P s -> P (Ast.visitNode visitors n loc parent key index s).

(** The parent of a path of a walk is a path of the walk, one step above. *)
Definition parents_listed (n : AstNode) : Prop :=
  forall loc parent key index p,
    p ∈ Ast.preorderNode n loc parent key index ->
    p = mkPath n loc parent key index
    \/ exists pp step,
         Ast.p_parentPath p = Some pp
         /\ pp ∈ Ast.preorderNode n loc parent key index
         /\ Ast.p_loc p = Ast.p_loc pp ++ [step].

(** The calls the fragment parser of shader nodes makes inputs of. *)
Definition is_texture2D_site (p : Path) : bool :=
  Ast.type_is "function_call" (Ast.p_node p)
  && Ast.is_str "texture2D"
       (Ast.field "identifier" (Ast.field "specifier" (Ast.field "identifier" (Ast.p_node p))))
  && Js.truthy_string (Ast.p_key p).

Definition texture2D_sites (ast : AstNode) : list Path :=
  List.filter is_texture2D_site (Ast.preorder ast).

(** The test of the visitor of a binary node's filler. *)
Definition names_letter (letter : string) (p : Path) : bool :=
  Ast.type_is "identifier" (Ast.p_node p)
  && Ast.is_str letter (Ast.field "identifier" (Ast.p_node p)).

(** A parser without an [onBeforeCompile] hook, and an engine whose own
    parsers have none.  (The built-in parsers have none.) *)
Definition no_hook {T} (parser : NodeParser T) : Prop :=
  match parser with
  | ProgramParser (Some _) _ _ => False
  | _ => True
  end.

Definition hook_free {T} (engine : Engine T) : Prop :=
  forall type parser, eng_parsers engine type = Some parser -> no_hook parser.

(** Two node contexts that differ at most in their tree. *)
Definition same_but_tree (a b : NodeContext) : Prop :=
  nc_source b = nc_source a /\ nc_inputs b = nc_inputs a
  /\ nc_id b = nc_id a /\ nc_name b = nc_name a.

(** What [compileNode] may change in an engine context: the trees of node
    contexts, and nothing else. *)
Definition fills_only {T} (before after : EngineContext T) : Prop :=
  ec_engine after = ec_engine before
  /\ ec_compileCount after = ec_compileCount before
  /\ ec_runtime after = ec_runtime before
  /\ forall id,
       option_Forall2 same_but_tree (ec_nodes before !! id) (ec_nodes after !! id).

(** A two-node cycle below the fragment output. *)
Definition cyclic_graph : Graph :=
  {| g_nodes := [Sample.outputFrag; Sample.outputVert;
                 Sample.plain_node "3" add fragment; Sample.plain_node "4" add fragment];
     g_edges := [Sample.edge "3" "1" "color" fragment; Sample.edge "4" "3" "a" fragment;
                 Sample.edge "3" "4" "a" fragment] |}.

(** A node that a compilation can pass: it has a parser; the record of
    node contexts holds a node context under its id, or the id names a
    member of [Object.prototype]; and every edge of the list that ends at it
    comes from a node of the graph and names an input that the node context
    of the node has, as a property of its own or as a member of
    [Object.prototype]. *)
Definition wired {T} (X : Externals) (engine : Engine T) (graph : Graph)
  (edges : list Edge) (engineContext : EngineContext T) (m : Node) : Prop :=
  is_Some (lookup_parser X engine m)
  /\ (is_Some (ec_nodes engineContext !! n_id m) \/ Js.inherited (n_id m) = true)
  /\ forall e, e ∈ edges -> e_to e = n_id m ->
       is_Some (find_node graph (e_from e))
       /\ exists nodeContext inputs,
            ec_nodes engineContext !! n_id m = Some nodeContext
            /\ nc_inputs nodeContext = Some inputs
            /\ JsObject.has_in (e_input e) inputs = true.

(** An orphan of a graph: a node of the vertex stage whose non-empty
    [nextStageNodeId] is the id of a node reached backward from the fragment
    output or the name of a member of [Object.prototype], while its own id
    is neither the id of a node reached backward from the vertex output nor
    such a name. *)
Definition orphan (graph : Graph) (outputFrag outputVert node : Node) : Prop :=
  node ∈ g_nodes graph
  /\ n_stage node = Some vertex
  /\ (exists next,
        n_nextStageNodeId node = Some next
        /\ next <> ""
        /\ ((exists m, reaches_back graph (g_edges graph) outputFrag m /\ n_id m = next)
            \/ Js.inherited next = true))
  /\ (forall m, reaches_back graph (g_edges graph) outputVert m -> n_id m <> n_id node)
  /\ Js.inherited (n_id node) = false.

(** The sample graph with an orphan, and a node 9 that feeds the orphan
    and nothing else. *)
Definition orphan_with_input : Graph :=
  {| g_nodes := g_nodes SampleGraphs.with_orphan ++ [Sample.plain_node "9" add vertex];
     g_edges := g_edges SampleGraphs.with_orphan
                ++ [Sample.edge "9" "7" "position" vertex] |}.

(** The references that the filler of [position] rewrites: identifiers and
    parameter declarations of that name. *)
Definition names_position (n : AstNode) : bool :=
  (Ast.type_is "identifier" n && Ast.is_str "position" (Ast.field "identifier" n))
  || (Ast.type_is "parameter_declaration" n
      && Ast.is_str "position"
           (Ast.field "identifier" (Ast.field "identifier" (Ast.field "declaration" n)))).

(** The references of the binding [position] in scope 0 of a tree. *)
Definition position_references (ast : AstNode) : list AstNode :=
  match Ast.field "scopes" ast with
  | AArr (scope :: _) =>
      default []
        (Ast.items (Ast.field "references" (Ast.field "position" (Ast.field "bindings" scope))))
  | _ => []
  end.

(** An engine without parsers of its own: every node is read by the
    built-in parsers. *)
Definition builtin_only {T} (engine : Engine T) : Prop :=
  forall type, eng_parsers engine type = None.

(** The node contexts of [a], as far as a compilation reads them (tree and
    inputs), are node contexts of [b]. *)
Definition mirrored {T} (a b : EngineContext T) : Prop :=
  forall id nodeContext,
    ec_nodes a !! id = Some nodeContext ->
    exists nodeContext',
      ec_nodes b !! id = Some nodeContext'
      /\ nc_ast nodeContext' = nc_ast nodeContext
      /\ nc_inputs nodeContext' = nc_inputs nodeContext.

(** The sample graph with an orphan fed by node 9, started with a stale
    node context for node 9. *)
Definition stale_context : EngineContext unit :=
  {| ec_engine := "three"; ec_compileCount := 3;
     ec_nodes := {["9" := mkNodeContext
                           (AObj [("type", AStr "program");
                                  ("program", AArr [Ast.identifier "stale"]);
                                  ("scopes", AArr [])])
                           None (Some JsObject.empty) (Some "9") (Some "Node 9")]};
     ec_runtime := tt |}.

(** The orphan fed by a node whose id names a member of [Object.prototype],
    a stale node context for that node, and externals whose
    [findShaderSections] returns no section when it is given no tree. *)
Definition named_node : Node :=
  {| n_id := "toString"; n_name := "Named"; n_type := shader; n_stage := Some vertex;
     n_source := Some Sample.varying_source; n_expressionOnly := false;
     n_nextStageNodeId := None; n_originalEngine := None |}.

Definition orphan_with_named_input : Graph :=
  {| g_nodes := g_nodes SampleGraphs.with_orphan ++ [named_node];
     g_edges := g_edges SampleGraphs.with_orphan
                ++ [Sample.edge "toString" "7" "position" vertex] |}.

Definition named_stale_context : EngineContext unit :=
  {| ec_engine := "three"; ec_compileCount := 1;
     ec_nodes := {["toString" := mkNodeContext Sample.varying_tree None
                                  (Some JsObject.empty) (Some "toString") (Some "Named")]};
     ec_runtime := tt |}.

Definition lenient_externals (table : list (string * AstNode)) : Externals :=
  mkExternals (list AstNode) [] app
    (fun ast => Ok (default [] (Ast.items (Ast.field "program" ast))))
    (from_option TypeError) (Sample.parse table) Sample.generate Sample.makeExpression
    Sample.makeFnStatement
    (fun ast _ => Ok ast) Ok Ok Ok (fun _ _ => false)
    (fun ast _ => Ok ast) Sample.renameFunctions.

(** The step of the loop of [compileNode] over the input edges of a node
    whose node context offers [inputs]. *)
Definition compile_edge (X : Externals) {T} (depth : nat) (engine : Engine T)
  (graph : Graph) (edges : list Edge) (node : Node) (stage : ShaderStage) (ids : NodeIds)
  (inputs : option NodeInputs)
  : ShaderSections X * NodeIds * EngineContext T -> Edge ->
    Res (ShaderSections X * NodeIds * EngineContext T) :=
  fun '(continuation, compiledIds, engineContext) edge =>
  fromNode ← from_option (DanglingEdge (e_from edge)) (find_node graph (e_from edge));
  '(inputSections, fillerAst, childIds, engineContext) ←
    compileNode X depth engine graph edges engineContext fromNode stage ids;
  if negb (Ast.truthy fillerAst) then Err (MissingFillerAst (n_id fromNode))
  else
    let continuation := mergeShaderSections X continuation inputSections in
    let compiledIds := JsObject.spread compiledIds childIds in
    inputs ← from_option MissingInputs inputs;
    ast ← call_input inputs (e_input edge) fillerAst
            (context_ast engineContext (n_id node));
    Ok (continuation, compiledIds, set_context_ast (n_id node) ast engineContext).

(** ** The Variable strategy

    The scopes of a parsed program hold, by name, the bindings of the
    program; a binding lists references to the nodes of the tree that
    declare or use the name.  A value that is a reference is read through
    the reference. *)

Definition deref (ast : AstNode) (v : AstNode) : AstNode :=
  match v with
  | ARef target => Ast.at_loc target ast
  | _ => v
  end.

(** The own properties that [{...v}] copies, in order. *)
Definition own_entries (v : AstNode) : list (string * AstNode) :=
  match v with
  | AObj fs => fs
  | AArr l => imap (fun i x => (Js.of_nat i, x)) l
  | AStr s => imap (fun i c => (Js.of_nat i, AStr (String c EmptyString)))
                (list_ascii_of_string s)
  | _ => []
  end.

(** The descriptor of an input of the Variable strategy; its name is the
    value the strategy read, a string in the trees of the parser. *)
Record VariableInput : Type := mkVariableInput {
  v_name : AstNode;
  v_id : AstNode;
  v_category : Category;
  v_bakeable : bool;
}.

(** The replacer closures, by the branch that made them, with the
    reference they captured. *)
Inductive VariableFiller : Type :=
| DeclarationName (ref : AstNode)
| IdentifierName (ref : AstNode).

Definition variable_input (identifier : AstNode) : VariableInput :=
  {| v_name := identifier; v_id := identifier; v_category := code; v_bakeable := false |}.

(** [(ast.scopes).reduce((acc, scope) => ({...acc, ...scope.bindings}), {})] *)
Definition variable_bindings (ast : AstNode) (scopes : list AstNode)
  : Res (JsObject.t AstNode) :=
  for_each
    (fun acc scope =>
       match deref ast scope with
       | AUndef => Err TypeError
       | scope => Ok (JsObject.spread acc
                        (own_entries (deref ast (Ast.field "bindings" scope))))
       end)
    scopes JsObject.empty.

(** The step of [binding.references.reduce(...)]. *)
Definition variable_reference (ast : AstNode)
  (acc : list (VariableInput * VariableFiller)) (ref : AstNode)
  : Res (list (VariableInput * VariableFiller)) :=
  match deref ast ref with
  | AUndef => Err TypeError
  | node =>
      if Ast.type_is "declaration" node then
        match deref ast (Ast.field "identifier" node) with
        | AUndef => Err TypeError
        | identifier =>
            Ok (acc ++ [(variable_input (Ast.field "identifier" identifier),
                         DeclarationName ref)])
        end
      else if Ast.type_is "identifier" node then
        Ok (acc ++ [(variable_input (Ast.field "identifier" node), IdentifierName ref)])
      else Ok acc
  end.

Definition variable_binding (ast : AstNode) (binding : AstNode)
  : Res (list (VariableInput * VariableFiller)) :=
  match deref ast binding with
  | AUndef => Err TypeError
  | binding =>
      references ← from_option TypeError
                     (Ast.items (deref ast (Ast.field "references" binding)));
      for_each (variable_reference ast) references []
  end.

(** [StrategyType.VARIABLE] *)
Definition variable_strategy (node : Node) (ast : AstNode)
  : Res (list (VariableInput * VariableFiller)) :=
  scopes ← from_option TypeError (Ast.items (Ast.field "scopes" ast));
  bindings ← variable_bindings ast scopes;
  for_each
    (fun inputs binding =>
       more ← variable_binding ast binding;
       Ok (inputs ++ more))
    (JsObject.values bindings) [].

(** The bindings of a scope, when the scope is an object whose [bindings]
    is an object. *)
Definition scope_bindings (scope : AstNode) : option (list (string * AstNode)) :=
  match scope with
  | AObj _ =>
      match Ast.field "bindings" scope with
      | AObj bindings => Some bindings
      | _ => None
      end
  | _ => None
  end.

(** The binding of a name in the last scope that binds it. *)
Definition last_bound (name : string) (scopes : list AstNode) : option AstNode :=
  fold_left
    (fun found scope =>
       match JsObject.get name (default [] (scope_bindings scope)) with
       | Some binding => Some binding
       | None => found
       end)
    scopes None.

(** A program in which two functions each have a local [uv]. *)
Definition two_locals : AstNode :=
  AObj [("type", AStr "program");
        ("program", AArr [Ast.identifier "uv"; Ast.identifier "uv"]);
        ("scopes",
         AArr [AObj [("name", AStr "first");
                     ("bindings",
                      AObj [("uv", AObj [("references", AArr [ARef [SItem "program" 0]])])])];
               AObj [("name", AStr "second");
                     ("bindings",
                      AObj [("uv", AObj [("references", AArr [ARef [SItem "program" 1]])])])]])].

(** The text of the tree after the filler of the first input was called on
    an expression. *)
Definition first_input_filled (ast fillerAst : AstNode) : option string :=
  match Strategy.texture2D (Sample.externals []) (Sample.plain_node "7" shader fragment) ast with
  | Ok ((_, Texture2DFiller parent key) :: _) =>
      Some (Sample.generate (fill_texture2D parent key fillerAst ast))
  | _ => None
  end.

(** * Properties *)

(** ** Results *)

Lemma bind_Ok_inv {A B} (r : Res A) (k : A -> Res B) (b : B) :
  r ≫= k = Ok b -> exists a, r = Ok a /\ k a = Ok b.
Proof. destruct r as [a|e]; simpl; [eauto | discriminate]. Qed.

Lemma from_option_Ok_inv {A} (e : Error) (o : option A) (a : A) :
  from_option e o = Ok a -> o = Some a.
Proof. destruct o; simpl; congruence. Qed.

Ltac inv_res H :=
  repeat match type of H with
    | _ ≫= _ = Ok _ =>
        let a := fresh "a" in
        let Ha := fresh "Ha" in
        apply bind_Ok_inv in H as (a & Ha & H)
    | from_option _ _ = Ok _ => apply from_option_Ok_inv in H
    | Ok _ = Ok _ => injection H as H
    | Err _ = Ok _ => discriminate H
    end.

Lemma fold_left_pointwise {A B} (f g : A -> B -> A) (l : list B) (a : A) :
  (forall a b, f a b = g a b) -> fold_left f l a = fold_left g l a.
Proof.
  intros Hfg. revert a. induction l as [|b l IH]; intros a; simpl; [reflexivity|].
  rewrite Hfg. apply IH.
Qed.

(** ** Trees *)


Module AstFacts.
Import Ast.

Lemma visitNode_unfold {St} (visitors : NodeVisitors St) n loc parent key index s :
  visitNode visitors n loc parent key index s =
    let path := mkPath n loc parent key index in
    let '(s1, skipped) := enter visitors path s in
    if skipped then s1 else
    match n with
    | AObj fs => visit_fields (visitNode visitors) loc path fs s1
    | _ => s1
    end.
Proof. destruct n; reflexivity. Qed.

Lemma preorderNode_unfold n loc parent key index :
  preorderNode n loc parent key index =
    let path := mkPath n loc parent key index in
    path :: match n with
            | AObj fs => preorder_fields preorderNode loc path fs
            | _ => []
            end.
Proof. destruct n; reflexivity. Qed.

Section Walk.
Context {St : Type} (visitors : NodeVisitors St).
Hypothesis Hskip : never_skips visitors.

Lemma visit_elems_preorder loc path k l :
  Forall (walk_agrees visitors) l ->
  forall i s,
    visit_elems (visitNode visitors) loc path k i l s =
      fold_left (walk_step visitors) (preorder_elems preorderNode loc path k i l) s.
Proof.
  induction 1 as [|c l Hc _ IH]; intros i s; simpl; [reflexivity|].
  rewrite fold_left_app, <- Hc. apply IH.
Qed.

Lemma visit_child_preorder loc path k v s :
  walk_agrees visitors v ->
  (forall l, v = AArr l -> Forall (walk_agrees visitors) l) ->
  visit_child (visitNode visitors) loc path k v s =
    fold_left (walk_step visitors) (preorder_child preorderNode loc path k v) s.
Proof.
  intros Hv Hl. destruct v as [| |l|fs|]; simpl; try reflexivity.
  - apply visit_elems_preorder. auto.
  - destruct (isNode (AObj fs)); [apply Hv | reflexivity].
Qed.

Lemma visit_leaf n loc parent key index s :
  (forall fs, n <> AObj fs) ->
  visitNode visitors n loc parent key index s =
    fold_left (walk_step visitors) (preorderNode n loc parent key index) s.
Proof.
  intros Hn. rewrite visitNode_unfold, preorderNode_unfold.
  cbv zeta. unfold walk_step.
  pose proof (Hskip (mkPath n loc parent key index) s) as Hs.
  destruct (enter visitors (mkPath n loc parent key index) s) as [s1 sk] eqn:E.
  simpl in Hs. subst sk.
  destruct n; try (cbn [fold_left]; rewrite E; reflexivity).
  exfalso. eapply Hn. reflexivity.
Qed.

Lemma visit_preorder_node n : walk_agrees visitors n /\ (forall l, n = AArr l -> Forall (walk_agrees visitors) l).
Proof.
  induction n as [| s | items IH | fields IH | target] using AstNode_nested_ind.
  - split; [|discriminate]. intros ? ? ? ? ?. apply visit_leaf. discriminate.
  - split; [|discriminate]. intros ? ? ? ? ?. apply visit_leaf. discriminate.
  - split.
    + intros ? ? ? ? ?. apply visit_leaf. discriminate.
    + intros l [= <-]. eapply Forall_impl; [exact IH|]. intros ? [? _]; assumption.
  - split; [|discriminate]. intros loc parent key index s.
    rewrite visitNode_unfold, preorderNode_unfold.
    cbv zeta. cbn [fold_left]. unfold walk_step at 2.
    pose proof (Hskip (mkPath (AObj fields) loc parent key index) s) as Hs.
    destruct (enter visitors (mkPath (AObj fields) loc parent key index) s)
      as [s1 sk] eqn:E.
    simpl in Hs. subst sk. cbn [fst].
    generalize (mkPath (AObj fields) loc parent key index) as path.
    intros path. clear E. revert s1.
    induction IH as [|[k v] fs [Hv Hl] _ IHfs]; intros s1; simpl; [reflexivity|].
    rewrite fold_left_app, <- visit_child_preorder by assumption. apply IHfs.
  - split; [|discriminate]. intros ? ? ? ? ?. apply visit_leaf. discriminate.
Qed.

Lemma visit_preorder ast s :
  visit ast visitors s = fold_left (walk_step visitors) (preorder ast) s.
Proof. apply visit_preorder_node. Qed.
End Walk.

End AstFacts.

(** ** Objects *)

Module JsObjectFacts.
Import JsObject.

Section Facts.
Context {V : Type}.
Implicit Types (o a b : t V) (k : string) (v : V).

Lemma get_cons k k' v o :
  get k ((k', v) :: o) = if String.eqb k' k then Some v else get k o.
Proof. unfold get. simpl. destruct (String.eqb k' k); reflexivity. Qed.

Lemma get_replace k k' v o :
  get k (replace k' v o) =
    if String.eqb k k' then (if has k' o then Some v else None) else get k o.
Proof.
  unfold has. induction o as [|[k0 v0] o IH]; simpl.
  - destruct (String.eqb k k'); reflexivity.
  - rewrite (get_cons k' k0 v0 o), (get_cons k k0 v0 o).
    destruct (String.eqb_spec k0 k') as [->|Hne].
    + rewrite get_cons. rewrite (String.eqb_sym k' k).
      destruct (String.eqb k k'); reflexivity.
    + rewrite get_cons, IH.
      destruct (String.eqb_spec k k') as [->|Hne'].
      * apply String.eqb_neq in Hne. rewrite Hne. reflexivity.
      * reflexivity.
Qed.

Lemma get_insert_new k k' v o :
  has k' o = false ->
  get k (insert_new k' v o) = if String.eqb k k' then Some v else get k o.
Proof.
  unfold has. induction o as [|[k0 v0] o IH]; simpl; intros Hno.
  - rewrite get_cons, String.eqb_sym. reflexivity.
  - rewrite (get_cons k' k0 v0 o) in Hno.
    destruct (String.eqb_spec k0 k') as [->|Hne]; [discriminate|].
    destruct (goes_before k' k0).
    + rewrite get_cons, String.eqb_sym. reflexivity.
    + rewrite !get_cons, IH by assumption.
      destruct (String.eqb_spec k k') as [->|Hne'].
      * apply String.eqb_neq in Hne. rewrite Hne. reflexivity.
      * reflexivity.
Qed.

Lemma get_set k k' v o :
  get k (set k' v o) = if String.eqb k k' then Some v else get k o.
Proof.
  unfold set. destruct (has k' o) eqn:Hh.
  - rewrite get_replace, Hh. reflexivity.
  - apply get_insert_new, Hh.
Qed.

Lemma has_set k k' v o :
  has k (set k' v o) = String.eqb k k' || has k o.
Proof. unfold has. rewrite get_set. destruct (String.eqb k k'); reflexivity. Qed.

Lemma get_elem_of k v o : get k o = Some v -> (k, v) ∈ o.
Proof.
  induction o as [|[k0 v0] o IH]; [discriminate|].
  rewrite get_cons. destruct (String.eqb_spec k0 k) as [->|Hne].
  - intros [= ->]. apply list_elem_of_here.
  - intros H. apply list_elem_of_further, IH, H.
Qed.

Lemma elem_of_has k v o : (k, v) ∈ o -> has k o = true.
Proof.
  unfold has. induction o as [|[k0 v0] o IH]; intros Hin.
  - apply elem_of_nil in Hin as [].
  - rewrite get_cons. destruct (String.eqb_spec k0 k) as [->|Hne]; [reflexivity|].
    apply elem_of_cons in Hin as [[= ? ?]|Hin]; [congruence|]. apply IH, Hin.
Qed.

(** [{...a, ...b}]: the keys are those of both; a value comes from [a]
    or is a property of [b]. *)
Lemma has_spread k a b :
  has k (spread a b) = true <-> has k a = true \/ has k b = true.
Proof.
  unfold spread. revert a. induction b as [|[k0 v0] b IH]; intros a; simpl.
  - split; [auto | intros [H|H]; [exact H | discriminate H]].
  - rewrite IH, has_set. unfold has at 4. rewrite get_cons.
    rewrite (String.eqb_sym k k0).
    destruct (String.eqb k0 k); simpl; [tauto|].
    fold (has k b). tauto.
Qed.

Lemma elem_of_replace k v k' v' o :
  (k, v) ∈ replace k' v' o -> (k, v) = (k', v') \/ (k, v) ∈ o.
Proof.
  induction o as [|[k0 v0] o IH]; simpl; [auto|].
  destruct (String.eqb_spec k0 k') as [->|Hne]; intros Hin.
  - apply elem_of_cons in Hin as [->|Hin]; [auto|].
    right. apply list_elem_of_further, Hin.
  - apply elem_of_cons in Hin as [->|Hin]; [right; apply list_elem_of_here|].
    apply IH in Hin as [?|?]; [auto|]. right. apply list_elem_of_further. assumption.
Qed.

Lemma elem_of_insert_new k v k' v' o :
  (k, v) ∈ insert_new k' v' o -> (k, v) = (k', v') \/ (k, v) ∈ o.
Proof.
  induction o as [|[k0 v0] o IH]; simpl; intros Hin.
  - apply list_elem_of_singleton in Hin. auto.
  - destruct (goes_before k' k0).
    + apply elem_of_cons in Hin as [->|Hin]; auto.
    + apply elem_of_cons in Hin as [->|Hin]; [right; apply list_elem_of_here|].
      apply IH in Hin as [?|?]; [auto|]. right. apply list_elem_of_further. assumption.
Qed.

Lemma elem_of_set k v k' v' o :
  (k, v) ∈ set k' v' o -> (k, v) = (k', v') \/ (k, v) ∈ o.
Proof.
  unfold set. destruct (has k' o); [apply elem_of_replace | apply elem_of_insert_new].
Qed.

Lemma elem_of_spread k v a b :
  (k, v) ∈ spread a b -> (k, v) ∈ a \/ (k, v) ∈ b.
Proof.
  unfold spread. revert a. induction b as [|[k0 v0] b IH]; intros a; simpl; [auto|].
  intros Hin. apply IH in Hin as [Hin|Hin].
  - apply elem_of_set in Hin as [->|Hin]; [right; apply list_elem_of_here | auto].
  - right. apply list_elem_of_further, Hin.
Qed.
Lemma keys_replace k v o : keys (replace k v o) = keys o.
Proof.
  unfold keys. induction o as [|[k0 v0] o IH]; simpl; [reflexivity|].
  destruct (String.eqb k0 k); simpl; [reflexivity | rewrite IH; reflexivity].
Qed.

Lemma keys_insert_new k v o : keys (insert_new k v o) ≡ₚ k :: keys o.
Proof.
  unfold keys. induction o as [|[k0 v0] o IH]; simpl; [reflexivity|].
  destruct (goes_before k k0); simpl; [reflexivity|].
  rewrite IH. apply Permutation_swap.
Qed.

Lemma not_has_keys k o : has k o = false -> k ∉ keys o.
Proof.
  intros Hno Hin. unfold keys in Hin. apply list_elem_of_fmap in Hin as ([k0 v0] & -> & Hin).
  apply elem_of_has in Hin. simpl in *. congruence.
Qed.

Lemma NoDup_keys_set k v o : NoDup (keys o) -> NoDup (keys (set k v o)).
Proof.
  intros Hnd. unfold set. destruct (has k o) eqn:Hh.
  - rewrite keys_replace. exact Hnd.
  - rewrite keys_insert_new. apply NoDup_cons. split; [|exact Hnd].
    apply not_has_keys, Hh.
Qed.

Lemma elem_of_get k v o : NoDup (keys o) -> (k, v) ∈ o -> get k o = Some v.
Proof.
  unfold keys. induction o as [|[k0 v0] o IH]; simpl; intros Hnd Hin.
  - apply elem_of_nil in Hin as [].
  - apply NoDup_cons in Hnd as [Hk0 Hnd]. rewrite get_cons.
    apply elem_of_cons in Hin as [[= -> ->]|Hin].
    + rewrite String.eqb_refl. reflexivity.
    + destruct (String.eqb_spec k0 k) as [->|Hne].
      * exfalso. apply Hk0. apply list_elem_of_fmap. exists (k, v). auto.
      * apply IH; assumption.
Qed.
End Facts.

End JsObjectFacts.

(** ** Assignments through a location *)

Module LocFacts.
Import Ast.

Lemma at_loc_undef loc : at_loc loc AUndef = AUndef.
Proof. induction loc as [|[k|k i] loc IH]; simpl; auto. Qed.

Lemma lookup_alter_field (h : AstNode -> AstNode) k fs :
  lookup k fs <> AUndef -> lookup k (alter_field h k fs) = h (lookup k fs).
Proof.
  unfold lookup. induction fs as [|[k0 v0] fs IH]; simpl; [congruence|].
  destruct (String.eqb k0 k) eqn:E; simpl; rewrite E; simpl; auto.
Qed.

Lemma lookup_assign k v fs : lookup k (assign k v fs) = v.
Proof.
  unfold lookup. induction fs as [|[k0 v0] fs IH]; simpl.
  - rewrite String.eqb_refl. reflexivity.
  - destruct (String.eqb k0 k) eqn:E; simpl; rewrite E; simpl; auto.
Qed.

(** Mutating the node at a location that resolves leaves the mutated node
    at that location. *)
Lemma at_loc_update_at (g : AstNode -> AstNode) loc : forall n,
  at_loc loc n <> AUndef -> at_loc loc (update_at g loc n) = g (at_loc loc n).
Proof.
  induction loc as [|[k|k i] loc IH]; intros n; simpl.
  - reflexivity.
  - destruct n as [| | |fs0|]; simpl; try (rewrite at_loc_undef; congruence).
    intros H. rewrite lookup_alter_field.
    + apply IH, H.
    + intros Hu. rewrite Hu, at_loc_undef in H. congruence.
  - destruct n as [| | |fs0|]; simpl; try congruence.
    destruct (lookup k fs0) as [| |l| |] eqn:El; try congruence.
    intros H. rewrite lookup_alter_field by (rewrite El; discriminate). rewrite El.
    rewrite list_lookup_alter_eq.
    destruct (l !! i) as [c|]; simpl in *; [apply IH, H|].
    rewrite at_loc_undef in H. congruence.
Qed.

End LocFacts.

(** ** The paths of a walk *)

Module PathFacts.
Import Ast.

Lemma at_loc_app loc1 loc2 n : at_loc (loc1 ++ loc2) n = at_loc loc2 (at_loc loc1 n).
Proof.
  revert n. induction loc1 as [|[k|k i] loc1 IH]; intros n; simpl; [reflexivity|apply IH|].
  destruct (field k n); simpl; try (rewrite LocFacts.at_loc_undef; reflexivity).
  apply IH.
Qed.

Lemma lookup_unique k v fs :
  NoDup (map fst fs) -> (k, v) ∈ fs -> lookup k fs = v.
Proof.
  unfold lookup. induction fs as [|[k0 v0] fs IH]; simpl; intros Hnd Hin.
  - apply elem_of_nil in Hin as [].
  - apply NoDup_cons in Hnd as [Hk0 Hnd].
    apply elem_of_cons in Hin as [[= -> ->]|Hin].
    + rewrite String.eqb_refl. reflexivity.
    + destruct (String.eqb_spec k0 k) as [->|Hne].
      * exfalso. apply Hk0. apply list_elem_of_fmap. exists (k, v). auto.
      * apply IH; assumption.
Qed.

Section Sits.
Variable root : AstNode.

Lemma elems_sit loc path k fs l :
  at_loc loc root = AObj fs -> p_loc path = loc -> p_node path = AObj fs ->
  lookup k fs = AArr l ->
  forall l1 i,
    (forall j c, l1 !! j = Some c -> l !! (i + j) = Some c) ->
    Forall (fun c => unique_keys c = true) l1 ->
    Forall (paths_sit root) l1 ->
    forall p, p ∈ preorder_elems preorderNode loc path k i l1 -> sits_in root p.
Proof.
  intros Hloc Hpl Hpn Hk. induction l1 as [|c l1 IH]; intros i Hl Hu Hs p Hin; simpl in Hin.
  - apply elem_of_nil in Hin as [].
  - apply Forall_cons in Hu as [Hc Hu]. apply Forall_cons in Hs as [Hsc Hs].
    assert (Hci : l !! i = Some c) by (rewrite <- (Nat.add_0_r i); apply Hl; reflexivity).
    apply elem_of_app in Hin as [Hin|Hin].
    + eapply Hsc; [exact Hc| |exact Hin]. split; simpl.
      * rewrite at_loc_app, Hloc. simpl. rewrite Hk, Hci. reflexivity.
      * rewrite Hpl, Hpn. split; [exact Hloc|].
        exists fs, k. split; [reflexivity|]. split; [reflexivity|].
        exists l. auto.
    + eapply IH; [| exact Hu | exact Hs | exact Hin].
      intros j c0 Hj. replace (S i + j) with (i + S j) by lia. apply Hl. exact Hj.
Qed.

Lemma child_sits loc path k v fs :
  at_loc loc root = AObj fs -> p_loc path = loc -> p_node path = AObj fs ->
  lookup k fs = v ->
  unique_keys v = true ->
  paths_sit root v ->
  (forall l, v = AArr l -> Forall (paths_sit root) l) ->
  forall p, p ∈ preorder_child preorderNode loc path k v -> sits_in root p.
Proof.
  intros Hloc Hpl Hpn Hk Hu Hv Hl p Hin.
  destruct v as [| |l|fs'|]; simpl in Hin; try (apply elem_of_nil in Hin as []).
  - eapply (elems_sit loc path k fs l Hloc Hpl Hpn Hk l 0); [auto | | auto | exact Hin].
    simpl in Hu. apply Forall_forall. intros c Hc.
    rewrite forallb_forall in Hu. apply Hu, list_elem_of_In, Hc.
  - destruct (isNode (AObj fs')); [|apply elem_of_nil in Hin as []].
    eapply Hv; [exact Hu| |exact Hin]. split; simpl.
    + rewrite at_loc_app, Hloc. simpl. exact Hk.
    + rewrite Hpl, Hpn. split; [exact Hloc|].
      exists fs, k. auto.
Qed.

Lemma fields_sit loc path fields :
  at_loc loc root = AObj fields -> p_loc path = loc -> p_node path = AObj fields ->
  forall fs,
    (forall k v, (k, v) ∈ fs -> lookup k fields = v) ->
    forallb (fun kv => unique_keys (snd kv)) fs = true ->
    Forall (fun kv => paths_sit root (snd kv)
                      /\ (forall l, snd kv = AArr l -> Forall (paths_sit root) l)) fs ->
    forall p, p ∈ preorder_fields preorderNode loc path fs -> sits_in root p.
Proof.
  intros Hloc Hpl Hpn.
  induction fs as [|[k v] fs IHfs]; intros Hsub Hu IH p Hin; simpl in Hin.
  - apply elem_of_nil in Hin as [].
  - simpl in Hu. apply andb_prop in Hu as [Huv Hu].
    apply Forall_cons in IH as [[Hv Hl] IH]. simpl in Hv, Hl.
    apply elem_of_app in Hin as [Hin|Hin].
    + eapply (child_sits loc path k v fields); eauto.
      apply Hsub, list_elem_of_here.
    + eapply IHfs; eauto. intros. apply Hsub. apply list_elem_of_further. assumption.
Qed.

Lemma preorder_sits_node n :
  paths_sit root n /\ (forall l, n = AArr l -> Forall (paths_sit root) l).
Proof.
  induction n as [| s | items IH | fields IH | target] using AstNode_nested_ind.
  - split; [|discriminate]. intros loc parent key index _ Hs p Hin.
    apply list_elem_of_singleton in Hin as ->. exact Hs.
  - split; [|discriminate]. intros loc parent key index _ Hs p Hin.
    apply list_elem_of_singleton in Hin as ->. exact Hs.
  - split.
    + intros loc parent key index _ Hs p Hin.
      apply list_elem_of_singleton in Hin as ->. exact Hs.
    + intros l [= <-]. eapply Forall_impl; [exact IH|]. intros ? [? _]; assumption.
  - split; [|discriminate]. intros loc parent key index Hu Hs p Hin.
    rewrite AstFacts.preorderNode_unfold in Hin. cbv zeta in Hin.
    apply elem_of_cons in Hin as [->|Hin]; [exact Hs|].
    simpl in Hu. apply andb_prop in Hu as [Hnd Hu]. apply bool_decide_eq_true in Hnd.
    destruct Hs as [Hloc _]. simpl in Hloc.
    eapply (fields_sit loc (mkPath (AObj fields) loc parent key index) fields Hloc
              eq_refl eq_refl fields); [| exact Hu | exact IH | exact Hin].
    intros. apply lookup_unique; assumption.
  - split; [|discriminate]. intros loc parent key index _ Hs p Hin.
    apply list_elem_of_singleton in Hin as ->. exact Hs.
Qed.

Lemma preorder_sits p :
  unique_keys root = true -> p ∈ preorder root -> sits_in root p.
Proof.
  intros Hu Hin. eapply (proj1 (preorder_sits_node root)); [exact Hu| |exact Hin].
  split; reflexivity.
Qed.

End Sits.
End PathFacts.

(** ** Binary-operation nodes *)

Lemma alphabet_charAt :
  map (Js.charAt alphabet) (seq 0 26) = alphabet_letters.
Proof. reflexivity. Qed.

Lemma first_letters k :
  k <= 26 -> map (Js.charAt alphabet) (seq 0 k) = take k alphabet_letters.
Proof.
  intros Hk. rewrite <- alphabet_charAt, <- fmap_take, take_seq.
  replace (k `min` 26) with k by lia. reflexivity.
Qed.

Lemma binary_placeholders_letters (inputEdges : list Edge) :
  length inputEdges <= 26 ->
  binary_placeholders inputEdges = take (length inputEdges) alphabet_letters.
Proof.
  intros Hk. unfold binary_placeholders.
  rewrite (imap_seq_0 inputEdges (Js.charAt alphabet)). apply first_letters, Hk.
Qed.

Lemma binary_slots_letters (inputEdges : list Edge) :
  length inputEdges <= 25 ->
  binary_slots inputEdges = take (Nat.max (length inputEdges + 1) 2) alphabet_letters.
Proof. intros Hk. apply first_letters. lia. Qed.

(** C3.  For a binary node with [1 <= k <= 26] connected input edges the
    text that [produceAst] hands to [makeExpression] chains exactly [k]
    placeholders, the first [k] letters of the alphabet in edge order,
    joined by the operator; with no edge connected the text is [a op b],
    [a + b] for the operator [+]; the tree is the program holding that one
    expression. *)
Theorem binary_produceAst_chains_letters (X : Externals) (T : Type)
  (operation : string) (engineContext : EngineContext T) (engine : EngineInfo)
  (graph : Graph) (node : Node) (inputEdges : list Edge) :
  length inputEdges <= 26 ->
  (1 <= length inputEdges ->
   chains_first_letters operation (length inputEdges)
     (binary_expression_text operation inputEdges))
  /\ (length inputEdges = 0 ->
      binary_expression_text operation inputEdges = "a " +:+ operation +:+ " b")
  /\ binary_expression_text "+" [] = "a + b"
  /\ binary_produceAst X operation engineContext engine graph node inputEdges =
       (e ← makeExpression X (binary_expression_text operation inputEdges);
        Ok (AObj [("type", AStr "program"); ("program", AArr [e]); ("scopes", AArr [])])).
Proof.
  intros Hk. repeat split.
  - intros H1. exists (take (length inputEdges) alphabet_letters).
    split; [reflexivity|]. split.
    + rewrite length_take. change (length alphabet_letters) with 26. lia.
    + unfold binary_expression_text.
      rewrite bool_decide_true by lia.
      rewrite binary_placeholders_letters by assumption. reflexivity.
  - intros H0. unfold binary_expression_text.
    rewrite bool_decide_false by lia. reflexivity.
Qed.

Lemma binary_produceAst_chains_letters_witness :
  chains_first_letters "+" 3
    (binary_expression_text "+"
       [Sample.edge "3" "6" "a" fragment; Sample.edge "4" "6" "b" fragment;
        Sample.edge "5" "6" "c" fragment])
  /\ binary_expression_text "+"
       [Sample.edge "3" "6" "a" fragment; Sample.edge "4" "6" "b" fragment;
        Sample.edge "5" "6" "c" fragment] = "a + b + c".
Proof.
  split; [|reflexivity].
  refine (proj1 (binary_produceAst_chains_letters (Sample.externals []) unit "+"
                   Sample.fresh_context (eng_info Sample.engine) (mkGraph [] [])
                   (Sample.plain_node "6" add fragment)
                   [Sample.edge "3" "6" "a" fragment; Sample.edge "4" "6" "b" fragment;
                    Sample.edge "5" "6" "c" fragment] _) _);
    simpl; lia.
Defined.

(** C3, as stated, fails past the alphabet: with 27 input edges the 27th
    placeholder is empty, the text ends in a dangling operator and does not
    chain 27 letters. *)
Lemma binary_produceAst_alphabet_exhausted :
  binary_expression_text "+" (replicate 27 (Sample.edge "3" "6" "a" fragment))
  = "a + b + c + d + e + f + g + h + i + j + k + l + m + n + o + p + q + r + s + t + u + v + w + x + y + z + "
  /\ ~ chains_first_letters "+" 27
         (binary_expression_text "+" (replicate 27 (Sample.edge "3" "6" "a" fragment))).
Proof.
  split; [reflexivity|].
  intros (letters & -> & Hlen & _). vm_compute in Hlen. discriminate.
Qed.

(** The walk of a slot's filler and the walk that lists identifiers enter
    the same [identifier] nodes. *)
Lemma enter_single {St} (t : string) (v : Ast.Visitor St) (p : Path) (s : St) :
  Ast.enter [(t, v)] p s =
    if Ast.type_is t (Ast.p_node p) then v p s else (s, false).
Proof.
  unfold Ast.enter, Ast.type_is, Ast.is_str.
  destruct (Ast.field "type" (Ast.p_node p)) as [|t'| | |]; try reflexivity.
  simpl. rewrite String.eqb_sym. destruct (String.eqb t' t); reflexivity.
Qed.

Lemma never_skips_single {St} (t : string) (v : Ast.Visitor St) :
  (forall p s, snd (v p s) = false) -> never_skips [(t, v)].
Proof.
  intros Hv p s. rewrite enter_single.
  destruct (Ast.type_is t (Ast.p_node p)); [apply Hv | reflexivity].
Qed.

Lemma identifier_names_preorder ast :
  Ast.identifier_names ast = fold_left names_step (Ast.preorder ast) [].
Proof.
  unfold Ast.identifier_names.
  rewrite AstFacts.visit_preorder by (apply never_skips_single; reflexivity).
  apply fold_left_pointwise. intros names p. unfold walk_step.
  rewrite (enter_single "identifier" _ p names). unfold names_step.
  destruct (Ast.type_is "identifier" (Ast.p_node p)); reflexivity.
Qed.

Lemma names_step_mono paths : forall names x,
  x ∈ names -> x ∈ fold_left names_step paths names.
Proof.
  induction paths as [|p paths IH]; intros names x Hx; simpl; [assumption|].
  apply IH. unfold names_step.
  destruct (Ast.type_is "identifier" (Ast.p_node p)); [|assumption].
  apply elem_of_app. left. assumption.
Qed.

Lemma find_letter_absent (letter : string) (ast : AstNode) :
  AStr letter ∉ Ast.identifier_names ast -> find_letter letter ast = None.
Proof.
  rewrite identifier_names_preorder. unfold find_letter.
  rewrite AstFacts.visit_preorder by (apply never_skips_single; reflexivity).
  generalize (Ast.preorder ast) as paths. generalize (@nil AstNode) as names.
  intros names paths. revert names.
  induction paths as [|p paths IH]; intros names Hnot; simpl; [reflexivity|].
  simpl in Hnot.
  match goal with
  | |- fold_left ?f paths (?f None p) = None =>
      assert (f None p = None) as ->; [|apply (IH _ Hnot)]
  end.
  unfold walk_step. rewrite (enter_single "identifier" _ p (@None Path)).
  destruct (Ast.type_is "identifier" (Ast.p_node p)) eqn:Et; simpl; [|reflexivity].
  destruct (Ast.is_str letter (Ast.field "identifier" (Ast.p_node p))) eqn:El;
    [|reflexivity].
  exfalso. apply Hnot. apply names_step_mono. unfold names_step. rewrite Et.
  apply elem_of_app. right. apply list_elem_of_singleton.
  unfold Ast.is_str in El.
  destruct (Ast.field "identifier" (Ast.p_node p)); try discriminate.
  apply String.eqb_eq in El. subst. reflexivity.
Qed.

Lemma binary_filler_absent (letter : string) (fillerAst ast : AstNode) :
  AStr letter ∉ Ast.identifier_names ast ->
  binary_filler letter fillerAst ast = Err (MissingFillerTarget letter).
Proof. intros H. unfold binary_filler. rewrite find_letter_absent by assumption. reflexivity. Qed.

Lemma binary_inputs_keys (k : nat) :
  k <= 27 ->
  let inputs :=
    fold_left (fun inputs letter => JsObject.set letter (binary_filler letter) inputs)
      (take k alphabet_letters) JsObject.empty in
  JsObject.keys inputs = take k alphabet_letters
  /\ forall i letter, alphabet_letters !! i = Some letter -> i < k ->
       JsObject.get letter inputs = Some (binary_filler letter).
Proof.
  intros Hk.
  do 27 (destruct k as [|k];
         [split; [vm_compute; reflexivity
                 | intros i letter Hi Hlt;
                   do 27 (destruct i as [|i]; [try lia; injection Hi as <-; reflexivity|]);
                   lia]|]).
  destruct k; [|lia].
  split; [vm_compute; reflexivity|].
  intros i letter Hi Hlt.
  do 26 (destruct i as [|i]; [injection Hi as <-; reflexivity|]). discriminate Hi.
Qed.

Lemma alphabet_letters_NoDup : NoDup alphabet_letters.
Proof. apply (bool_decide_unpack _). vm_compute. exact I. Qed.

Lemma next_letter_fresh (k : nat) (letter : string) :
  alphabet_letters !! k = Some letter -> letter ∉ take k alphabet_letters.
Proof.
  intros Hk Hin. apply list_elem_of_lookup in Hin as [j Hj].
  apply lookup_take_Some in Hj as [Hj Hlt].
  pose proof (NoDup_lookup _ _ _ _ alphabet_letters_NoDup Hk Hj). lia.
Qed.

(** C9, amended.  For a binary node with [k <= 25] connected input edges
    [findInputs] returns a filler map with exactly [max(k+1, 2)] entries,
    keyed by the first [max(k+1, 2)] letters.  The text of the expression
    holds [k] placeholders when [k >= 1] and is [a op b] when [k = 0].  For
    [1 <= k], slot [k] is one more than the placeholders: on the tree built
    by [produceAst], whose identifiers are the placeholders of the text, its
    filler finds no identifier of its letter and raises the fatal error. *)
Theorem binary_findInputs_extra_slot (X : Externals) (T : Type) (operation : string)
  (engineContext : EngineContext T) (engine : EngineInfo) (graph : Graph)
  (node : Node) (nodeContext : NodeContext) (inputEdges : list Edge) (ast : AstNode) :
  length inputEdges <= 25 ->
  exists inputs,
    binary_findInputs engineContext node ast nodeContext inputEdges = Ok inputs
    /\ JsObject.keys inputs = take (Nat.max (length inputEdges + 1) 2) alphabet_letters
    /\ length inputs = Nat.max (length inputEdges + 1) 2
    /\ (1 <= length inputEdges ->
        binary_placeholders inputEdges = take (length inputEdges) alphabet_letters)
    /\ (length inputEdges = 0 ->
        binary_expression_text operation inputEdges = "a " +:+ operation +:+ " b")
    /\ (1 <= length inputEdges ->
        forall tree fillerAst,
          binary_produceAst X operation engineContext engine graph node inputEdges = Ok tree ->
          Ast.identifier_names tree = map AStr (binary_placeholders inputEdges) ->
          exists letter filler,
            alphabet_letters !! length inputEdges = Some letter
            /\ JsObject.get letter inputs = Some filler
            /\ filler fillerAst tree = Err (MissingFillerTarget letter)).
Proof.
  intros Hk. eexists. split; [reflexivity|].
  rewrite binary_slots_letters by assumption.
  destruct (binary_inputs_keys (Nat.max (length inputEdges + 1) 2)) as [Hkeys Hget]; [lia|].
  cbv zeta in Hkeys, Hget.
  split; [exact Hkeys|]. split.
  { match goal with |- length ?i = _ => change (length i) with (length i); 
      rewrite <- (length_map fst i); change (map fst i) with (JsObject.keys i) end.
    rewrite Hkeys, length_take. change (length alphabet_letters) with 26. lia. }
  split; [intros _; apply binary_placeholders_letters; lia|]. split.
  { intros H0. unfold binary_expression_text. rewrite bool_decide_false by lia. reflexivity. }
  intros H1 tree fillerAst _ Hnames.
  destruct (lookup_lt_is_Some_2 alphabet_letters (length inputEdges)) as [letter Hletter].
  { change (length alphabet_letters) with 26. lia. }
  exists letter, (binary_filler letter). split; [exact Hletter|]. split.
  - apply (Hget (length inputEdges)); [exact Hletter | lia].
  - apply binary_filler_absent. rewrite Hnames.
    rewrite binary_placeholders_letters by lia.
    intros Hin. apply list_elem_of_fmap in Hin as (l & [= <-] & Hl).
    exact (next_letter_fresh _ _ Hletter Hl).
Qed.

Lemma binary_findInputs_extra_slot_witness :
  exists inputs tree,
    binary_findInputs Sample.fresh_context (Sample.plain_node "6" add fragment)
      AUndef (mkNodeContext AUndef None None None None)
      [Sample.edge "3" "6" "a" fragment; Sample.edge "4" "6" "b" fragment] = Ok inputs
    /\ JsObject.keys inputs = ["a"; "b"; "c"]
    /\ binary_produceAst (Sample.externals []) "+" Sample.fresh_context
         (eng_info Sample.engine) (mkGraph [] []) (Sample.plain_node "6" add fragment)
         [Sample.edge "3" "6" "a" fragment; Sample.edge "4" "6" "b" fragment] = Ok tree
    /\ exists filler,
         JsObject.get "c" inputs = Some filler
         /\ filler (Ast.identifier "x") tree = Err (MissingFillerTarget "c").
Proof.
  destruct (binary_findInputs_extra_slot (Sample.externals []) unit "+"
              Sample.fresh_context (eng_info Sample.engine) (mkGraph [] [])
              (Sample.plain_node "6" add fragment)
              (mkNodeContext AUndef None None None None)
              [Sample.edge "3" "6" "a" fragment; Sample.edge "4" "6" "b" fragment]
              AUndef)
    as (inputs & Hin & Hkeys & _ & _ & _ & Hextra); [simpl; lia|].
  exists inputs. eexists. split; [exact Hin|]. split; [exact Hkeys|].
  split; [reflexivity|].
  destruct (Hextra ltac:(simpl; lia) _ (Ast.identifier "x") eq_refl eq_refl)
    as (letter & filler & Hletter & Hget & Hfill).
  injection Hletter as <-. exists filler. split; [exact Hget | exact Hfill].
Defined.

(** C9, as stated, fails with one connected edge: the expression is the
    single placeholder [a], not [max(1, 2) = 2] of them. *)
Lemma binary_single_edge_one_placeholder :
  binary_expression_text "+" [Sample.edge "3" "6" "a" fragment] = "a"
  /\ ~ one_slot_more_than_placeholders (Sample.externals []) "+"
         [Sample.edge "3" "6" "a" fragment].
Proof.
  split; [reflexivity|]. intros H.
  destruct (H Sample.fresh_context (eng_info Sample.engine) (mkGraph [] [])
              (Sample.plain_node "6" add fragment)
              (mkNodeContext AUndef None None None None))
    as (inputs & ast & Hast & _ & _ & _ & Hcount).
  vm_compute in Hast. injection Hast as <-. vm_compute in Hcount. discriminate.
Qed.

(** ** Mangling *)

Lemma suffix_distinct (x id1 id2 : string) :
  id1 <> id2 -> x +:+ "_" +:+ id1 <> x +:+ "_" +:+ id2.
Proof.
  intros Hne Heq. apply Hne.
  apply (String.app_inj "_"), (String.app_inj x). exact Heq.
Qed.

(** The renaming steps that close [produceAst] in both shader parsers. *)
Lemma shader_fragment_produceAst_mangles (X : Externals) (T : Type)
  (engineContext : EngineContext T) (engine : EngineInfo) (graph : Graph)
  (node : Node) (inputEdges : list Edge) :
  shader_fragment_produceAst X engineContext engine graph node inputEdges =
    (fragmentPreprocessed ← preprocess X (n_source node);
     fragmentAst ← parse X fragmentPreprocessed;
     fragmentAst ← from2To3 X fragmentAst fragment;
     fragmentAst ←
       (if bool_decide (n_originalEngine node = Some "three")
           && String.eqb (eng_name engine) "babylon"
        then renameBindings X fragmentAst three_to_babylon
        else Ok fragmentAst);
     fragmentAst ← convert300MainToReturn X fragmentAst;
     fragmentAst ← renameBindings X fragmentAst (mangle_binding engine node);
     renameFunctions X fragmentAst (mangle_function node)).
Proof. reflexivity. Qed.

Lemma shader_vertex_produceAst_mangles (X : Externals) (T : Type)
  (engineContext : EngineContext T) (engine : EngineInfo) (graph : Graph)
  (node : Node) (inputEdges : list Edge) :
  Js.truthy_string (n_source node) = true ->
  shader_vertex_produceAst X engineContext engine graph node inputEdges =
    (vertexPreprocessed ← preprocess X (n_source node);
     vertexAst ← parse X vertexPreprocessed;
     vertexAst ← from2To3 X vertexAst vertex;
     vertexAst ←
       (if doesLinkThruShader X graph node
        then returnGlPositionVec3Right X vertexAst
        else returnGlPosition X vertexAst);
     vertexAst ← renameBindings X vertexAst (mangle_binding engine node);
     renameFunctions X vertexAst (mangle_function node)).
Proof. intros H. unfold shader_vertex_produceAst. rewrite H. reflexivity. Qed.


(** ** Connected nodes *)

Lemma for_each_failed {A St} (f : St -> A -> Res St) (xs : list A) (x : A) :
  x ∈ xs -> (forall s, failed (f s x)) -> forall s, failed (for_each f xs s).
Proof.
  intros Hin Hx. induction xs as [|y xs IH]; intros s.
  - apply elem_of_nil in Hin as [].
  - simpl. destruct (f s y) as [s'|e] eqn:Ey; simpl; [|eexists; reflexivity].
    apply elem_of_cons in Hin as [->|Hin].
    + destruct (Hx s) as [e He]. congruence.
    + apply IH, Hin.
Qed.

Lemma for_each_error {A St} (P : Error -> Prop) (f : St -> A -> Res St) (xs : list A) :
  (forall s x e, x ∈ xs -> f s x = Err e -> P e) ->
  forall s e, for_each f xs s = Err e -> P e.
Proof.
  induction xs as [|y xs IH]; intros Hf s e; simpl; [discriminate|].
  destruct (f s y) as [s'|e'] eqn:Ey; simpl.
  - apply IH. intros ? ? ? Hin. apply Hf. apply list_elem_of_further, Hin.
  - intros [= <-]. eapply Hf; [apply list_elem_of_here | exact Ey].
Qed.

Lemma for_each_invariant {A St} (I : list A -> St -> Prop) (f : St -> A -> Res St)
  (xs : list A) :
  (forall done x s s', I done s -> x ∈ xs -> f s x = Ok s' -> I (done ++ [x]) s') ->
  forall done s s', I done s -> for_each f xs s = Ok s' -> I (done ++ xs) s'.
Proof.
  induction xs as [|y xs IH]; intros Hf done s s' HI; simpl.
  - intros [= <-]. rewrite app_nil_r. exact HI.
  - destruct (f s y) as [s1|e] eqn:Ey; simpl; [|discriminate].
    intros Hrest. replace (done ++ y :: xs) with ((done ++ [y]) ++ xs)
      by (rewrite <- app_assoc; reflexivity).
    eapply IH; [| |exact Hrest].
    + intros ? ? ? ? ? Hin. apply Hf. assumption. apply list_elem_of_further, Hin.
    + eapply Hf; [exact HI | apply list_elem_of_here | exact Ey].
Qed.

Lemma for_each_succeeds {A St} (f : St -> A -> Res St) (xs : list A) :
  (forall s x, x ∈ xs -> exists s', f s x = Ok s') ->
  forall s, exists s', for_each f xs s = Ok s'.
Proof.
  induction xs as [|y xs IH]; intros Hf s; simpl; [eauto|].
  destruct (Hf s y) as [s1 ->]; [apply list_elem_of_here|]. simpl.
  apply IH. intros ? ? Hin. apply Hf. apply list_elem_of_further, Hin.
Qed.

Lemma find_node_id (graph : Graph) (id : string) (m : Node) :
  find_node graph id = Some m -> n_id m = id.
Proof.
  unfold find_node, Js.find. intros H. apply find_some in H as [_ H].
  apply String.eqb_eq in H. congruence.
Qed.

Lemma elem_of_input_edges (edges : list Edge) (node : Node) (e : Edge) :
  e ∈ input_edges edges node <-> e ∈ edges /\ e_to e = n_id node.
Proof.
  unfold input_edges. rewrite !list_elem_of_In, filter_In, String.eqb_eq. reflexivity.
Qed.

Lemma input_edges_nonempty (edges : list Edge) (node : Node) (e : Edge) :
  e ∈ edges -> e_to e = n_id node -> length (input_edges edges node) <> 0.
Proof.
  intros Hin Hto Hlen. assert (He : e ∈ input_edges edges node)
    by (apply elem_of_input_edges; auto).
  destruct (input_edges edges node); [apply elem_of_nil in He as [] | discriminate].
Qed.

Section Collect.
Variables (graph : Graph) (edges : list Edge).

Lemma collectConnectedNodes_unfold depth node ids :
  collectConnectedNodes (S depth) graph edges node ids =
    if bool_decide (length (input_edges edges node) ≠ 0) then
      compiledIds ← for_each (collect_edge graph edges depth ids) (input_edges edges node) ids;
      Ok (JsObject.set (n_id node) node compiledIds)
    else Ok (JsObject.set (n_id node) node ids).
Proof. reflexivity. Qed.

Lemma collectConnectedNodes_errors depth : forall node ids e,
  collectConnectedNodes depth graph edges node ids = Err e -> collect_error graph e.
Proof.
  induction depth as [|depth IH]; intros node ids e.
  - intros [= <-]. left. reflexivity.
  - rewrite collectConnectedNodes_unfold. case_bool_decide; [|discriminate].
    destruct (for_each _ _ _) as [c|e'] eqn:Eloop; simpl; [discriminate|].
    intros [= <-]. revert Eloop. apply for_each_error.
    intros s x e0 _. unfold collect_edge.
    destruct (find_node graph (e_from x)) as [m|] eqn:Efind; simpl.
    + destruct (collectConnectedNodes depth graph edges m ids) eqn:Ec; simpl;
        [discriminate|]. intros [= <-]. eapply IH, Ec.
    + intros [= <-]. right. eauto.
Qed.

(** A source id that does not resolve, on an edge into a node that is
    reached, makes the collection fail. *)
Lemma collectConnectedNodes_dangling node m e :
  reaches_back graph edges node m ->
  e ∈ edges -> e_to e = n_id m -> find_node graph (e_from e) = None ->
  forall depth ids, failed (collectConnectedNodes depth graph edges node ids).
Proof.
  intros Hreach He Hto Hfrom.
  induction Hreach as [node|node y m (e' & He' & Hto' & Hfrom') _ IH];
    intros [|depth] ids; try (eexists; reflexivity).
  - rewrite collectConnectedNodes_unfold.
    rewrite bool_decide_true by (apply (input_edges_nonempty edges node e); assumption).
    assert (Hloop : failed (for_each (collect_edge graph edges depth ids) (input_edges edges node) ids)).
    { apply (for_each_failed _ _ e).
      - apply elem_of_input_edges; auto.
      - intros s. unfold collect_edge. rewrite Hfrom. eexists; reflexivity. }
    destruct Hloop as [err ->]. eexists; reflexivity.
  - rewrite collectConnectedNodes_unfold.
    rewrite bool_decide_true by (apply (input_edges_nonempty edges node e'); assumption).
    assert (Hloop : failed (for_each (collect_edge graph edges depth ids) (input_edges edges node) ids)).
    { apply (for_each_failed _ _ e').
      - apply elem_of_input_edges; auto.
      - intros s. unfold collect_edge. rewrite Hfrom'. simpl.
        destruct (IH Hto depth ids) as [err ->]. eexists; reflexivity. }
    destruct Hloop as [err ->]. eexists; reflexivity.
Qed.

Lemma collectConnectedNodes_collected depth : forall node ids r,
  collectConnectedNodes depth graph edges node ids = Ok r -> collected graph edges node ids r.
Proof.
  induction depth as [|depth IH]; intros node ids r; [discriminate|].
  rewrite collectConnectedNodes_unfold. case_bool_decide as Hlen.
  - intros H. apply bind_Ok_inv in H as (c & Hloop & [= <-]).
    assert (Hc : collected_through graph edges node ids (input_edges edges node) c).
    { change (input_edges edges node) with ([] ++ input_edges edges node).
      eapply for_each_invariant; [| |exact Hloop].
      - intros done x s s' [Hs1 Hs2] Hx Hstep. unfold collect_edge in Hstep.
        apply bind_Ok_inv in Hstep as (y & Hy & Hstep).
        apply from_option_Ok_inv in Hy.
        apply bind_Ok_inv in Hstep as (child & Hchild & [= <-]).
        apply IH in Hchild as [Hc1 Hc2].
        apply elem_of_input_edges in Hx as [Hx Hto].
        assert (Hfeeds : feeds graph edges node y) by (exists x; auto).
        split.
        + intros id. rewrite JsObjectFacts.has_spread, Hs1, Hc1. split.
          * intros [[?|(e0 & y0 & m0 & ? & ? & ? & ?)]|[?|(m0 & ? & ?)]]; auto.
            -- right. exists e0, y0, m0. rewrite elem_of_app. auto.
            -- right. exists x, y, m0. rewrite elem_of_app, list_elem_of_singleton. auto.
          * intros [?|(e0 & y0 & m0 & Hin & Hy0 & Hr & Hid)]; [auto|].
            apply elem_of_app in Hin as [Hin|Hin].
            -- left. right. eauto 8.
            -- apply list_elem_of_singleton in Hin as ->.
               rewrite Hy in Hy0. injection Hy0 as <-. right. right. eauto.
        + intros id m Hin. apply JsObjectFacts.elem_of_spread in Hin as [Hin|Hin].
          * apply Hs2, Hin.
          * apply Hc2 in Hin as [Hin|[Hr Hid]]; [auto|].
            right. split; [|exact Hid]. eapply rtc_l; eauto.
      - split.
        + intros id. split; [auto|]. intros [?|(e0 & ? & ? & Hin & _)]; [auto|].
          apply elem_of_nil in Hin as [].
        + auto. }
    destruct Hc as [Hc1 Hc2]. split.
    + intros id. rewrite JsObjectFacts.has_set, orb_true_iff, Hc1, String.eqb_eq. split.
      * intros [->|[?|(e0 & y0 & m0 & Hin & Hy0 & Hr & Hid)]]; auto.
        -- right. exists node. split; [apply rtc_refl | reflexivity].
        -- right. exists m0. split; [|exact Hid].
           apply elem_of_input_edges in Hin as [Hin Hto].
           eapply rtc_l; [exists e0; eauto | exact Hr].
      * intros [?|(m & Hr & Hid)]; [auto|].
        apply rtc_inv in Hr as [<-|(y & (e0 & He0 & Hto & Hy) & Hr)]; [auto|].
        right. right. exists e0, y, m. rewrite elem_of_input_edges. auto.
    + intros id m Hin. apply JsObjectFacts.elem_of_set in Hin as [[= -> ->]|Hin].
      * right. split; [apply rtc_refl | reflexivity].
      * apply Hc2, Hin.
  - intros [= <-]. split.
    + intros id. rewrite JsObjectFacts.has_set, orb_true_iff, String.eqb_eq. split.
      * intros [->|?]; auto. right. exists node. split; [apply rtc_refl | reflexivity].
      * intros [?|(m & Hr & Hid)]; [auto|].
        apply rtc_inv in Hr as [<-|(y & (e0 & He0 & Hto & Hy) & Hr)]; [auto|].
        exfalso. apply (input_edges_nonempty edges node e0); assumption.
    + intros id m Hin. apply JsObjectFacts.elem_of_set in Hin as [[= -> ->]|Hin]; [|auto].
      right. split; [apply rtc_refl | reflexivity].
Qed.

(** With edges that go up in rank and sources that resolve, a stack deeper
    than the rank of the node is enough. *)
Lemma collectConnectedNodes_returns (rank : string -> nat) :
  (forall e, e ∈ edges -> rank (e_from e) < rank (e_to e)) ->
  (forall e, e ∈ edges -> is_Some (find_node graph (e_from e))) ->
  forall depth node ids,
    rank (n_id node) < depth ->
    exists r, collectConnectedNodes depth graph edges node ids = Ok r.
Proof.
  intros Hrank Hsome. induction depth as [|depth IH]; intros node ids Hlt; [lia|].
  rewrite collectConnectedNodes_unfold. case_bool_decide; [|eauto].
  destruct (for_each_succeeds (collect_edge graph edges depth ids) (input_edges edges node))
    with (s := ids) as [c ->]; [|simpl; eauto].
  intros s x Hx. apply elem_of_input_edges in Hx as [Hx Hto].
  unfold collect_edge. destruct (Hsome x Hx) as [y Hy]. rewrite Hy. simpl.
  destruct (IH y ids) as [child ->]; [|simpl; eauto].
  apply find_node_id in Hy. specialize (Hrank x Hx). rewrite Hy, Hto in *. lia.
Qed.

(** With edges that go up in rank, a stack deeper than the rank of the node
    is not exhausted. *)
Lemma collectConnectedNodes_stack (rank : string -> nat) :
  (forall e, e ∈ edges -> rank (e_from e) < rank (e_to e)) ->
  forall depth node ids,
    rank (n_id node) < depth ->
    collectConnectedNodes depth graph edges node ids <> Err StackExhausted.
Proof.
  intros Hrank. induction depth as [|depth IH]; intros node ids Hlt; [lia|].
  rewrite collectConnectedNodes_unfold. case_bool_decide; [|discriminate].
  destruct (for_each _ _ _) as [c|e] eqn:Eloop; simpl; [discriminate|].
  intros [= ->].
  refine (for_each_error (fun e => e <> StackExhausted) _ _ _ _ _ Eloop eq_refl).
  intros s x e Hx. apply elem_of_input_edges in Hx as [Hx Hto]. unfold collect_edge.
  destruct (find_node graph (e_from x)) as [y|] eqn:Hy; simpl.
  - destruct (collectConnectedNodes depth graph edges y ids) as [child|e'] eqn:Ec; simpl;
      [discriminate|].
    intros [= <-] ->. apply (IH y ids); [|exact Ec].
    apply find_node_id in Hy. specialize (Hrank x Hx). rewrite Hy, Hto in *. lia.
  - intros [= <-]. discriminate.
Qed.

End Collect.

(** The nodes reached from a node of the graph are nodes of the graph, each
    the first with its id. *)
Lemma reaches_back_canonical (graph : Graph) (edges : list Edge) (node m : Node) :
  find_node graph (n_id node) = Some node ->
  reaches_back graph edges node m ->
  find_node graph (n_id m) = Some m.
Proof.
  intros Hnode Hreach. induction Hreach as [node|node y m (e & _ & _ & Hy) _ IH].
  - exact Hnode.
  - apply IH. rewrite (find_node_id _ _ _ Hy). exact Hy.
Qed.

(** C6, amended.  [collectConnectedNodes] walks depth first backward over
    the incoming edges, without a check of the mapping it is given.  On a
    graph whose edges go up in a rank and whose edge sources resolve, a
    stack deeper than the rank of the start node suffices and the walk
    returns a mapping whose ids are those of the given mapping and of the
    nodes reachable backward from the start node, each new id mapped to
    such a node.  Started from a node of the graph with the empty mapping,
    it maps the id of a node to that node exactly for the nodes reachable
    backward from the start node.  A node without incoming edges yields the
    given mapping with the node itself added. *)
Theorem collectConnectedNodes_reachable (graph : Graph) (edges : list Edge)
  (rank : string -> nat) (node : Node) (ids : NodeIds) (depth : nat) :
  (forall e, e ∈ edges -> rank (e_from e) < rank (e_to e)) ->
  (forall e, e ∈ edges -> is_Some (find_node graph (e_from e))) ->
  rank (n_id node) < depth ->
  exists r,
    collectConnectedNodes depth graph edges node ids = Ok r
    /\ (forall id, JsObject.has id r = true <->
                   JsObject.has id ids = true
                   \/ exists m, reaches_back graph edges node m /\ n_id m = id)
    /\ (forall id m, JsObject.get id r = Some m ->
                     (id, m) ∈ ids \/ (reaches_back graph edges node m /\ n_id m = id))
    /\ (ids = JsObject.empty ->
        find_node graph (n_id node) = Some node ->
        forall m, reaches_back graph edges node m <-> JsObject.get (n_id m) r = Some m)
    /\ (input_edges edges node = [] -> r = JsObject.set (n_id node) node ids).
Proof.
  intros Hrank Hsome Hdepth.
  destruct (collectConnectedNodes_returns graph edges rank Hrank Hsome depth node ids Hdepth)
    as [r Hr].
  exists r. split; [exact Hr|].
  destruct (collectConnectedNodes_collected graph edges depth node ids r Hr) as [H1 H2].
  split; [exact H1|]. split; [|split].
  - intros id m Hget. apply H2, JsObjectFacts.get_elem_of, Hget.
  - intros -> Hnode m. split.
    + intros Hreach.
      assert (Hhas : JsObject.has (n_id m) r = true) by (apply H1; eauto).
      unfold JsObject.has in Hhas.
      destruct (JsObject.get (n_id m) r) as [m'|] eqn:Hget; [|discriminate].
      apply JsObjectFacts.get_elem_of, H2 in Hget as [Hin|[Hreach' Hid]].
      * apply elem_of_nil in Hin as [].
      * pose proof (reaches_back_canonical graph edges node m Hnode Hreach) as Hm.
        pose proof (reaches_back_canonical graph edges node m' Hnode Hreach') as Hm'.
        rewrite Hid in Hm'. congruence.
    + intros Hget. apply JsObjectFacts.get_elem_of, H2 in Hget as [Hin|[Hreach _]].
      * apply elem_of_nil in Hin as [].
      * exact Hreach.
  - intros Hnone. destruct depth as [|depth]; [lia|].
    rewrite collectConnectedNodes_unfold, Hnone in Hr. simpl in Hr. congruence.
Qed.

Lemma collectConnectedNodes_reachable_witness :
  exists r,
    collectConnectedNodes 3 SampleGraphs.diamond (g_edges SampleGraphs.diamond)
      (Sample.plain_node "6" add fragment) JsObject.empty = Ok r
    /\ JsObject.keys r = ["3"; "4"; "5"; "6"].
Proof.
  destruct (collectConnectedNodes_reachable SampleGraphs.diamond
              (g_edges SampleGraphs.diamond) SampleGraphs.diamond_rank
              (Sample.plain_node "6" add fragment) JsObject.empty 3)
    as (r & Hr & _).
  - intros e He. simpl in He.
    repeat (apply elem_of_cons in He as [->|He]); try (vm_compute; lia).
    apply elem_of_nil in He as [].
  - intros e He. simpl in He.
    repeat (apply elem_of_cons in He as [->|He]); try (vm_compute; eauto).
    apply elem_of_nil in He as [].
  - vm_compute. lia.
  - exists r. split; [exact Hr|].
    vm_compute in Hr. injection Hr as <-. reflexivity.
Defined.

(** C6, as stated, fails on the memoization: collecting from node 4 with a
    mapping that already holds node 4 still follows its incoming edge and
    adds node 3. *)
Lemma collectConnectedNodes_revisits :
  let graph := mkGraph [Sample.plain_node "3" shader fragment;
                        Sample.plain_node "4" shader fragment]
                 [Sample.edge "3" "4" "x" fragment] in
  let node := Sample.plain_node "4" shader fragment in
  let ids := JsObject.set "4" node JsObject.empty in
  (exists r, collectConnectedNodes 2 graph (g_edges graph) node ids = Ok r
             /\ JsObject.has "3" r = true /\ JsObject.has "3" ids = false)
  /\ ~ skips_visited_nodes.
Proof.
  cbv zeta. split.
  - eexists. split; [vm_compute; reflexivity|]. split; reflexivity.
  - intros H.
    specialize (H 2
      (mkGraph [Sample.plain_node "3" shader fragment; Sample.plain_node "4" shader fragment]
         [Sample.edge "3" "4" "x" fragment])
      [Sample.edge "3" "4" "x" fragment]
      (Sample.plain_node "4" shader fragment)
      (JsObject.set "4" (Sample.plain_node "4" shader fragment) JsObject.empty)
      _ eq_refl eq_refl "3").
    vm_compute in H. discriminate.
Qed.

(** ** Dangling edges *)

Example broken_input_aborts :
  compileGraph (Sample.externals Sample.table) 5 Sample.fresh_context Sample.engine
    SampleGraphs.broken_input = Err (DanglingEdge "ghost").
Proof. vm_compute. reflexivity. Qed.

Lemma loose_ends_compiles :
  is_ok (compileGraph (Sample.externals Sample.table) 5 Sample.fresh_context
           Sample.engine SampleGraphs.loose_ends) = true.
Proof. vm_compute. reflexivity. Qed.

(** C7, as stated, fails for an edge whose target id does not resolve and
    for an edge with an unresolved source into a node no output reaches:
    the graph compiles. *)
Lemma loose_edges_compile :
  (dangling SampleGraphs.loose_ends (Sample.edge "1" "nowhere" "x" fragment)
   /\ dangling SampleGraphs.loose_ends (Sample.edge "ghost" "9" "x" fragment))
  /\ is_ok (compileGraph (Sample.externals Sample.table) 5 Sample.fresh_context
              Sample.engine SampleGraphs.loose_ends) = true
  /\ ~ aborts_on_dangling_edges (Sample.externals Sample.table).
Proof.
  split; [split; [right | left]; reflexivity|].
  split; [exact loose_ends_compiles|].
  intros H.
  destruct (H 5 Sample.fresh_context Sample.engine SampleGraphs.loose_ends
              (Sample.edge "1" "nowhere" "x" fragment)) as [from Hfrom].
  - apply list_elem_of_here.
  - right. reflexivity.
  - pose proof loose_ends_compiles as Hok. rewrite Hfrom in Hok. discriminate Hok.
Qed.

(** ** The Texture2D strategy *)

Section Texture2D.
Context (X : Externals).

Lemma texture2D_steps paths : forall state : Res Strategy.Texture2DScan,
  fold_left (walk_step [("function_call", Strategy.texture2D_enter X)]) paths state
  = fold_left (add_call X) (List.filter is_sample_site paths) state.
Proof.
  induction paths as [|p paths IH]; intros state; [reflexivity|].
  cbn [fold_left List.filter]. rewrite IH. clear IH.
  unfold walk_step.
  rewrite (enter_single "function_call" (Strategy.texture2D_enter X) p state).
  unfold is_sample_site, Strategy.texture2D_enter.
  destruct (Ast.type_is "function_call" (Ast.p_node p)); simpl; [|reflexivity].
  destruct (Strategy.is_sample_call (Ast.p_node p) && Js.truthy_string (Ast.p_key p));
    reflexivity.
Qed.

Lemma texture2D_scan_sites ast :
  Strategy.texture2D_scan X ast =
    fold_left (add_call X) (sample_sites ast) (Ok ([], JsObject.empty)).
Proof.
  unfold Strategy.texture2D_scan, sample_sites.
  rewrite AstFacts.visit_preorder by (apply never_skips_single; reflexivity).
  apply texture2D_steps.
Qed.

End Texture2D.

Lemma fold_add_call_succeeds (X : Externals) sites : forall calls0 seen0,
  Forall (fun p => is_Some (Ast.p_parent p) /\ has_args p) sites ->
  fold_left (add_call X) sites (Ok (calls0, seen0))
  = Ok (calls0 ++ map (call_of X) sites,
        fold_left (fun seen name => Strategy.count_seen name seen)
          (map (site_name X) sites) seen0).
Proof.
  induction sites as [|p sites IH]; intros calls0 seen0 Hall; cbn [fold_left map].
  - rewrite app_nil_r. reflexivity.
  - apply Forall_cons in Hall as [[[parent Hp] [args Ha]] Hall].
    assert (add_call X (Ok (calls0, seen0)) p
            = Ok (calls0 ++ [call_of X p], Strategy.count_seen (site_name X p) seen0)) as ->.
    { unfold add_call, call_of, site_name. simpl. rewrite Hp, Ha. reflexivity. }
    rewrite IH by assumption. rewrite <- app_assoc. reflexivity.
Qed.

(** A sample call of a walk has a parent. *)
Lemma sample_site_parent (ast : AstNode) (site : Path) :
  unique_keys ast = true -> site ∈ sample_sites ast ->
  exists pp key fs,
    Ast.p_parentPath site = Some pp
    /\ Ast.p_key site = Some key
    /\ Ast.at_loc (Ast.p_loc pp) ast = AObj fs
    /\ match Ast.p_index site with
       | None => Ast.lookup key fs = Ast.p_node site
       | Some i => exists l, Ast.lookup key fs = AArr l /\ l !! i = Some (Ast.p_node site)
       end.
Proof.
  intros Hunique Hsite. unfold sample_sites in Hsite.
  apply list_elem_of_In, filter_In in Hsite as [Hin Hs].
  apply list_elem_of_In in Hin.
  destruct (PathFacts.preorder_sits ast site Hunique Hin) as [_ Hsits].
  unfold is_sample_site in Hs. apply andb_prop in Hs as [_ Hs].
  destruct (Ast.p_parentPath site) as [pp|].
  - destruct Hsits as (Hpp & fs & key & Hfs & Hkey & Hindex).
    exists pp, key, fs. rewrite Hfs in Hpp. auto.
  - rewrite Hsits in Hs. discriminate.
Qed.

(** The counts kept in [seen], and the names it reports as repeated. *)
Lemma count_name_snoc (name n : string) (names : list string) :
  count_name name (names ++ [n]) =
    count_name name names + (if String.eqb name n then 1 else 0).
Proof.
  unfold count_name. rewrite List.filter_app, length_app. simpl.
  destruct (String.eqb name n); reflexivity.
Qed.

Lemma counts_step (names : list string) (seen : JsObject.t Strategy.Seen) (n : string) :
  counts names seen -> counts (names ++ [n]) (Strategy.count_seen n seen).
Proof.
  intros [Hnd Hget]. split.
  - unfold Strategy.count_seen.
    destruct (JsObject.get n seen) as [[c|]|];
      try (apply JsObjectFacts.NoDup_keys_set, Hnd).
    destruct (Js.inherited n); [destruct (String.eqb n "__proto__")|];
      try exact Hnd; apply JsObjectFacts.NoDup_keys_set, Hnd.
  - intros name. rewrite count_name_snoc.
    destruct (String.eqb_spec name n) as [->|Hne].
    + pose proof (Hget n) as Hn. unfold Strategy.count_seen.
      replace (count_name n names + 1 =? 0)%nat with false
        by (symmetry; apply Nat.eqb_neq; lia).
      destruct (count_name n names =? 0)%nat eqn:E.
      * rewrite Hn. apply Nat.eqb_eq in E. rewrite E.
        destruct (Js.inherited n).
        -- destruct (String.eqb n "__proto__"); [exact Hn|].
           rewrite JsObjectFacts.get_set, String.eqb_refl. reflexivity.
        -- rewrite JsObjectFacts.get_set, String.eqb_refl. reflexivity.
      * rewrite Hn. destruct (Js.inherited n).
        -- destruct (String.eqb n "__proto__").
           ++ rewrite Hn. reflexivity.
           ++ rewrite JsObjectFacts.get_set, String.eqb_refl. reflexivity.
        -- rewrite JsObjectFacts.get_set, String.eqb_refl. reflexivity.
    + rewrite Nat.add_0_r, <- Hget. apply String.eqb_neq in Hne.
      unfold Strategy.count_seen.
      destruct (JsObject.get n seen) as [[c|]|];
        try (rewrite JsObjectFacts.get_set, Hne; reflexivity).
      destruct (Js.inherited n); [destruct (String.eqb n "__proto__")|];
        try reflexivity; rewrite JsObjectFacts.get_set, Hne; reflexivity.
Qed.

Lemma counts_fold (names : list string) : forall done seen,
  counts done seen ->
  counts (done ++ names)
    (fold_left (fun seen name => Strategy.count_seen name seen) names seen).
Proof.
  induction names as [|n names IH]; intros done seen Hc; simpl.
  - rewrite app_nil_r. exact Hc.
  - replace (done ++ n :: names) with ((done ++ [n]) ++ names)
      by (rewrite <- app_assoc; reflexivity).
    apply IH, counts_step, Hc.
Qed.

Lemma counts_seen_of (names : list string) : counts names (seen_of names).
Proof.
  apply (counts_fold names [] JsObject.empty). split; [apply NoDup_nil_2|].
  intros name. reflexivity.
Qed.

Lemma elem_of_repeated_fold (seen : JsObject.t Strategy.Seen) :
  forall (arr : list string) x,
  x ∈ fold_left
        (fun arr '(name, count) =>
           arr ++ (if Strategy.more_than_once count then [name] else []))
        seen arr
  <-> x ∈ arr \/ exists count, (x, count) ∈ seen /\ Strategy.more_than_once count = true.
Proof.
  induction seen as [|[n c] seen IH]; intros arr x; simpl.
  - split; [auto|]. intros [?|(? & Hin & _)]; [assumption|].
    apply elem_of_nil in Hin as [].
  - rewrite IH, elem_of_app. split.
    + intros [[?|Hn]|(c0 & Hin & Hc)]; auto.
      * destruct (Strategy.more_than_once c) eqn:E; [|apply elem_of_nil in Hn as []].
        apply list_elem_of_singleton in Hn as ->.
        right. exists c. split; [apply list_elem_of_here | exact E].
      * right. exists c0. split; [apply list_elem_of_further, Hin | exact Hc].
    + intros [?|(c0 & Hin & Hc)]; auto.
      apply elem_of_cons in Hin as [[= -> ->]|Hin].
      * left. right. rewrite Hc. apply list_elem_of_here.
      * right. eauto.
Qed.

(** The names reported as repeated: those that occur more than once and
    are not the name of a member of [Object.prototype]. *)
Lemma elem_of_repeated_names (names : list string) (x : string) :
  x ∈ Strategy.repeated_names (seen_of names)
  <-> 1 < count_name x names /\ Js.inherited x = false.
Proof.
  unfold Strategy.repeated_names. rewrite elem_of_list_to_set, elem_of_repeated_fold.
  destruct (counts_seen_of names) as [Hnd Hget]. split.
  - intros [Hin|(c & Hin & Hc)]; [apply elem_of_nil in Hin as []|].
    apply JsObjectFacts.elem_of_get in Hin; [|exact Hnd].
    rewrite Hget in Hin. destruct (count_name x names =? 0)%nat; [discriminate|].
    destruct (Js.inherited x).
    + destruct (String.eqb x "__proto__"); [discriminate|].
      injection Hin as <-. discriminate Hc.
    + injection Hin as <-. simpl in Hc. apply Nat.ltb_lt in Hc. auto.
  - intros [Hc Hno]. right. exists (Strategy.Count (count_name x names)). split.
    + apply JsObjectFacts.get_elem_of. rewrite Hget, Hno.
      replace (count_name x names =? 0)%nat with false
        by (symmetry; apply Nat.eqb_neq; lia). reflexivity.
    + simpl. apply Nat.ltb_lt, Hc.
Qed.

(** [parent[key] = fillerAst]: the parent object holds the filler under
    [key] and its other properties as before. *)
Lemma fill_texture2D_assigns (parent : Loc) (key : string) (fillerAst ast : AstNode) fs :
  Ast.at_loc parent ast = AObj fs ->
  Ast.at_loc parent (fill_texture2D parent key fillerAst ast)
  = AObj (Ast.assign key fillerAst fs).
Proof.
  intros H. unfold fill_texture2D.
  rewrite LocFacts.at_loc_update_at by (rewrite H; discriminate).
  rewrite H. reflexivity.
Qed.


Example texture2D_three_samples :
  input_names
    <$> match Strategy.texture2D (Sample.externals []) (Sample.plain_node "7" shader fragment)
                SampleTrees.three_samples with
        | Ok inputs => Some inputs
        | Err _ => None
        end
  = Some ["other"; "tex_1"; "tex_2"].
Proof. vm_compute. reflexivity. Qed.

Example texture2D_two_samples :
  input_names
    <$> match Strategy.texture2D (Sample.externals []) (Sample.plain_node "7" shader fragment)
                SampleTrees.two_samples with
        | Ok inputs => Some inputs
        | Err _ => None
        end
  = Some ["tex_0"; "tex_1"].
Proof. vm_compute. reflexivity. Qed.

Example texture2D_one_sample :
  input_names
    <$> match Strategy.texture2D (Sample.externals []) (Sample.plain_node "7" shader fragment)
                SampleTrees.one_sample with
        | Ok inputs => Some inputs
        | Err _ => None
        end
  = Some ["tex2"].
Proof. vm_compute. reflexivity. Qed.

(** Two samples of a sampler called [constructor]: [seen.constructor] is a
    function before it is a count, and the inputs keep the plain name. *)
Example texture2D_prototype_name :
  input_names
    <$> match Strategy.texture2D (Sample.externals []) (Sample.plain_node "7" shader fragment)
                SampleTrees.two_constructors with
        | Ok inputs => Some inputs
        | Err _ => None
        end
  = Some ["constructor"; "constructor"].
Proof. vm_compute. reflexivity. Qed.

Example texture2D_fills_the_call :
  first_input_filled SampleTrees.two_samples (Ast.identifier "FILL")
  = Some "voidmain(){c=FILL;d=texture2D(tex,uv);}".
Proof. vm_compute. reflexivity. Qed.



(** ** The Uniform strategy *)

Lemma input_names_app (a b : list ComputedInput) :
  input_names (a ++ b) = input_names a ++ input_names b.
Proof. apply map_app. Qed.

Lemma uniform_line_inputs (index : nat) (node : AstNode) (inputs : list ComputedInput) :
  Strategy.uniform_line index node = Ok inputs ->
  input_names inputs = (if Strategy.is_uniform_line node then declared node else [])
  /\ Forall is_uniform_input inputs.
Proof.
  unfold Strategy.uniform_line, declared.
  destruct (Strategy.is_uniform_line node); [|intros [= <-]; split; [reflexivity | constructor]].
  destruct (Ast.items _) as [declarations|]; simpl; [|discriminate].
  destruct (Strategy.declared_names declarations) as [names|]; simpl; [|discriminate].
  intros [= <-]. split.
  - unfold input_names. rewrite map_map. simpl. apply map_id.
  - apply Forall_forall. intros input Hin.
    apply list_elem_of_fmap in Hin as (name & -> & _). repeat split.
Qed.

Lemma uniform_lines_inputs (program : list AstNode) : forall index inputs,
  Strategy.uniform_lines index program = Ok inputs ->
  input_names inputs = List.concat (map declared (List.filter Strategy.is_uniform_line program))
  /\ Forall is_uniform_input inputs.
Proof.
  induction program as [|node program IH]; intros index inputs; simpl.
  - intros [= <-]. split; [reflexivity | constructor].
  - intros H. apply bind_Ok_inv in H as (first & Hfirst & H).
    apply bind_Ok_inv in H as (more & Hmore & [= <-]).
    apply uniform_line_inputs in Hfirst as [Hn1 Ha1].
    apply IH in Hmore as [Hn2 Ha2]. split.
    + rewrite input_names_app, Hn1, Hn2.
      destruct (Strategy.is_uniform_line node); reflexivity.
    + apply Forall_app. split; assumption.
Qed.

Lemma uniform_lines_returns (program : list AstNode) : forall index,
  Forall well_declared (List.filter Strategy.is_uniform_line program) ->
  exists inputs, Strategy.uniform_lines index program = Ok inputs.
Proof.
  induction program as [|node program IH]; intros index Hall; simpl; [eauto|].
  simpl in Hall. unfold Strategy.uniform_line.
  destruct (Strategy.is_uniform_line node).
  - apply Forall_cons in Hall as [(declarations & names & -> & Hnames) Hall].
    simpl. rewrite Hnames. simpl.
    destruct (IH (S index) Hall) as [more ->]. simpl. eauto.
  - simpl. destruct (IH (S index) Hall) as [more ->]. simpl. eauto.
Qed.

(** C5, amended.  On a program whose uniform declarations are lists of
    named declarators, the Uniform strategy selects exactly the top-level
    declaration statements that have a qualifier [uniform] and whose
    declared type is not [sampler2D], and produces, in order, one input for
    each name declared in such a statement, with category "data" and
    bakeable true; a uniform declaration of type [sampler2D] produces no
    input. *)
Theorem uniform_inputs (graphNode : Node) (ast : AstNode) (program : list AstNode) :
  Ast.field "program" ast = AArr program ->
  Forall well_declared (List.filter Strategy.is_uniform_line program) ->
  exists inputs,
    Strategy.uniform graphNode ast = Ok inputs
    /\ input_names inputs
       = List.concat (map declared (List.filter Strategy.is_uniform_line program))
    /\ Forall is_uniform_input inputs
    /\ (forall node,
          Strategy.is_uniform_line node = true <->
            Ast.type_is "declaration_statement" node = true
            /\ Strategy.has_uniform_qualifier node = true
            /\ Strategy.uniformType node <> AStr "sampler2D")
    /\ (forall index node,
          Strategy.uniformType node = AStr "sampler2D" ->
          Strategy.uniform_line index node = Ok []).
Proof.
  intros Hprogram Hwell.
  destruct (uniform_lines_returns program 0 Hwell) as [inputs Hinputs].
  exists inputs. unfold Strategy.uniform. rewrite Hprogram. simpl.
  split; [exact Hinputs|].
  apply uniform_lines_inputs in Hinputs as [Hnames Hall].
  split; [exact Hnames|]. split; [exact Hall|]. split.
  - intros node. unfold Strategy.is_uniform_line.
    rewrite !andb_true_iff, negb_true_iff. unfold Ast.is_str.
    split.
    + intros [[Ht Hq] Hs]. repeat split; try assumption.
      intros Heq. rewrite Heq in Hs. simpl in Hs. discriminate.
    + intros (Ht & Hq & Hs). repeat split; try assumption.
      destruct (Strategy.uniformType node) as [|t| | |]; try reflexivity.
      apply String.eqb_neq. congruence.
  - intros index node Hs. unfold Strategy.uniform_line, Strategy.is_uniform_line.
    rewrite Hs. simpl. rewrite andb_false_r. reflexivity.
Qed.

Lemma uniform_inputs_witness :
  exists inputs,
    Strategy.uniform (Sample.plain_node "7" shader fragment) SampleTrees.uniforms = Ok inputs
    /\ input_names inputs = ["color"; "a"; "b"; "env"]
    /\ Forall is_uniform_input inputs.
Proof.
  destruct (uniform_inputs (Sample.plain_node "7" shader fragment) SampleTrees.uniforms
              _ eq_refl) as (inputs & Hinputs & Hnames & Hall & _).
  - repeat constructor; do 2 eexists; (split; [reflexivity | vm_compute; reflexivity]).
  - exists inputs. split; [exact Hinputs|]. split; [|exact Hall].
    rewrite Hnames. vm_compute. reflexivity.
Defined.

(** C5, as stated, fails for the sampler types other than [sampler2D]:
    [uniform samplerCube env;] produces the input [env]. *)
Lemma uniform_samplerCube_is_an_input :
  input_names
    <$> match Strategy.uniform_line 0
                (Sample.declaration_statement ["uniform"] "samplerCube" ["env"]) with
        | Ok inputs => Some inputs
        | Err _ => None
        end
  = Some ["env"]
  /\ ~ skips_sampler_uniforms.
Proof.
  split; [vm_compute; reflexivity|].
  intros H.
  specialize (H 0 (Sample.declaration_statement ["uniform"] "samplerCube" ["env"])
                eq_refl eq_refl eq_refl).
  vm_compute in H. discriminate.
Qed.

(** ** Compiling a graph *)

Section CompileGraph.
Context (X : Externals) {T : Type}.

(** The steps of a call of [compileGraph] that returns. *)
Lemma compileGraph_inv depth (engineContext : EngineContext T) engine graph
  result graph' engineContext' :
  compileGraph X depth engineContext engine graph = Ok (result, graph', engineContext') ->
  graph' = graph
  /\ exists context0 outputFrag outputVert fragmentFiller fragmentIds context1
            vertexIds vertexFiller ids context2,
       computeGraphContext X depth engineContext engine graph = Ok context0
       /\ find_output graph fragment = Some outputFrag
       /\ find_output graph vertex = Some outputVert
       /\ compileNode X depth engine graph (g_edges graph) context0 outputFrag
            fragment JsObject.empty
          = Ok (r_fragment result, fragmentFiller, fragmentIds, context1)
       /\ collectConnectedNodes depth graph (g_edges graph) outputVert JsObject.empty
          = Ok vertexIds
       /\ compileNode X depth engine graph
            (g_edges graph ++ orphanEdges graph outputVert fragmentIds vertexIds)
            context1 outputVert vertex JsObject.empty
          = Ok (r_vertex result, vertexFiller, ids, context2)
       /\ ec_compileCount engineContext' = S (ec_compileCount context2)
       /\ ec_nodes engineContext' = ec_nodes context2.
Proof.
  unfold compileGraph. intros H.
  apply bind_Ok_inv in H as (context0 & Hc0 & H).
  apply bind_Ok_inv in H as (outputFrag & Hf & H). apply from_option_Ok_inv in Hf.
  apply bind_Ok_inv in H as ([[[fs ff] fids] context1] & Hcf & H).
  apply bind_Ok_inv in H as (outputVert & Hv & H). apply from_option_Ok_inv in Hv.
  apply bind_Ok_inv in H as (vertexIds & Hvi & H).
  apply bind_Ok_inv in H as ([[[vs vf] vids] context2] & Hcv & H).
  injection H as <- <- <-. split; [reflexivity|].
  exists context0, outputFrag, outputVert, ff, fids, context1, vertexIds, vf, vids, context2.
  simpl. repeat split; assumption.
Qed.

(** Two loops over the same list that keep their states related. *)
Lemma for_each_related {A S1 S2} (R : S1 -> S2 -> Prop)
  (f : S1 -> A -> Res S1) (g : S2 -> A -> Res S2) (xs : list A) :
  (forall s t x s', R s t -> x ∈ xs -> f s x = Ok s' -> exists t', g t x = Ok t' /\ R s' t') ->
  forall s t s', R s t -> for_each f xs s = Ok s' ->
                 exists t', for_each g xs t = Ok t' /\ R s' t'.
Proof.
  induction xs as [|x xs IH]; intros Hstep s t s' HR; simpl.
  - intros [= <-]. eauto.
  - destruct (f s x) as [s1|] eqn:Ef; simpl; [|discriminate].
    destruct (Hstep s t x s1 HR (list_elem_of_here _ _) Ef) as (t1 & -> & HR1). simpl.
    apply IH; [|exact HR1].
    intros ? ? ? ? ? Hin. apply Hstep; [assumption|]. apply list_elem_of_further, Hin.
Qed.

(** The ids that [compileNode] returns are those that
    [collectConnectedNodes] collects. *)
Lemma compileNode_ids depth : forall engine graph edges
    (engineContext : EngineContext T) node stage ids sections filler r engineContext',
  compileNode X depth engine graph edges engineContext node stage ids
  = Ok (sections, filler, r, engineContext') ->
  collectConnectedNodes depth graph edges node ids = Ok r.
Proof.
  induction depth as [|depth IH];
    intros engine graph edges engineContext node stage ids sections filler r engineContext';
    [discriminate|].
  rewrite collectConnectedNodes_unfold. simpl.
  intros H. apply bind_Ok_inv in H as (parser & _ & H).
  apply bind_Ok_inv in H as ([ast0 inputs0] & _ & H).
  destruct (bool_decide (length (input_edges edges node) ≠ 0)).
  - apply bind_Ok_inv in H as ([[continuation compiledIds] context1] & Hloop & H).
    apply bind_Ok_inv in H as (own & _ & H).
    apply bind_Ok_inv in H as (shaderParser & _ & H).
    apply bind_Ok_inv in H as (filler' & _ & H).
    assert (r = JsObject.set (n_id node) node compiledIds) as -> by congruence.
    eapply (for_each_related
              (fun (s : ShaderSections X * NodeIds * EngineContext T) (t : NodeIds) =>
                 snd (fst s) = t)
              _ (collect_edge graph edges depth ids)) in Hloop as (t' & Ht' & HR).
    + rewrite Ht'. simpl in *. subst t'. reflexivity.
    + intros [[c0 ids0] ctx0] t x [[c1 ids1] ctx1] HR _ Hstep. simpl in HR. subst t.
      unfold collect_edge.
      apply bind_Ok_inv in Hstep as (fromNode & Hfrom & Hstep). rewrite Hfrom. simpl.
      apply bind_Ok_inv in Hstep as ([[[s0 f0] childIds] ctx'] & Hchild & Hstep).
      rewrite (IH _ _ _ _ _ _ _ _ _ _ _ Hchild). simpl.
      destruct (negb (Ast.truthy f0)); [discriminate|].
      apply bind_Ok_inv in Hstep as (inputs & _ & Hstep).
      apply bind_Ok_inv in Hstep as (ast & _ & Hstep).
      assert (ids1 = JsObject.spread ids0 childIds) as -> by congruence.
      eexists. split; reflexivity.
    + reflexivity.
  - apply bind_Ok_inv in H as (own & _ & H).
    apply bind_Ok_inv in H as (shaderParser & _ & H).
    apply bind_Ok_inv in H as (filler' & _ & H).
    assert (r = JsObject.set (n_id node) node ids) as -> by congruence. reflexivity.
Qed.

(** The synthesized edges: one per vertex node that has a non-empty
    [nextStageNodeId] found in [fragmentIds] and whose own id is not found
    in [vertexIds]. *)
Lemma elem_of_orphanEdges graph outputVert fragmentIds vertexIds e :
  e ∈ orphanEdges graph outputVert fragmentIds vertexIds <->
  exists node next,
    node ∈ g_nodes graph
    /\ n_stage node = Some vertex
    /\ n_nextStageNodeId node = Some next
    /\ next <> ""
    /\ JsObject.has_in next fragmentIds = true
    /\ JsObject.has_in (n_id node) vertexIds = false
    /\ e = {| e_from := n_id node; e_to := n_id outputVert; e_output := "main";
              e_input := "mainStmts"; e_stage := Some vertex |}.
Proof.
  unfold orphanEdges. rewrite list_elem_of_fmap. split.
  - intros (node & -> & Hin). apply list_elem_of_In, filter_In in Hin as [Hin Ho].
    unfold is_orphan in Ho. rewrite !andb_true_iff, negb_true_iff in Ho.
    destruct Ho as [[[Hs Hn] Hf] Hv]. apply bool_decide_eq_true in Hs.
    destruct (n_nextStageNodeId node) as [next|] eqn:En; [|discriminate].
    exists node, next. rewrite list_elem_of_In. repeat split; auto.
    intros ->. discriminate.
  - intros (node & next & Hin & Hs & Hn & Hne & Hf & Hv & ->).
    exists node. split; [reflexivity|].
    apply list_elem_of_In, filter_In. split; [apply list_elem_of_In, Hin|].
    unfold is_orphan. rewrite (bool_decide_true _ Hs), Hn.
    change (default "" (Some next)) with next.
    rewrite Hf, Hv. destruct next; [congruence | reflexivity].
Qed.

(** Wiring [mainStmts]: the statement made of the filler expression goes
    to the head of the body of the first [function] statement of the
    program. *)
Lemma mainStmts_filler_prepends fillerAst ast program i fn statements stmt :
  Ast.field "program" ast = AArr program ->
  find_index (Ast.type_is "function") program = Some i ->
  program !! i = Some fn ->
  Ast.field "statements" (Ast.field "body" fn) = AArr statements ->
  makeFnStatement X (generate X fillerAst) = Ok stmt ->
  exists ast',
    mainStmts_filler X fillerAst ast = Ok ast'
    /\ Ast.at_loc [SItem "program" i; SField "body"; SField "statements"] ast'
       = AArr (stmt :: statements).
Proof.
  intros Hp Hi Hfn Hs Hstmt.
  assert (mainStmts_filler X fillerAst ast
          = Ok (Ast.update_at (fun _ => AArr (stmt :: statements))
                  [SItem "program" i; SField "body"; SField "statements"] ast)) as ->.
  { unfold mainStmts_filler.
    rewrite Hp. simpl. rewrite Hi. simpl. rewrite Hfn. simpl. rewrite Hs. simpl.
    rewrite Hstmt. reflexivity. }
  eexists. split; [reflexivity|].
  rewrite LocFacts.at_loc_update_at; [reflexivity|].
  simpl. rewrite Hp, Hfn. simpl. rewrite Hs. discriminate.
Qed.

End CompileGraph.

(** C1 at the input where the code departs from it.  The vertex output of
    the graph declares the helper [scale] before [main]; node 7 is a vertex
    node linked to the fragment node 8 and not connected to the vertex
    output.  Its statement [main_Varying();] is put at the head of the body
    of [scale], the first function of the program, and not in the entry
    function [main]. *)
Theorem orphan_statement_lands_in_first_function :
  compiled_text (Sample.externals Sample.table) (map Sample.generate)
    (compileGraph (Sample.externals Sample.table) 5 Sample.fresh_context Sample.engine
       SampleGraphs.with_orphan_and_helper)
  = Some (["voidmain_Colour(){gl_FragColor=vec4(1.0);}";
           "voidmain(){gl_FragColor=main_Colour();}"],
          ["voidmain_Varying(){vPos=position;}";
           "floatscale(){main_Varying();}";
           "voidmain(){gl_Position=vec4(position,1.0);}"]).
Proof. vm_compute. reflexivity. Qed.

(** When [main] is the first function of the vertex output, the statement
    of the orphan is the leading statement of [main]. *)
Example orphan_statement_leads_main :
  compiled_text (Sample.externals Sample.table) (map Sample.generate)
    (compileGraph (Sample.externals Sample.table) 5 Sample.fresh_context Sample.engine
       SampleGraphs.with_orphan)
  = Some (["voidmain_Colour(){gl_FragColor=vec4(1.0);}";
           "voidmain(){gl_FragColor=main_Colour();}"],
          ["voidmain_Varying(){vPos=position;}";
           "voidmain(){main_Varying();gl_Position=vec4(position,1.0);}"]).
Proof. vm_compute. reflexivity. Qed.

(** C10.  [compileGraph] leaves the graph, and so its edge list, as it
    found them: the synthesized orphan edges are appended to a copy that
    only the vertex-side [compileNode] receives. *)
Theorem compileGraph_leaves_edges (X : Externals) (T : Type) (depth : nat)
  (engineContext : EngineContext T) (engine : Engine T) (graph : Graph)
  (result : CompileGraphResult X) (graph' : Graph) (engineContext' : EngineContext T) :
  compileGraph X depth engineContext engine graph = Ok (result, graph', engineContext') ->
  g_edges graph' = g_edges graph
  /\ graph' = graph
  /\ exists outputVert fragmentIds vertexIds context1 vertexFiller ids context2,
       find_output graph vertex = Some outputVert
       /\ compileNode X depth engine graph
            (g_edges graph ++ orphanEdges graph outputVert fragmentIds vertexIds)
            context1 outputVert vertex JsObject.empty
          = Ok (r_vertex result, vertexFiller, ids, context2).
Proof.
  intros H. apply compileGraph_inv in H
    as (-> & c0 & oF & oV & ff & fids & c1 & vids & vf & ids & c2
        & _ & _ & HoV & _ & _ & Hcv & _).
  split; [reflexivity|]. split; [reflexivity|].
  exists oV, fids, vids, c1, vf, ids, c2. split; assumption.
Qed.

Lemma compileGraph_leaves_edges_witness :
  exists result graph' engineContext',
    compileGraph (Sample.externals Sample.table) 5 Sample.fresh_context Sample.engine
      SampleGraphs.with_orphan = Ok (result, graph', engineContext')
    /\ g_edges graph' = [Sample.edge "8" "1" "color" fragment].
Proof.
  destruct (compileGraph (Sample.externals Sample.table) 5 Sample.fresh_context
              Sample.engine SampleGraphs.with_orphan)
    as [[[result graph'] engineContext']|] eqn:E.
  - exists result, graph', engineContext'. split; [reflexivity|].
    apply (compileGraph_leaves_edges _ _ _ _ _ _ _ _ _ E).
  - exfalso. pose proof orphan_statement_leads_main as H. rewrite E in H. discriminate H.
Defined.
(** * Further properties of the code *)

(** ** Function names of nodes *)

Lemma blank_non_alnum_chars (s : string) :
  every_char (fun c => is_alnum c || Ascii.eqb c " "%char) (blank_non_alnum s) = true.
Proof.
  induction s as [|c s IH]; simpl; [reflexivity|].
  rewrite IH, andb_true_r. destruct (is_alnum c) eqn:E; [rewrite E|]; reflexivity.
Qed.

Lemma is_alnum_not_space (c : ascii) : is_alnum c = true -> Ascii.eqb c " "%char = false.
Proof.
  intros H. destruct (Ascii.eqb_spec c " "%char) as [->|]; [discriminate H | reflexivity].
Qed.

Lemma is_alnum_not_underscore (c : ascii) :
  is_alnum c = true -> Ascii.eqb c "_"%char = false.
Proof.
  intros H. destruct (Ascii.eqb_spec c "_"%char) as [->|]; [discriminate H | reflexivity].
Qed.

Lemma underscore_runs_chars (s : string) : forall in_run,
  every_char (fun c => is_alnum c || Ascii.eqb c " "%char) s = true ->
  every_char word_char (underscore_runs in_run s) = true.
Proof.
  induction s as [|c s IH]; intros in_run; simpl; [reflexivity|].
  intros H. apply andb_prop in H as [Hc Hs].
  destruct (Ascii.eqb c " "%char) eqn:E.
  - destruct in_run; simpl; auto.
  - simpl. rewrite orb_false_r in Hc. unfold word_char. rewrite Hc. simpl. auto.
Qed.

(** After a run of spaces has begun the text resumes with a character that
    is not an underscore. *)
Lemma underscore_runs_resumes (s : string) :
  every_char (fun c => is_alnum c || Ascii.eqb c " "%char) s = true ->
  starts_with (fun c => Ascii.eqb c "_"%char) (underscore_runs true s) = false.
Proof.
  induction s as [|c s IH]; simpl; [reflexivity|].
  intros H. apply andb_prop in H as [Hc Hs].
  destruct (Ascii.eqb c " "%char) eqn:E; [auto|].
  simpl. rewrite orb_false_r in Hc. apply is_alnum_not_underscore, Hc.
Qed.

Lemma underscores_apart_cons (a : ascii) (s : string) :
  underscores_apart (String a s) =
    negb (Ascii.eqb a "_"%char && starts_with (fun c => Ascii.eqb c "_"%char) s)
    && underscores_apart s.
Proof. destruct s; simpl; [rewrite andb_false_r|]; reflexivity. Qed.

Lemma underscore_runs_apart (s : string) : forall in_run,
  every_char (fun c => is_alnum c || Ascii.eqb c " "%char) s = true ->
  underscores_apart (underscore_runs in_run s) = true.
Proof.
  induction s as [|c s IH]; intros in_run; [reflexivity|].
  intros H. pose proof H as Hall. simpl in H. apply andb_prop in H as [Hc Hs].
  cbn [underscore_runs].
  destruct (Ascii.eqb c " "%char) eqn:E.
  - destruct in_run; [auto|].
    rewrite underscores_apart_cons, underscore_runs_resumes by assumption.
    rewrite andb_false_r. simpl. auto.
  - rewrite underscores_apart_cons. rewrite orb_false_r in Hc.
    rewrite (is_alnum_not_underscore c Hc). simpl. auto.
Qed.

Lemma underscore_runs_starts (s : string) :
  starts_with (fun c => Ascii.eqb c "_"%char) (underscore_runs false (blank_non_alnum s))
  = starts_with (fun c => negb (is_alnum c)) s.
Proof.
  destruct s as [|c s]; simpl; [reflexivity|].
  destruct (is_alnum c) eqn:E.
  - rewrite (is_alnum_not_space c E). simpl. apply is_alnum_not_underscore, E.
  - reflexivity.
Qed.

Lemma underscore_runs_length (s : string) : forall in_run,
  String.length (underscore_runs in_run s) <= String.length s.
Proof.
  induction s as [|c s IH]; intros in_run; simpl; [lia|].
  pose proof (IH true). pose proof (IH false).
  destruct (Ascii.eqb c " "%char); [destruct in_run|]; simpl; lia.
Qed.

Lemma blank_non_alnum_length (s : string) :
  String.length (blank_non_alnum s) = String.length s.
Proof. induction s; simpl; congruence. Qed.

Lemma clean_name_kept (s : string) :
  every_char is_alnum s = true -> underscore_runs false (blank_non_alnum s) = s.
Proof.
  induction s as [|c s IH]; simpl; [reflexivity|].
  intros H. apply andb_prop in H as [Hc Hs]. rewrite Hc.
  rewrite (is_alnum_not_space c Hc), IH by assumption. reflexivity.
Qed.

Lemma main_underscores_apart (s : string) :
  underscores_apart ("main_" +:+ s)
  = negb (starts_with (fun c => Ascii.eqb c "_"%char) s) && underscores_apart s.
Proof. destruct s; reflexivity. Qed.

(** X1.  [nodeName] yields [main_] followed by letters, digits and
    underscores only, at most as many as the display name has characters,
    and no two underscores of that suffix are adjacent.  The whole name has
    two adjacent underscores exactly when the display name starts with a
    character that is neither a letter nor a digit. *)
Theorem nodeName_is_a_word (node : Node) :
  exists suffix,
    nodeName node = "main_" +:+ suffix
    /\ every_char word_char suffix = true
    /\ underscores_apart suffix = true
    /\ String.length suffix <= String.length (n_name node)
    /\ underscores_apart (nodeName node)
       = negb (starts_with (fun c => negb (is_alnum c)) (n_name node)).
Proof.
  exists (underscore_runs false (blank_non_alnum (n_name node))).
  split; [reflexivity|].
  split; [apply underscore_runs_chars, blank_non_alnum_chars|].
  split; [apply underscore_runs_apart, blank_non_alnum_chars|].
  split; [rewrite <- (blank_non_alnum_length (n_name node)); apply underscore_runs_length|].
  unfold nodeName. rewrite main_underscores_apart, underscore_runs_starts.
  rewrite underscore_runs_apart by apply blank_non_alnum_chars.
  apply andb_true_r.
Qed.

(** X2.  A display name made of letters and digits is kept as it is, and
    two nodes with distinct such names get distinct function names. *)
Theorem nodeName_keeps_clean_names (n1 n2 : Node) :
  every_char is_alnum (n_name n1) = true ->
  every_char is_alnum (n_name n2) = true ->
  nodeName n1 = "main_" +:+ n_name n1
  /\ (n_name n1 <> n_name n2 -> nodeName n1 <> nodeName n2).
Proof.
  intros H1 H2. unfold nodeName. rewrite !clean_name_kept by assumption.
  split; [reflexivity|]. intros Hne Heq. apply Hne.
  apply (String.app_inj "main_"). exact Heq.
Qed.

Lemma nodeName_keeps_clean_names_witness :
  nodeName (mkNode "7" "Noise" shader (Some fragment) None false None None) = "main_Noise"
  /\ nodeName (mkNode "7" "Noise" shader (Some fragment) None false None None)
     <> nodeName (mkNode "8" "Noise2" shader (Some fragment) None false None None).
Proof.
  destruct (nodeName_keeps_clean_names
              (mkNode "7" "Noise" shader (Some fragment) None false None None)
              (mkNode "8" "Noise2" shader (Some fragment) None false None None))
    as [Hname Hne]; [reflexivity | reflexivity |].
  split; [exact Hname | apply Hne; discriminate].
Defined.

(** ** Walks that skip *)

Module WalkFacts.
Import Ast.

Section Keeps.
Context {St : Type} (visitors : NodeVisitors St) (P : St -> Prop).

Lemma elems_keep loc path k l :
  Forall (walk_keeps visitors P) l ->
  forall i s,
    (forall p s, p ∈ preorder_elems preorderNode loc path k i l -> P s ->
                 P (walk_step visitors s p)) ->
    P s -> P (visit_elems (visitNode visitors) loc path k i l s).
Proof.
  induction 1 as [|c l Hc _ IH]; intros i s Hstep Hs; simpl; [exact Hs|].
  simpl in Hstep. apply IH.
  - intros p s' Hin. apply Hstep. apply elem_of_app. right. exact Hin.
  - apply Hc; [|exact Hs].
    intros p s' Hin. apply Hstep. apply elem_of_app. left. exact Hin.
Qed.

Lemma child_keeps loc path k v s :
  walk_keeps visitors P v ->
  (forall l, v = AArr l -> Forall (walk_keeps visitors P) l) ->
  (forall p s, p ∈ preorder_child preorderNode loc path k v -> P s ->
               P (walk_step visitors s p)) ->
  P s -> P (visit_child (visitNode visitors) loc path k v s).
Proof.
  intros Hv Hl Hstep Hs. destruct v as [| |l|fs|]; simpl; try exact Hs.
  - apply elems_keep; auto.
  - simpl in Hstep. destruct (isNode (AObj fs)); [|exact Hs]. apply Hv; assumption.
Qed.

Lemma fields_keep loc path fs :
  Forall (fun kv => walk_keeps visitors P (snd kv)
                    /\ (forall l, snd kv = AArr l -> Forall (walk_keeps visitors P) l)) fs ->
  forall s,
    (forall p s, p ∈ preorder_fields preorderNode loc path fs -> P s ->
                 P (walk_step visitors s p)) ->
    P s -> P (visit_fields (visitNode visitors) loc path fs s).
Proof.
  induction 1 as [|[k v] fs [Hv Hl] _ IH]; intros s Hstep Hs; simpl; [exact Hs|].
  simpl in Hstep. apply IH.
  - intros p s' Hin. apply Hstep. apply elem_of_app. right. exact Hin.
  - apply child_keeps; [exact Hv | exact Hl | | exact Hs].
    intros p s' Hin. apply Hstep. apply elem_of_app. left. exact Hin.
Qed.

Lemma leaf_keeps n :
  (forall fs, n <> AObj fs) -> walk_keeps visitors P n.
Proof.
  intros Hn loc parent key index s Hstep Hs.
  rewrite AstFacts.visitNode_unfold. cbv zeta.
  specialize (Hstep (mkPath n loc parent key index) s).
  unfold walk_step in Hstep.
  destruct (enter visitors (mkPath n loc parent key index) s) as [s1 sk].
  assert (P s1) by (apply Hstep; [rewrite AstFacts.preorderNode_unfold; apply list_elem_of_here | exact Hs]).
  destruct sk; [assumption|]. destruct n; try assumption.
  exfalso. eapply Hn. reflexivity.
Qed.

Lemma node_keeps n :
  walk_keeps visitors P n /\ (forall l, n = AArr l -> Forall (walk_keeps visitors P) l).
Proof.
  induction n as [| s | items IH | fields IH | target] using AstNode_nested_ind.
  - split; [|discriminate]. apply leaf_keeps. discriminate.
  - split; [|discriminate]. apply leaf_keeps. discriminate.
  - split; [apply leaf_keeps; discriminate|].
    intros l [= <-]. eapply Forall_impl; [exact IH|]. intros ? [? _]; assumption.
  - split; [|discriminate]. intros loc parent key index s Hstep Hs.
    rewrite AstFacts.visitNode_unfold. cbv zeta.
    rewrite AstFacts.preorderNode_unfold in Hstep. cbv zeta in Hstep.
    pose proof (Hstep (mkPath (AObj fields) loc parent key index) s
                  (list_elem_of_here _ _) Hs) as H1.
    unfold walk_step in H1.
    destruct (enter visitors (mkPath (AObj fields) loc parent key index) s) as [s1 sk].
    simpl in H1. destruct sk; [exact H1|].
    apply fields_keep; [exact IH | | exact H1].
    intros p s' Hin. apply Hstep. apply list_elem_of_further, Hin.
  - split; [|discriminate]. apply leaf_keeps. discriminate.
Qed.

Lemma visit_keeps ast s :
  (forall p s, p ∈ preorder ast -> P s -> P (walk_step visitors s p)) ->
  P s -> P (visit ast visitors s).
Proof. apply node_keeps. Qed.
End Keeps.

Lemma elems_parents loc path k l :
  Forall parents_listed l ->
  forall i p,
    p ∈ preorder_elems preorderNode loc path k i l ->
    exists c step j,
      p ∈ preorderNode c (loc ++ [step]) (Some path) (Some k) j
      /\ (p = mkPath c (loc ++ [step]) (Some path) (Some k) j
          \/ exists pp step',
               p_parentPath p = Some pp
               /\ pp ∈ preorder_elems preorderNode loc path k i l
               /\ p_loc p = p_loc pp ++ [step']).
Proof.
  induction 1 as [|c l Hc _ IH]; intros i p Hin; simpl in Hin.
  - apply elem_of_nil in Hin as [].
  - apply elem_of_app in Hin as [Hin|Hin].
    + exists c, (SItem k i), (Some i). split; [exact Hin|].
      apply Hc in Hin as [->|(pp & step' & Hpp & Hin' & Hloc)]; [left; reflexivity|].
      right. exists pp, step'. split; [exact Hpp|]. split; [|exact Hloc].
      simpl. apply elem_of_app. left. exact Hin'.
    + apply IH in Hin as (c' & step & j & Hin & [->|(pp & step' & Hpp & Hin' & Hloc)]).
      * exists c', step, j. split; [exact Hin|]. left. reflexivity.
      * exists c', step, j. split; [exact Hin|]. right.
        exists pp, step'. split; [exact Hpp|]. split; [|exact Hloc].
        simpl. apply elem_of_app. right. exact Hin'.
Qed.

Lemma child_parents loc path k v :
  parents_listed v ->
  (forall l, v = AArr l -> Forall parents_listed l) ->
  forall p,
    p ∈ preorder_child preorderNode loc path k v ->
    (exists step, p_parentPath p = Some path /\ p_loc p = loc ++ [step])
    \/ exists pp step',
         p_parentPath p = Some pp
         /\ pp ∈ preorder_child preorderNode loc path k v
         /\ p_loc p = p_loc pp ++ [step'].
Proof.
  intros Hv Hl p Hin. destruct v as [| |l|fs|]; simpl in Hin;
    try (apply elem_of_nil in Hin as []).
  - apply (elems_parents loc path k l (Hl l eq_refl)) in Hin
      as (c & step & j & _ & [->|H]); [|right; exact H].
    left. exists step. split; reflexivity.
  - simpl. destruct (isNode (AObj fs)); [|apply elem_of_nil in Hin as []].
    apply Hv in Hin as [->|H]; [|right; exact H].
    left. eexists. split; reflexivity.
Qed.

Lemma fields_parents loc path fs :
  Forall (fun kv => parents_listed (snd kv)
                    /\ (forall l, snd kv = AArr l -> Forall parents_listed l)) fs ->
  forall p,
    p ∈ preorder_fields preorderNode loc path fs ->
    (exists step, p_parentPath p = Some path /\ p_loc p = loc ++ [step])
    \/ exists pp step',
         p_parentPath p = Some pp
         /\ pp ∈ preorder_fields preorderNode loc path fs
         /\ p_loc p = p_loc pp ++ [step'].
Proof.
  induction 1 as [|[k v] fs [Hv Hl] _ IH]; intros p Hin; simpl in Hin.
  - apply elem_of_nil in Hin as [].
  - apply elem_of_app in Hin as [Hin|Hin].
    + apply (child_parents loc path k v Hv Hl) in Hin
        as [H|(pp & step' & Hpp & Hin' & Hloc)]; [left; exact H|].
      right. exists pp, step'. split; [exact Hpp|]. split; [|exact Hloc].
      simpl. apply elem_of_app. left. exact Hin'.
    + apply IH in Hin as [H|(pp & step' & Hpp & Hin' & Hloc)]; [left; exact H|].
      right. exists pp, step'. split; [exact Hpp|]. split; [|exact Hloc].
      simpl. apply elem_of_app. right. exact Hin'.
Qed.

Lemma node_parents n :
  parents_listed n /\ (forall l, n = AArr l -> Forall parents_listed l).
Proof.
  induction n as [| s | items IH | fields IH | target] using AstNode_nested_ind.
  - split; [|discriminate]. intros loc parent key index p Hin.
    apply list_elem_of_singleton in Hin as ->. left. reflexivity.
  - split; [|discriminate]. intros loc parent key index p Hin.
    apply list_elem_of_singleton in Hin as ->. left. reflexivity.
  - split.
    + intros loc parent key index p Hin.
      apply list_elem_of_singleton in Hin as ->. left. reflexivity.
    + intros l [= <-]. eapply Forall_impl; [exact IH|]. intros ? [? _]; assumption.
  - split; [|discriminate]. intros loc parent key index p Hin.
    rewrite AstFacts.preorderNode_unfold in *. cbv zeta in *.
    apply elem_of_cons in Hin as [->|Hin]; [left; reflexivity|]. right.
    apply (fields_parents loc _ fields IH) in Hin
      as [(step & Hpp & Hloc)|(pp & step' & Hpp & Hin' & Hloc)].
    + eexists _, step. split; [exact Hpp|]. split; [apply list_elem_of_here | exact Hloc].
    + exists pp, step'. split; [exact Hpp|]. split; [|exact Hloc].
      apply list_elem_of_further, Hin'.
  - split; [|discriminate]. intros loc parent key index p Hin.
    apply list_elem_of_singleton in Hin as ->. left. reflexivity.
Qed.

(** The parent of a path of the walk of a tree is a path of that walk. *)
Lemma preorder_parent root p pp :
  p ∈ preorder root -> p_parentPath p = Some pp ->
  pp ∈ preorder root /\ exists step, p_loc p = p_loc pp ++ [step].
Proof.
  intros Hin Hpp. apply (proj1 (node_parents root)) in Hin as [->|(q & step & Hq & Hin & Hloc)].
  - discriminate Hpp.
  - rewrite Hq in Hpp. injection Hpp as <-. eauto.
Qed.

(** What [findParent] finds is a path of the walk, above the path it
    started from, that passes the test. *)
Lemma findParent_found root test : forall p pp,
  p ∈ preorder root -> findParent test p = Some pp ->
  pp ∈ preorder root /\ test pp = true
  /\ exists steps, steps <> [] /\ p_loc p = p_loc pp ++ steps.
Proof.
  induction p as [n l k i|n l q k i IH] using Path_parent_ind; intros pp Hin; simpl.
  - discriminate.
  - destruct (preorder_parent root _ q Hin eq_refl) as [Hq [step Hloc]]. simpl in Hloc.
    destruct (test q) eqn:Et.
    + intros [= <-]. split; [exact Hq|]. split; [exact Et|].
      exists [step]. split; [discriminate | exact Hloc].
    + intros Hfind. destruct (IH pp Hq Hfind) as (Hpp & Htest & steps & Hne & Hsteps).
      split; [exact Hpp|]. split; [exact Htest|].
      exists (steps ++ [step]). split; [destruct steps; discriminate|].
      simpl. rewrite Hloc, Hsteps, app_assoc. reflexivity.
Qed.

End WalkFacts.

(** ** Splice points of the output nodes *)

Lemma lookup_assign_ne (k k' : string) (v : AstNode) (fs : list (string * AstNode)) :
  k <> k' -> Ast.lookup k (Ast.assign k' v fs) = Ast.lookup k fs.
Proof.
  intros Hne. unfold Ast.lookup. induction fs as [|[k0 v0] fs IH]; simpl.
  - apply String.eqb_neq in Hne. rewrite String.eqb_sym, Hne. reflexivity.
  - destruct (String.eqb_spec k0 k') as [->|Hne0]; simpl.
    + apply String.eqb_neq in Hne. rewrite String.eqb_sym, Hne. reflexivity.
    + destruct (String.eqb k0 k); [reflexivity | exact IH].
Qed.

Lemma has_field_object (k : string) (n : AstNode) :
  Ast.has_field k n = true -> exists fs, n = AObj fs.
Proof. destruct n; try discriminate. eauto. Qed.

(** What [findVec4Constructor] returns: the place of a node with a [right]
    property that encloses a [vec4(...)] call of the tree. *)
Lemma findVec4Constructor_found (ast : AstNode) (assignNode : Loc) :
  findVec4Constructor ast = Some assignNode ->
  exists call pp steps,
    call ∈ Ast.preorder ast /\ pp ∈ Ast.preorder ast
    /\ Ast.p_loc pp = assignNode
    /\ Ast.has_field "right" (Ast.p_node pp) = true
    /\ Ast.type_is "function_call" (Ast.p_node call) = true
    /\ Ast.is_str "vec4"
         (Ast.field "token"
            (Ast.field "specifier" (Ast.field "identifier" (Ast.p_node call)))) = true
    /\ steps <> [] /\ Ast.p_loc call = assignNode ++ steps.
Proof.
  unfold findVec4Constructor. revert assignNode.
  apply (WalkFacts.visit_keeps _
           (fun found => forall assignNode, found = Some assignNode -> _));
    [|discriminate].
  intros p found Hin IH assignNode. unfold walk_step.
  rewrite (enter_single "function_call" _ p found).
  destruct (Ast.type_is "function_call" (Ast.p_node p)) eqn:Et; [|apply IH].
  destruct (Ast.is_str "vec4" _) eqn:Ev; [|apply IH].
  simpl. destruct (Ast.findParent _ p) as [pp|] eqn:Ef; [|discriminate].
  intros [= <-].
  destruct (WalkFacts.findParent_found ast _ p pp Hin Ef) as (Hpp & Hr & steps & Hne & Hloc).
  exists p, pp, steps. auto 10.
Qed.

(** X3.  The fragment output offers the single input [color], and only
    when [findVec4Constructor] finds its node; the node is an object with a
    [right] property that encloses a [vec4(...)] call.  Filling [color]
    stores the filler expression in that [right] property and leaves the
    other properties of the node as they were. *)
Theorem color_input_overwrites_right {T : Type} (engineContext : EngineContext T)
  (node : Node) (ast : AstNode) (nodeContext : NodeContext) (inputEdges : list Edge) :
  unique_keys ast = true ->
  match findVec4Constructor ast with
  | None =>
      output_fragment_findInputs engineContext node ast nodeContext inputEdges
      = Err NoAssignNode
  | Some assignNode =>
      exists color fs call steps,
        output_fragment_findInputs engineContext node ast nodeContext inputEdges
        = Ok [("color", color)]
        /\ Ast.at_loc assignNode ast = AObj fs
        /\ Ast.has_field "right" (AObj fs) = true
        /\ steps <> []
        /\ Ast.at_loc (assignNode ++ steps) ast = call
        /\ Ast.type_is "function_call" call = true
        /\ Ast.is_str "vec4"
             (Ast.field "token" (Ast.field "specifier" (Ast.field "identifier" call)))
           = true
        /\ forall fillerAst,
           exists ast',
             color fillerAst ast = Ok ast'
             /\ Ast.at_loc assignNode ast' = AObj (Ast.assign "right" fillerAst fs)
             /\ Ast.field "right" (Ast.at_loc assignNode ast') = fillerAst
             /\ forall k, k <> "right" ->
                  Ast.field k (Ast.at_loc assignNode ast') = Ast.field k (Ast.at_loc assignNode ast)
  end.
Proof.
  intros Hu. unfold output_fragment_findInputs.
  destruct (findVec4Constructor ast) as [assignNode|] eqn:Ef; [|reflexivity].
  destruct (findVec4Constructor_found ast assignNode Ef)
    as (call & pp & steps & Hcall & Hpp & Hloc & Hr & Ht & Hv & Hne & Hsteps).
  pose proof (PathFacts.preorder_sits ast pp Hu Hpp) as [Hat _].
  pose proof (PathFacts.preorder_sits ast call Hu Hcall) as [Hat' _].
  destruct (has_field_object _ _ Hr) as [fs Hfs].
  rewrite Hloc, Hfs in Hat. rewrite Hsteps in Hat'.
  exists (color_filler assignNode), fs, (Ast.p_node call), steps.
  split; [reflexivity|]. split; [exact Hat|]. split; [rewrite <- Hfs; exact Hr|].
  split; [exact Hne|]. split; [exact Hat'|]. split; [exact Ht|]. split; [exact Hv|].
  intros fillerAst. eexists. split; [reflexivity|].
  rewrite LocFacts.at_loc_update_at by (rewrite Hat; discriminate).
  rewrite Hat. simpl. split; [reflexivity|].
  split; [apply LocFacts.lookup_assign|].
  intros k Hk. apply lookup_assign_ne, Hk.
Qed.

Lemma color_input_overwrites_right_witness :
  exists color,
    output_fragment_findInputs Sample.fresh_context Sample.outputFrag
      Sample.fragment_tree (mkNodeContext Sample.fragment_tree None None None None) []
    = Ok [("color", color)]
    /\ exists ast',
         color (Ast.identifier "x") Sample.fragment_tree = Ok ast'
         /\ Ast.field "right"
              (Ast.at_loc [SItem "program" 0; SField "body"; SItem "statements" 0;
                           SField "expression"] ast')
            = Ast.identifier "x".
Proof.
  pose proof (color_input_overwrites_right Sample.fresh_context Sample.outputFrag
                Sample.fragment_tree
                (mkNodeContext Sample.fragment_tree None None None None) []) as H.
  change (findVec4Constructor Sample.fragment_tree)
    with (Some [SItem "program" 0; SField "body"; SItem "statements" 0;
                SField "expression"]) in H.
  destruct H as (color & fs & call & steps & Hin & _ & _ & _ & _ & _ & _ & Hfill);
    [reflexivity|].
  exists color. split; [exact Hin|].
  destruct (Hfill (Ast.identifier "x")) as (ast' & Hok & _ & Hright & _).
  exists ast'. split; [exact Hok | exact Hright].
Defined.

(** What [findAssignmentTo] returns: the place of an expression statement
    of the tree whose expression has [assignTo] as left identifier. *)
Lemma findAssignmentTo_found (ast : AstNode) (assignTo : string) (assignNode : Loc) :
  findAssignmentTo ast assignTo = Some assignNode ->
  exists p,
    p ∈ Ast.preorder ast
    /\ Ast.p_loc p = assignNode
    /\ Ast.type_is "expression_statement" (Ast.p_node p) = true
    /\ Ast.is_str assignTo
         (Ast.field "identifier" (Ast.field "left" (Ast.field "expression" (Ast.p_node p))))
       = true.
Proof.
  unfold findAssignmentTo. revert assignNode.
  apply (WalkFacts.visit_keeps _
           (fun found => forall assignNode, found = Some assignNode -> _));
    [|discriminate].
  intros p found Hin IH assignNode. unfold walk_step.
  rewrite (enter_single "expression_statement" _ p found).
  destruct (Ast.type_is "expression_statement" (Ast.p_node p)) eqn:Et; [|apply IH].
  simpl. destruct (Ast.is_str assignTo _) eqn:Ea; [|apply IH].
  intros [= <-]. exists p. auto.
Qed.

Lemma is_str_field_object (s k : string) (n : AstNode) :
  Ast.is_str s (Ast.field k n) = true -> exists fs, n = AObj fs.
Proof. destruct n; try discriminate. eauto. Qed.

(** ** Anchored locations *)

Module AnchorFacts.
Import Ast.

Lemma lookup_alter_field_ne (h : AstNode -> AstNode) (k k' : string) fs :
  k' <> k -> lookup k' (alter_field h k fs) = lookup k' fs.
Proof.
  intros Hne. unfold lookup. induction fs as [|[k0 v0] fs IH]; simpl; [reflexivity|].
  destruct (String.eqb_spec k0 k) as [->|Hk]; simpl.
  - apply String.eqb_neq in Hne. rewrite String.eqb_sym, Hne. reflexivity.
  - destruct (String.eqb k0 k'); [reflexivity | exact IH].
Qed.

(** In the tree it was anchored in, an anchored location resolves to the
    location itself. *)
Lemma resolve_anchor (loc : Loc) : forall n,
  at_loc loc n <> AUndef -> resolve n (anchor n loc) = loc.
Proof.
  induction loc as [|[k|k i] loc IH]; intros n H; simpl in *.
  - reflexivity.
  - rewrite IH by exact H. reflexivity.
  - destruct (field k n) as [| |l| |] eqn:E; try congruence. simpl. rewrite E.
    destruct (l !! i) as [c|] eqn:Ei;
      [|simpl in H; rewrite LocFacts.at_loc_undef in H; congruence].
    apply lookup_lt_Some in Ei as Hlt.
    replace (length l - 1 - (length l - 1 - i)) with i by lia.
    rewrite Ei. simpl in *. rewrite IH by exact H. reflexivity.
Qed.

Lemma at_loc_field_object (loc : Loc) (f : string) (n : AstNode) e :
  at_loc (loc ++ [SField f]) n = AObj e -> at_loc loc n <> AUndef.
Proof.
  rewrite PathFacts.at_loc_app. simpl. intros H Hu. rewrite Hu in H. discriminate.
Qed.

(** Statements put in front of an array do not move what an anchored
    location designates below a property that holds an object. *)
Lemma resolve_unshift (x : AstNode) (f : string) (e : list (string * AstNode)) (l : list AstNode) :
  forall U t B,
    at_loc U t = AArr l ->
    at_loc (B ++ [SField f]) t = AObj e ->
    ~ (B ++ [SField f]) `prefix_of` U ->
    at_loc (resolve (update_at (fun _ => AArr (x :: l)) U t) (anchor t B) ++ [SField f])
      (update_at (fun _ => AArr (x :: l)) U t)
    = AObj e.
Proof.
  set (g := fun _ : AstNode => AArr (x :: l)).
  assert (Hsame : forall n B, at_loc (B ++ [SField f]) n = AObj e ->
                    at_loc (resolve n (anchor n B) ++ [SField f]) n = AObj e).
  { intros n B H. rewrite resolve_anchor; [exact H|]. eapply at_loc_field_object, H. }
  induction U as [|[k|k i] U IH]; intros t B HU HB Hpre.
  - simpl in HU. subst t. exfalso.
    destruct B as [|[kb|kb j] B]; simpl in HB; try discriminate;
      rewrite ?LocFacts.at_loc_undef in HB; discriminate.
  - destruct t as [| | |fs|]; simpl in HU; rewrite ?LocFacts.at_loc_undef in HU;
      try discriminate.
    assert (Hk : lookup k fs <> AUndef).
    { intros E. rewrite E, LocFacts.at_loc_undef in HU. discriminate. }
    destruct B as [|[kb|kb j] B].
    + simpl in *. destruct (String.eqb_spec f k) as [->|Hne].
      * exfalso. apply Hpre. exists U. reflexivity.
      * rewrite lookup_alter_field_ne by exact Hne. exact HB.
    + simpl in HB |- *. destruct (String.eqb_spec kb k) as [->|Hne].
      * rewrite LocFacts.lookup_alter_field by exact Hk.
        apply IH; [exact HU | exact HB|].
        intros Hp. apply Hpre. simpl. apply prefix_cons, Hp.
      * rewrite lookup_alter_field_ne by exact Hne. apply Hsame, HB.
    + simpl in HB |- *. destruct (String.eqb_spec kb k) as [->|Hne].
      * destruct (lookup k fs) as [| |lb| |] eqn:Elb; try discriminate.
        destruct U as [|u U];
          [|destruct u; simpl in HU; rewrite ?LocFacts.at_loc_undef in HU; discriminate].
        simpl in HU. injection HU as ->.
        destruct (l !! j) as [c|] eqn:Ej;
          [|simpl in HB; rewrite LocFacts.at_loc_undef in HB; discriminate].
        apply lookup_lt_Some in Ej as Hlt. simpl in HB.
        cbn [resolve field update_at].
        rewrite LocFacts.lookup_alter_field by (rewrite Elb; discriminate).
        unfold g. cbn [length].
        replace (S (length l) - 1 - (length l - 1 - j)) with (S j) by lia.
        change ((x :: l) !! S j) with (l !! j). rewrite Ej.
        cbn [app at_loc field default].
        rewrite LocFacts.lookup_alter_field by (rewrite Elb; discriminate).
        change ((x :: l) !! S j) with (l !! j). rewrite Ej.
        cbn [default]. apply Hsame, HB.
      * destruct (lookup kb fs) as [| |lb| |] eqn:Elb; try discriminate.
        destruct (lb !! j) as [c|] eqn:Ej;
          [|simpl in HB; rewrite LocFacts.at_loc_undef in HB; discriminate].
        apply lookup_lt_Some in Ej as Hlt. simpl in HB.
        cbn [resolve field default].
        rewrite lookup_alter_field_ne by exact Hne. rewrite Elb.
        replace (length lb - 1 - (length lb - 1 - j)) with j by lia.
        rewrite Ej. cbn [app at_loc field default].
        rewrite lookup_alter_field_ne by exact Hne. rewrite Elb, Ej.
        cbn [default]. apply Hsame, HB.
  - destruct t as [| | |fs|]; simpl in HU; try discriminate.
    destruct (lookup k fs) as [| |lu| |] eqn:Elu; try discriminate.
    destruct (lu !! i) as [cu|] eqn:Ei;
      [|simpl in HU; rewrite LocFacts.at_loc_undef in HU; discriminate].
    simpl in HU.
    destruct B as [|[kb|kb j] B].
    + simpl in *. destruct (String.eqb_spec f k) as [->|Hne].
      * rewrite Elu in HB. discriminate.
      * rewrite lookup_alter_field_ne by exact Hne. exact HB.
    + simpl in HB |- *. destruct (String.eqb_spec kb k) as [->|Hne].
      * exfalso. rewrite Elu in HB.
        destruct B as [|[?|? ?] B]; simpl in HB; try discriminate;
          rewrite ?LocFacts.at_loc_undef in HB; discriminate.
      * rewrite lookup_alter_field_ne by exact Hne. apply Hsame, HB.
    + simpl in HB |- *. destruct (String.eqb_spec kb k) as [->|Hne].
      * rewrite Elu in HB |- *.
        destruct (lu !! j) as [c|] eqn:Ej;
          [|simpl in HB; rewrite LocFacts.at_loc_undef in HB; discriminate].
        apply lookup_lt_Some in Ej as Hlt. simpl in HB.
        cbn [resolve field default].
        rewrite LocFacts.lookup_alter_field by (rewrite Elu; discriminate).
        rewrite Elu, length_alter.
        replace (length lu - 1 - (length lu - 1 - j)) with j by lia.
        cbn [app at_loc field].
        rewrite LocFacts.lookup_alter_field by (rewrite Elu; discriminate).
        rewrite Elu.
        destruct (decide (i = j)) as [->|Hij].
        -- rewrite list_lookup_alter_eq, Ej. cbn [fmap option_fmap option_map default].
           rewrite Ei in Ej. injection Ej as ->.
           apply IH; [exact HU | exact HB|].
           intros Hp. apply Hpre. simpl. apply prefix_cons, Hp.
        -- rewrite list_lookup_alter_ne by exact Hij. rewrite Ej. cbn [default].
           apply Hsame, HB.
      * destruct (lookup kb fs) as [| |lb| |] eqn:Elb; try discriminate.
        destruct (lb !! j) as [c|] eqn:Ej;
          [|simpl in HB; rewrite LocFacts.at_loc_undef in HB; discriminate].
        apply lookup_lt_Some in Ej as Hlt. simpl in HB.
        cbn [resolve field default].
        rewrite lookup_alter_field_ne by exact Hne. rewrite Elb.
        replace (length lb - 1 - (length lb - 1 - j)) with j by lia.
        rewrite Ej. cbn [app at_loc field default].
        rewrite lookup_alter_field_ne by exact Hne. rewrite Elb, Ej.
        cbn [default]. apply Hsame, HB.
Qed.

End AnchorFacts.

(** X4.  The vertex output offers the inputs [mainStmts] and [position],
    in this order, and only when [findAssignmentTo] finds a statement that
    assigns to [gl_Position]; without one it throws.  Filling [position]
    stores the filler expression in the [right] property of the expression
    of that statement; the left side and the other properties of the
    expression stay.  It is the same statement that is filled after
    [mainStmts] has put a statement in front of the body of the first
    function, wherever the assignment is. *)
Theorem position_input_overwrites_right (X : Externals) {T : Type}
  (engineContext : EngineContext T) (node : Node) (ast : AstNode)
  (nodeContext : NodeContext) (inputEdges : list Edge) :
  unique_keys ast = true ->
  match findAssignmentTo ast "gl_Position" with
  | None =>
      output_vertex_findInputs X engineContext node ast nodeContext inputEdges
      = Err NoAssignNode
  | Some assignNode =>
      exists position expression,
        output_vertex_findInputs X engineContext node ast nodeContext inputEdges
        = Ok [("mainStmts", mainStmts_filler X); ("position", position)]
        /\ Ast.type_is "expression_statement" (Ast.at_loc assignNode ast) = true
        /\ Ast.field "expression" (Ast.at_loc assignNode ast) = AObj expression
        /\ Ast.field "identifier" (Ast.lookup "left" expression) = AStr "gl_Position"
        /\ (forall fillerAst,
            exists ast',
              position fillerAst ast = Ok ast'
              /\ Ast.field "expression" (Ast.at_loc assignNode ast')
                 = AObj (Ast.assign "right" fillerAst expression)
              /\ Ast.field "right" (Ast.field "expression" (Ast.at_loc assignNode ast'))
                 = fillerAst
              /\ forall k, k <> "right" ->
                   Ast.field k (Ast.field "expression" (Ast.at_loc assignNode ast'))
                   = Ast.lookup k expression)
        /\ forall statementAst ast1 fillerAst,
             mainStmts_filler X statementAst ast = Ok ast1 ->
             exists moved ast2,
               Ast.field "expression" (Ast.at_loc moved ast1) = AObj expression
               /\ position fillerAst ast1 = Ok ast2
               /\ Ast.field "expression" (Ast.at_loc moved ast2)
                  = AObj (Ast.assign "right" fillerAst expression)
  end.
Proof.
  intros Hu. unfold output_vertex_findInputs.
  destruct (findAssignmentTo ast "gl_Position") as [assignNode|] eqn:Ef; [|reflexivity].
  destruct (findAssignmentTo_found ast _ assignNode Ef) as (p & Hp & Hloc & Ht & Hl).
  pose proof (PathFacts.preorder_sits ast p Hu Hp) as [Hat _]. rewrite Hloc in Hat.
  destruct (is_str_field_object _ _ _ Hl) as [left Hleft].
  destruct (Ast.field "expression" (Ast.p_node p)) as [| | |expression|] eqn:He;
    try discriminate Hleft.
  exists (position_filler (Ast.anchor ast assignNode)), expression.
  split; [reflexivity|]. rewrite Hat. split; [exact Ht|]. split; [exact He|]. split.
  { simpl in Hl. unfold Ast.is_str in Hl.
    destruct (Ast.field "identifier" (Ast.lookup "left" expression)); try discriminate.
    apply String.eqb_eq in Hl. congruence. }
  assert (Hexpr : Ast.at_loc (assignNode ++ [SField "expression"]) ast = AObj expression)
    by (rewrite PathFacts.at_loc_app, Hat; exact He).
  assert (Hfilled : forall fillerAst moved tree,
            Ast.at_loc (moved ++ [SField "expression"]) tree = AObj expression ->
            Ast.field "expression"
              (Ast.at_loc moved
                 (Ast.update_at (Ast.set_field "right" fillerAst)
                    (moved ++ [SField "expression"]) tree))
            = AObj (Ast.assign "right" fillerAst expression)).
  { intros fillerAst moved tree Hm.
    change (Ast.field "expression" (Ast.at_loc moved ?t))
      with (Ast.at_loc [SField "expression"] (Ast.at_loc moved t)).
    rewrite <- PathFacts.at_loc_app.
    rewrite LocFacts.at_loc_update_at by (rewrite Hm; discriminate).
    rewrite Hm. reflexivity. }
  split.
  - intros fillerAst. eexists. split; [reflexivity|].
    rewrite AnchorFacts.resolve_anchor
      by (eapply AnchorFacts.at_loc_field_object; exact Hexpr).
    rewrite (Hfilled fillerAst assignNode ast Hexpr).
    split; [reflexivity|]. simpl.
    split; [apply LocFacts.lookup_assign|].
    intros k Hk. apply lookup_assign_ne, Hk.
  - intros statementAst ast1 fillerAst Hmain.
    unfold mainStmts_filler in Hmain.
    apply bind_Ok_inv in Hmain as (program & Hprogram & Hmain).
    apply from_option_Ok_inv in Hprogram.
    apply bind_Ok_inv in Hmain as (i & Hi & Hmain). apply from_option_Ok_inv in Hi.
    apply bind_Ok_inv in Hmain as (statements & Hstatements & Hmain).
    apply from_option_Ok_inv in Hstatements.
    apply bind_Ok_inv in Hmain as (stmt & _ & Hmain). injection Hmain as <-.
    set (U := [SItem "program" i; SField "body"; SField "statements"]).
    assert (HU : Ast.at_loc U ast = AArr statements).
    { unfold U. simpl.
      destruct (Ast.field "program" ast) as [| |l| |]; try discriminate Hprogram.
      injection Hprogram as ->.
      destruct (Ast.field "statements" (Ast.field "body" (default AUndef (program !! i))))
        as [| |l| |]; try discriminate Hstatements.
      injection Hstatements as ->. reflexivity. }
    assert (Hpre : ~ (assignNode ++ [SField "expression"]) `prefix_of` U).
    { intros [rest Hrest].
      assert (Hin : SField "expression" ∈ U).
      { rewrite Hrest. apply elem_of_app. left. apply elem_of_app. right.
        apply list_elem_of_here. }
      unfold U in Hin.
      repeat (apply elem_of_cons in Hin as [Hin|Hin]; [discriminate Hin|]).
      apply elem_of_nil in Hin as []. }
    pose proof (AnchorFacts.resolve_unshift stmt "expression" expression statements
                  U ast assignNode HU Hexpr Hpre) as Hmoved.
    eexists (Ast.resolve _ (Ast.anchor ast assignNode)), _.
    split; [|split; [reflexivity|]].
    + rewrite PathFacts.at_loc_app in Hmoved. exact Hmoved.
    + apply Hfilled, Hmoved.
Qed.

Lemma position_input_overwrites_right_witness :
  exists position ast',
    output_vertex_findInputs (Sample.externals Sample.table) Sample.fresh_context
      Sample.outputVert Sample.vertex_tree
      (mkNodeContext Sample.vertex_tree None None None None) []
    = Ok [("mainStmts", mainStmts_filler (Sample.externals Sample.table));
          ("position", position)]
    /\ position (Ast.identifier "x") Sample.vertex_tree = Ok ast'
    /\ Ast.field "right"
         (Ast.field "expression"
            (Ast.at_loc [SItem "program" 0; SField "body"; SItem "statements" 0] ast'))
       = Ast.identifier "x".
Proof.
  pose proof (position_input_overwrites_right (Sample.externals Sample.table)
                Sample.fresh_context Sample.outputVert Sample.vertex_tree
                (mkNodeContext Sample.vertex_tree None None None None) []) as H.
  change (findAssignmentTo Sample.vertex_tree "gl_Position")
    with (Some [SItem "program" 0; SField "body"; SItem "statements" 0]) in H.
  destruct H as (position & expression & Hin & _ & _ & _ & Hfill & _); [reflexivity|].
  destruct (Hfill (Ast.identifier "x")) as (ast' & Hok & _ & Hright & _).
  exists position, ast'. split; [exact Hin|]. split; [exact Hok | exact Hright].
Defined.

(** On the tree of the sample vertex output: a statement put in front by
    [mainStmts], then [position] filled, and the other way round. *)
Example position_after_mainStmts :
  match output_vertex_findInputs (Sample.externals Sample.table) Sample.fresh_context
          Sample.outputVert Sample.vertex_tree
          (mkNodeContext Sample.vertex_tree None None None None) [] with
  | Ok [(_, mainStmts); (_, position)] =>
      (Sample.generate
         <$> match mainStmts (Sample.call "main_Varying" []) Sample.vertex_tree with
             | Ok ast1 =>
                 match position (Ast.identifier "p") ast1 with
                 | Ok ast2 => Some ast2
                 | Err _ => None
                 end
             | Err _ => None
             end,
       Sample.generate
         <$> match position (Ast.identifier "p") Sample.vertex_tree with
             | Ok ast1 =>
                 match mainStmts (Sample.call "main_Varying" []) ast1 with
                 | Ok ast2 => Some ast2
                 | Err _ => None
                 end
             | Err _ => None
             end)
  | _ => (None, None)
  end
  = (Some "voidmain(){main_Varying();gl_Position=p;}",
     Some "voidmain(){main_Varying();gl_Position=p;}").
Proof. vm_compute. reflexivity. Qed.

Lemma find_index_first {A} (p : A -> bool) (xs : list A) (i : nat) :
  find_index p xs = Some i ->
  (exists x, xs !! i = Some x /\ p x = true)
  /\ forall j x, j < i -> xs !! j = Some x -> p x = false.
Proof.
  revert i. induction xs as [|x xs IH]; intros i; simpl; [discriminate|].
  destruct (p x) eqn:Ep.
  - intros [= <-]. split; [eauto|]. intros j y Hj. lia.
  - destruct (find_index p xs) as [i'|]; [|discriminate]. intros [= <-].
    destruct (IH i' eq_refl) as [Hx Hbefore]. split; [exact Hx|].
    intros [|j] y Hj; simpl; [congruence|]. apply Hbefore. lia.
Qed.

Lemma find_index_none {A} (p : A -> bool) (xs : list A) :
  find_index p xs = None -> forall x, x ∈ xs -> p x = false.
Proof.
  induction xs as [|x xs IH]; simpl; intros H y Hy; [apply elem_of_nil in Hy as []|].
  destruct (p x) eqn:Ep; [discriminate|].
  destruct (find_index p xs); [discriminate|].
  apply elem_of_cons in Hy as [->|Hy]; [exact Ep | apply IH; auto].
Qed.

(** X5.  Filling [mainStmts] puts the statement made of the text of the
    filler expression before the statements of the first [function]
    statement of the program, and leaves the other top-level statements as
    they were; a program without a function statement makes it throw. *)
Theorem mainStmts_input_prepends (X : Externals) (fillerAst ast : AstNode)
  (program : list AstNode) :
  Ast.field "program" ast = AArr program ->
  match find_index (Ast.type_is "function") program with
  | None =>
      (forall stmt, stmt ∈ program -> Ast.type_is "function" stmt = false)
      /\ mainStmts_filler X fillerAst ast = Err TypeError
  | Some i =>
      exists fn,
        program !! i = Some fn
        /\ Ast.type_is "function" fn = true
        /\ (forall j stmt, j < i -> program !! j = Some stmt ->
                           Ast.type_is "function" stmt = false)
        /\ forall statements stmt,
             Ast.field "statements" (Ast.field "body" fn) = AArr statements ->
             makeFnStatement X (generate X fillerAst) = Ok stmt ->
             exists ast',
               mainStmts_filler X fillerAst ast = Ok ast'
               /\ Ast.at_loc [SItem "program" i; SField "body"; SField "statements"] ast'
                  = AArr (stmt :: statements)
               /\ forall j, j <> i ->
                    Ast.at_loc [SItem "program" j] ast' = Ast.at_loc [SItem "program" j] ast
  end.
Proof.
  intros Hp. destruct (find_index (Ast.type_is "function") program) as [i|] eqn:Ei.
  - destruct (find_index_first _ _ _ Ei) as [(fn & Hfn & Ht) Hbefore].
    exists fn. split; [exact Hfn|]. split; [exact Ht|]. split; [exact Hbefore|].
    intros statements stmt Hs Hstmt.
    assert (mainStmts_filler X fillerAst ast
            = Ok (Ast.update_at (fun _ => AArr (stmt :: statements))
                    [SItem "program" i; SField "body"; SField "statements"] ast)) as ->.
    { unfold mainStmts_filler.
      rewrite Hp. simpl. rewrite Ei. simpl. rewrite Hfn. simpl. rewrite Hs. simpl.
      rewrite Hstmt. reflexivity. }
    eexists. split; [reflexivity|]. split.
    + rewrite LocFacts.at_loc_update_at; [reflexivity|].
      simpl. rewrite Hp, Hfn. simpl. rewrite Hs. discriminate.
    + intros j Hj. destruct ast as [| | |fs|]; try discriminate Hp.
      simpl in Hp. simpl. rewrite LocFacts.lookup_alter_field by (rewrite Hp; discriminate).
      rewrite Hp. rewrite list_lookup_alter_ne by congruence. reflexivity.
  - split; [apply find_index_none, Ei|].
    unfold mainStmts_filler. rewrite Hp. simpl. rewrite Ei. reflexivity.
Qed.

Lemma mainStmts_input_prepends_witness :
  exists ast',
    mainStmts_filler (Sample.externals Sample.table) (Ast.identifier "x")
      Sample.helper_tree = Ok ast'
    /\ Ast.at_loc [SItem "program" 1] ast' = Sample.vertex_main.
Proof.
  pose proof (mainStmts_input_prepends (Sample.externals Sample.table)
                (Ast.identifier "x") Sample.helper_tree _ eq_refl)
    as H.
  change (find_index _ _) with (Some 0) in H.
  destruct H as (fn & Hfn & _ & _ & H). injection Hfn as <-.
  destruct (H _ _ eq_refl eq_refl) as (ast' & Hok & _ & Hrest).
  exists ast'. split; [exact Hok|].
  etransitivity; [apply (Hrest 1); discriminate | reflexivity].
Defined.

(** ** Fillers of binary nodes *)

Lemma fold_last_match {A} (test : A -> bool) (xs : list A) : forall init,
  fold_left (fun found x => if test x then Some x else found) xs init
  = match last (List.filter test xs) with
    | Some x => Some x
    | None => init
    end.
Proof.
  induction xs as [|x xs IH] using rev_ind; intros init; [reflexivity|].
  rewrite fold_left_app, List.filter_app. simpl.
  destruct (test x); simpl.
  - rewrite last_snoc. reflexivity.
  - rewrite app_nil_r. apply IH.
Qed.

(** [find_letter] finds the last identifier of the walk that bears the
    letter. *)
Lemma find_letter_last (letter : string) (ast : AstNode) :
  find_letter letter ast = last (List.filter (names_letter letter) (Ast.preorder ast)).
Proof.
  unfold find_letter.
  rewrite AstFacts.visit_preorder by (apply never_skips_single; reflexivity).
  rewrite (fold_left_pointwise _
             (fun found p => if names_letter letter p then Some p else found)).
  - rewrite fold_last_match. destruct (last _); reflexivity.
  - intros found p. unfold walk_step, names_letter.
    rewrite (enter_single "identifier" _ p found).
    destruct (Ast.type_is "identifier" (Ast.p_node p)); simpl; [|reflexivity].
    destruct (Ast.is_str letter _); reflexivity.
Qed.

Lemma elem_of_names paths : forall names x,
  x ∈ fold_left names_step paths names ->
  x ∈ names
  \/ exists p, p ∈ paths /\ Ast.type_is "identifier" (Ast.p_node p) = true
               /\ Ast.field "identifier" (Ast.p_node p) = x.
Proof.
  induction paths as [|p paths IH]; intros names x; simpl; [auto|].
  intros Hx. apply IH in Hx as [Hx|(q & Hq & Ht & Hf)].
  - unfold names_step in Hx.
    destruct (Ast.type_is "identifier" (Ast.p_node p)) eqn:Et; [|auto].
    apply elem_of_app in Hx as [Hx|Hx]; [auto|].
    apply list_elem_of_singleton in Hx as ->. right. exists p.
    split; [apply list_elem_of_here | auto].
  - right. exists q. split; [apply list_elem_of_further, Hq | auto].
Qed.

Lemma elem_of_names_of_path paths : forall names p,
  p ∈ paths -> Ast.type_is "identifier" (Ast.p_node p) = true ->
  Ast.field "identifier" (Ast.p_node p) ∈ fold_left names_step paths names.
Proof.
  induction paths as [|q paths IH]; intros names p Hp Ht; simpl.
  - apply elem_of_nil in Hp as [].
  - apply elem_of_cons in Hp as [<-|Hp]; [|apply IH; assumption].
    apply names_step_mono. unfold names_step. rewrite Ht.
    apply elem_of_app. right. apply list_elem_of_here.
Qed.

Lemma last_filter_is_Some {A} (test : A -> bool) (xs : list A) (x : A) :
  x ∈ xs -> test x = true -> is_Some (last (List.filter test xs)).
Proof.
  intros Hx Ht. apply last_is_Some. intros Hnil.
  assert (Hin : In x (List.filter test xs)) by (apply filter_In; split; [apply list_elem_of_In, Hx | exact Ht]).
  rewrite Hnil in Hin. destruct Hin.
Qed.

(** X6.  The filler of a slot of a binary node succeeds exactly when the
    tree holds an identifier named by the slot's letter; otherwise it throws
    the error that names the letter. *)
Theorem binary_filler_succeeds_iff (letter : string) (fillerAst ast : AstNode) :
  (AStr letter ∈ Ast.identifier_names ast <->
     exists ast', binary_filler letter fillerAst ast = Ok ast')
  /\ (AStr letter ∉ Ast.identifier_names ast <->
        binary_filler letter fillerAst ast = Err (MissingFillerTarget letter)).
Proof.
  assert (Hin : AStr letter ∈ Ast.identifier_names ast ->
                exists ast', binary_filler letter fillerAst ast = Ok ast').
  { rewrite identifier_names_preorder. intros Hx.
    apply elem_of_names in Hx as [Hx|(p & Hp & Ht & Hf)]; [apply elem_of_nil in Hx as []|].
    destruct (last_filter_is_Some (names_letter letter) (Ast.preorder ast) p Hp)
      as [found Hfound].
    { unfold names_letter. rewrite Ht, Hf. simpl. apply String.eqb_refl. }
    unfold binary_filler. rewrite find_letter_last, Hfound.
    destruct (Ast.p_parent found), (Ast.p_key found); eauto.
    destruct (Js.truthy_string (Some s)); eauto. }
  assert (Hback : binary_filler letter fillerAst ast <> Err (MissingFillerTarget letter) ->
                  AStr letter ∈ Ast.identifier_names ast).
  { intros Hok. unfold binary_filler in Hok. rewrite find_letter_last in Hok.
    destruct (last _) as [found|] eqn:El; [|congruence].
    assert (Hf : In found (List.filter (names_letter letter) (Ast.preorder ast))).
    { apply list_elem_of_In. apply last_Some in El as [l ->].
      apply elem_of_app. right. apply list_elem_of_here. }
    apply filter_In in Hf as [Hf Hn]. apply list_elem_of_In in Hf.
    unfold names_letter in Hn. apply andb_prop in Hn as [Ht Hn].
    rewrite identifier_names_preorder.
    replace (AStr letter) with (Ast.field "identifier" (Ast.p_node found)).
    - apply elem_of_names_of_path; assumption.
    - unfold Ast.is_str in Hn.
      destruct (Ast.field "identifier" (Ast.p_node found)); try discriminate.
      apply String.eqb_eq in Hn. congruence. }
  split; split.
  - exact Hin.
  - intros [ast' Hok]. apply Hback. congruence.
  - apply binary_filler_absent.
  - intros Herr Hx. destruct (Hin Hx) as [ast' Hok]. congruence.
Qed.

(** X7.  The filler of a slot fills at the last identifier of the walk
    that bears the letter: it assigns the filler expression to the property
    of the identifier's parent that holds the identifier (the whole array,
    when the identifier sits in one), and the filler expression becomes the
    tree itself when the identifier is the root. *)
Theorem binary_filler_fills_last_match (letter : string) (fillerAst ast : AstNode) :
  unique_keys ast = true ->
  match last (List.filter (names_letter letter) (Ast.preorder ast)) with
  | None => binary_filler letter fillerAst ast = Err (MissingFillerTarget letter)
  | Some found =>
      Ast.at_loc (Ast.p_loc found) ast = Ast.p_node found
      /\ Ast.field "identifier" (Ast.p_node found) = AStr letter
      /\ match Ast.p_parent found, Ast.p_key found with
         | Some parent, Some key =>
             if Js.truthy_string (Some key)
             then exists fs ast',
                 Ast.at_loc parent ast = AObj fs
                 /\ match Ast.p_index found with
                    | None => Ast.lookup key fs = Ast.p_node found
                    | Some i => exists l, Ast.lookup key fs = AArr l
                                          /\ l !! i = Some (Ast.p_node found)
                    end
                 /\ binary_filler letter fillerAst ast = Ok ast'
                 /\ Ast.at_loc parent ast' = AObj (Ast.assign key fillerAst fs)
             else binary_filler letter fillerAst ast = Ok fillerAst
         | _, _ => binary_filler letter fillerAst ast = Ok fillerAst
         end
  end.
Proof.
  intros Hu. unfold binary_filler. rewrite find_letter_last.
  destruct (last _) as [found|] eqn:El; [|reflexivity].
  assert (Hin : In found (List.filter (names_letter letter) (Ast.preorder ast))).
  { apply list_elem_of_In. apply last_Some in El as [l ->].
    apply elem_of_app. right. apply list_elem_of_here. }
  apply filter_In in Hin as [Hin Hn]. apply list_elem_of_In in Hin.
  destruct (PathFacts.preorder_sits ast found Hu Hin) as [Hat Hparent].
  split; [exact Hat|]. split.
  { unfold names_letter in Hn. apply andb_prop in Hn as [_ Hn]. unfold Ast.is_str in Hn.
    destruct (Ast.field "identifier" (Ast.p_node found)); try discriminate.
    apply String.eqb_eq in Hn. congruence. }
  unfold Ast.p_parent.
  destruct (Ast.p_parentPath found) as [pp|]; simpl.
  - destruct Hparent as (Hpp & fs & key & Hfs & Hkey & Hidx). rewrite Hkey.
    destruct key as [|c key]; [reflexivity|]. cbn [Js.truthy_string].
    exists fs. eexists. rewrite Hpp, Hfs. split; [reflexivity|]. split; [exact Hidx|].
    split; [reflexivity|].
    rewrite LocFacts.at_loc_update_at by (rewrite Hpp, Hfs; discriminate).
    rewrite Hpp, Hfs. reflexivity.
  - reflexivity.
Qed.

Lemma binary_filler_fills_last_match_witness :
  exists ast',
    binary_filler "a" (Ast.identifier "x")
      (AObj [("type", AStr "program"); ("program", AArr [Ast.identifier "a"]);
             ("scopes", AArr [])]) = Ok ast'
    /\ Ast.at_loc [] ast'
       = AObj [("type", AStr "program"); ("program", Ast.identifier "x");
               ("scopes", AArr [])].
Proof.
  pose proof (binary_filler_fills_last_match "a" (Ast.identifier "x")
                (AObj [("type", AStr "program"); ("program", AArr [Ast.identifier "a"]);
                       ("scopes", AArr [])]) eq_refl) as H.
  cbn in H. destruct H as (_ & _ & fs & ast' & [= <-] & _ & Hok & Hat).
  exists ast'. split; [exact Hok | exact Hat].
Defined.

(** ** Input maps *)

Lemma insert_new_append {V} (k : string) (v : V) (o : JsObject.t V) :
  JsObject.array_index k = None -> JsObject.insert_new k v o = o ++ [(k, v)].
Proof.
  intros Hk. induction o as [|[k' v'] o IH]; simpl; [reflexivity|].
  unfold JsObject.goes_before. rewrite Hk, IH. reflexivity.
Qed.

(** A key that is new and is not an array index goes last. *)
Lemma set_new_append {V} (k : string) (v : V) (o : JsObject.t V) :
  JsObject.array_index k = None -> k ∉ JsObject.keys o ->
  JsObject.set k v o = o ++ [(k, v)].
Proof.
  intros Hk Hnew. unfold JsObject.set.
  destruct (JsObject.has k o) eqn:Hh; [|apply insert_new_append, Hk].
  exfalso. apply Hnew. unfold JsObject.has in Hh.
  destruct (JsObject.get k o) as [v0|] eqn:Hg; [|discriminate].
  apply JsObjectFacts.get_elem_of in Hg. unfold JsObject.keys.
  apply list_elem_of_fmap. exists (k, v0). auto.
Qed.

Lemma set_again_keys {V} (k : string) (v : V) (o : JsObject.t V) :
  k ∈ JsObject.keys o -> JsObject.keys (JsObject.set k v o) = JsObject.keys o.
Proof.
  intros Hin. unfold JsObject.set.
  destruct (JsObject.has k o) eqn:Hh; [apply JsObjectFacts.keys_replace|].
  exfalso. exact (JsObjectFacts.not_has_keys k o Hh Hin).
Qed.

Lemma charAt_past_the_end (s : string) : forall i,
  String.length s <= i -> Js.charAt s i = "".
Proof.
  unfold Js.charAt. induction s as [|c s IH]; intros i Hi; [destruct i; reflexivity|].
  destruct i as [|i]; simpl in *; [lia|]. apply IH. lia.
Qed.

Lemma slots_past_the_alphabet (n : nat) :
  26 <= n ->
  map (Js.charAt alphabet) (seq 0 n) = alphabet_letters ++ replicate (n - 26) "".
Proof.
  intros Hn. replace n with (26 + (n - 26)) at 1 by lia.
  rewrite seq_app, map_app. f_equal.
  generalize (n - 26) as m. intros m. change (0 + 26) with 26.
  assert (H : forall start, 26 <= start ->
             map (Js.charAt alphabet) (seq start m) = replicate m "").
  { induction m as [|m IH]; intros start Hs; simpl; [reflexivity|].
    rewrite charAt_past_the_end by exact Hs. rewrite IH by lia. reflexivity. }
  apply H. lia.
Qed.

Lemma fold_set_same_key {V} (k : string) (g : string -> V) (m : nat) :
  forall o : JsObject.t V,
  k ∈ JsObject.keys o ->
  JsObject.keys (fold_left (fun inputs letter => JsObject.set letter (g letter) inputs)
                   (replicate m k) o)
  = JsObject.keys o.
Proof.
  induction m as [|m IH]; intros o Hin; simpl; [reflexivity|].
  rewrite IH; [apply set_again_keys, Hin|].
  rewrite set_again_keys; assumption.
Qed.

(** X8.  The input map of a binary node never has more than 27 entries:
    past the alphabet every further slot has the empty name, so from 26 input
    edges on the map holds the 26 letters and one entry named by the empty
    string. *)
Theorem binary_findInputs_at_most_27 {T : Type} (engineContext : EngineContext T)
  (node : Node) (ast : AstNode) (nodeContext : NodeContext) (inputEdges : list Edge) :
  exists inputs,
    binary_findInputs engineContext node ast nodeContext inputEdges = Ok inputs
    /\ length inputs = Nat.min (Nat.max (length inputEdges + 1) 2) 27
    /\ (26 <= length inputEdges ->
        JsObject.keys inputs = alphabet_letters ++ [""]).
Proof.
  eexists. split; [reflexivity|]. unfold binary_slots.
  set (n := Nat.max (length inputEdges + 1) 2).
  destruct (le_lt_dec n 26) as [Hn|Hn].
  - split; [|lia]. rewrite first_letters by exact Hn.
    destruct (binary_inputs_keys n) as [Hkeys _]; [lia|]. cbv zeta in Hkeys.
    match goal with |- length ?i = _ =>
      rewrite <- (length_map fst i); change (map fst i) with (JsObject.keys i) end.
    rewrite Hkeys, length_take. change (length alphabet_letters) with 26. lia.
  - assert (Hkeys : JsObject.keys
                      (fold_left
                         (fun inputs letter => JsObject.set letter (binary_filler letter) inputs)
                         (map (Js.charAt alphabet) (seq 0 n)) JsObject.empty)
                    = alphabet_letters ++ [""]).
    { rewrite slots_past_the_alphabet by lia. rewrite fold_left_app.
      destruct (binary_inputs_keys 26) as [H26 _]; [lia|]. cbv zeta in H26.
      change (take 26 alphabet_letters) with alphabet_letters in H26.
      revert H26.
      generalize (fold_left
                    (fun inputs letter => JsObject.set letter (binary_filler letter) inputs)
                    alphabet_letters JsObject.empty).
      intros o H26.
      destruct (n - 26) as [|m] eqn:Em; [lia|]. cbn [replicate fold_left].
      assert (Hfirst : JsObject.set "" (binary_filler "") o = o ++ [("", binary_filler "")]).
      { apply set_new_append; [reflexivity|]. rewrite H26.
        apply (bool_decide_unpack _). vm_compute. exact I. }
      rewrite Hfirst, fold_set_same_key.
      - unfold JsObject.keys in *. rewrite map_app, H26. reflexivity.
      - unfold JsObject.keys. rewrite map_app. apply elem_of_app. right.
        apply list_elem_of_here. }
    split; [|intros _; exact Hkeys].
    match goal with |- length ?i = _ =>
      rewrite <- (length_map fst i); change (map fst i) with (JsObject.keys i) end.
    rewrite Hkeys, length_app. change (length alphabet_letters) with 26.
    change (length [""]) with 1. lia.
Qed.

Lemma fold_collect {A B} (test : A -> bool) (f : A -> B) (xs : list A) : forall acc,
  fold_left (fun acc x => if test x then acc ++ [f x] else acc) xs acc
  = acc ++ map f (List.filter test xs).
Proof.
  induction xs as [|x xs IH]; intros acc; simpl; [rewrite app_nil_r; reflexivity|].
  rewrite IH. destruct (test x); [|reflexivity].
  simpl. rewrite <- app_assoc. reflexivity.
Qed.

(** The calls that the fragment parser of shader nodes collects: the
    [texture2D] calls of the walk that sit in a property, each with that
    property's name. *)
Lemma fragment_texture2Dcalls_sites (ast : AstNode) :
  fragment_texture2Dcalls ast
  = map (fun p => (Ast.p_loc p, default "" (Ast.p_key p))) (texture2D_sites ast).
Proof.
  unfold fragment_texture2Dcalls, texture2D_sites.
  rewrite AstFacts.visit_preorder by (apply never_skips_single; reflexivity).
  rewrite (fold_left_pointwise _
             (fun acc p => if is_texture2D_site p
                           then acc ++ [(Ast.p_loc p, default "" (Ast.p_key p))]
                           else acc)).
  - apply (fold_collect is_texture2D_site _ _ []).
  - intros acc p. unfold walk_step, is_texture2D_site.
    rewrite (enter_single "function_call" _ p acc).
    destruct (Ast.type_is "function_call" (Ast.p_node p)); reflexivity.
Qed.

Lemma texture2d_key_is_no_index (i : nat) :
  JsObject.array_index ("texture2d_" +:+ Js.of_nat i) = None.
Proof. reflexivity. Qed.

Lemma texture2d_key_inj (i j : nat) :
  "texture2d_" +:+ Js.of_nat i = "texture2d_" +:+ Js.of_nat j -> i = j.
Proof. intros H. apply String.app_inj in H. apply pretty_nat_inj in H. exact H. Qed.

(** The input map built over the calls: one entry per call, named by its
    index, in the order of the calls. *)
Lemma fold_texture2d_inputs {C V} (filler : C -> V) (calls : list C) :
  fold_left
    (fun inputs '(index, call) =>
       JsObject.set ("texture2d_" +:+ Js.of_nat index) (filler call) inputs)
    (imap (fun index call => (index, call)) calls) JsObject.empty
  = imap (fun index call => ("texture2d_" +:+ Js.of_nat index, filler call)) calls.
Proof.
  induction calls as [|call calls IH] using rev_ind; [reflexivity|].
  rewrite !imap_app, fold_left_app, IH. simpl. rewrite Nat.add_0_r.
  apply set_new_append; [apply texture2d_key_is_no_index|].
  unfold JsObject.keys. intros Hin.
  apply list_elem_of_fmap in Hin as ([k v] & Hk & Hin). simpl in Hk. subst k.
  apply elem_of_lookup_imap_1 in Hin as (j & c & Hj & Hc).
  apply (f_equal fst) in Hj. cbn [fst] in Hj. apply texture2d_key_inj in Hj. apply lookup_lt_Some in Hc. lia.
Qed.



(** ** Cycles *)

Lemma feeds_on_the_way (graph : Graph) (edges : list Edge) (node m : Node) :
  reaches_back graph edges node m -> tc (feeds graph edges) m m ->
  exists y, feeds graph edges node y /\ reaches_back graph edges y m.
Proof.
  intros Hreach Hcycle. apply rtc_inv in Hreach as [<-|(y & Hy & Hreach)]; [|eauto].
  inversion Hcycle as [? ? Hstep|? y ? Hstep Hrest]; subst.
  - exists node. split; [exact Hstep | apply rtc_refl].
  - exists y. split; [exact Hstep | apply tc_rtc, Hrest].
Qed.

(** From a node above a cycle the collection fails whatever the depth of
    the stack. *)
Lemma collectConnectedNodes_cycle (graph : Graph) (edges : list Edge) (m : Node) :
  tc (feeds graph edges) m m ->
  forall depth node ids,
    reaches_back graph edges node m ->
    failed (collectConnectedNodes depth graph edges node ids).
Proof.
  intros Hcycle. induction depth as [|depth IH]; intros node ids Hreach;
    [eexists; reflexivity|].
  destruct (feeds_on_the_way graph edges node m Hreach Hcycle)
    as (y & (e & He & Hto & Hy) & Hym).
  rewrite collectConnectedNodes_unfold.
  rewrite bool_decide_true by (apply (input_edges_nonempty edges node e); assumption).
  assert (Hloop : failed (for_each (collect_edge graph edges depth ids)
                            (input_edges edges node) ids)).
  { apply (for_each_failed _ _ e).
    - apply elem_of_input_edges; auto.
    - intros s. unfold collect_edge. rewrite Hy. simpl.
      destruct (IH y ids Hym) as [err ->]. eexists; reflexivity. }
  destruct Hloop as [err ->]. eexists; reflexivity.
Qed.

(** A dangling-edge error of the collection names the source of an edge
    of the list. *)
Lemma collectConnectedNodes_dangling_edge (graph : Graph) (edges : list Edge) depth :
  forall node ids from,
    collectConnectedNodes depth graph edges node ids = Err (DanglingEdge from) ->
    exists e, e ∈ edges /\ e_from e = from /\ find_node graph from = None.
Proof.
  induction depth as [|depth IH]; intros node ids from; [discriminate|].
  rewrite collectConnectedNodes_unfold. case_bool_decide; [|discriminate].
  destruct (for_each _ _ _) as [c|e'] eqn:Eloop; simpl; [discriminate|].
  intros [= ->].
  refine (for_each_error
            (fun err => forall from, err = DanglingEdge from ->
                        exists e, e ∈ edges /\ e_from e = from /\ find_node graph from = None)
            _ _ _ _ _ Eloop from eq_refl).
  intros s x err Hx. apply elem_of_input_edges in Hx as [Hx _]. unfold collect_edge.
  destruct (find_node graph (e_from x)) as [y|] eqn:Hy; simpl.
  - destruct (collectConnectedNodes depth graph edges y ids) as [child|e0] eqn:Ec; simpl;
      [discriminate|].
    intros [= <-] from' ->. eapply IH, Ec.
  - intros [= <-] from' [= <-]. eauto.
Qed.

(** X10.  [collectConnectedNodes] does not return on a cycle: from a node
    that reaches a node lying on a cycle of edges whose sources resolve, it
    fails at every depth of the stack, and when every edge source resolves
    the failure is the exhausted stack. *)
Theorem collectConnectedNodes_never_returns_on_a_cycle (graph : Graph)
  (edges : list Edge) (node m : Node) (depth : nat) (ids : NodeIds) :
  reaches_back graph edges node m ->
  tc (feeds graph edges) m m ->
  exists err,
    collectConnectedNodes depth graph edges node ids = Err err
    /\ (err = StackExhausted
        \/ exists e, e ∈ edges /\ err = DanglingEdge (e_from e)
                     /\ find_node graph (e_from e) = None)
    /\ ((forall e, e ∈ edges -> is_Some (find_node graph (e_from e))) ->
        err = StackExhausted).
Proof.
  intros Hreach Hcycle.
  destruct (collectConnectedNodes_cycle graph edges m Hcycle depth node ids Hreach)
    as [err Herr].
  exists err. split; [exact Herr|].
  assert (Hkind : err = StackExhausted
                  \/ exists e, e ∈ edges /\ err = DanglingEdge (e_from e)
                               /\ find_node graph (e_from e) = None).
  { destruct (collectConnectedNodes_errors graph edges depth node ids err Herr)
      as [->|(from & -> & _)]; [auto|].
    destruct (collectConnectedNodes_dangling_edge graph edges depth node ids from Herr)
      as (e & He & <- & Hnone).
    right. eauto. }
  split; [exact Hkind|].
  intros Hsome. destruct Hkind as [->|(e & He & _ & Hnone)]; [reflexivity|].
  destruct (Hsome e He) as [y Hy]. congruence.
Qed.

Lemma cyclic_graph_cycle :
  tc (feeds cyclic_graph (g_edges cyclic_graph))
    (Sample.plain_node "3" add fragment) (Sample.plain_node "3" add fragment).
Proof.
  apply (tc_l _ _ (Sample.plain_node "4" add fragment)); [|apply tc_once].
  - exists (Sample.edge "4" "3" "a" fragment).
    split; [|split; reflexivity]. apply list_elem_of_further, list_elem_of_here.
  - exists (Sample.edge "3" "4" "a" fragment).
    split; [|split; reflexivity]. do 2 apply list_elem_of_further. apply list_elem_of_here.
Qed.

Lemma cyclic_graph_reached :
  reaches_back cyclic_graph (g_edges cyclic_graph) Sample.outputFrag
    (Sample.plain_node "3" add fragment).
Proof.
  apply rtc_once. exists (Sample.edge "3" "1" "color" fragment).
  split; [apply list_elem_of_here | split; reflexivity].
Qed.

Lemma collectConnectedNodes_never_returns_on_a_cycle_witness :
  collectConnectedNodes 40 cyclic_graph (g_edges cyclic_graph) Sample.outputFrag
    JsObject.empty = Err StackExhausted.
Proof.
  destruct (collectConnectedNodes_never_returns_on_a_cycle cyclic_graph
              (g_edges cyclic_graph) Sample.outputFrag (Sample.plain_node "3" add fragment)
              40 JsObject.empty cyclic_graph_reached cyclic_graph_cycle)
    as (err & Herr & _ & Hstack).
  rewrite Herr. f_equal. apply Hstack.
  intros e He. simpl in He.
  repeat (apply elem_of_cons in He as [->|He]); try (vm_compute; eauto).
  apply elem_of_nil in He as [].
Defined.

(** X11.  [compileGraph] returns no program for a graph with a cycle below
    one of its outputs, whatever the depth of the stack; when every edge
    source resolves it ends with the exhausted stack. *)
Theorem compileGraph_fails_on_a_cycle (X : Externals) (T : Type) (depth : nat)
  (engineContext : EngineContext T) (engine : Engine T) (graph : Graph)
  (outputFrag outputVert m : Node) :
  find_output graph fragment = Some outputFrag ->
  find_output graph vertex = Some outputVert ->
  reaches_back graph (g_edges graph) outputVert m
  \/ reaches_back graph (g_edges graph) outputFrag m ->
  tc (feeds graph (g_edges graph)) m m ->
  exists err,
    compileGraph X depth engineContext engine graph = Err err
    /\ ((forall e, e ∈ g_edges graph -> is_Some (find_node graph (e_from e))) ->
        err = StackExhausted).
Proof.
  intros Hfrag Hvert Hreach Hcycle.
  assert (Hcollect : exists err output,
             compileGraph X depth engineContext engine graph = Err err
             /\ collectConnectedNodes depth graph (g_edges graph) output JsObject.empty
                = Err err).
  { unfold compileGraph, computeGraphContext. rewrite Hfrag, Hvert. simpl.
    destruct (collectConnectedNodes depth graph (g_edges graph) outputVert JsObject.empty)
      as [vertexIds|err] eqn:Ev; simpl; [|eauto].
    destruct (collectConnectedNodes depth graph (g_edges graph) outputFrag JsObject.empty)
      as [fragmentIds|err] eqn:Ef; simpl; [|eauto].
    exfalso. destruct Hreach as [Hr|Hr].
    - destruct (collectConnectedNodes_cycle graph (g_edges graph) m Hcycle depth
                  outputVert JsObject.empty Hr) as [err Herr]. congruence.
    - destruct (collectConnectedNodes_cycle graph (g_edges graph) m Hcycle depth
                  outputFrag JsObject.empty Hr) as [err Herr]. congruence. }
  destruct Hcollect as (err & output & Hcompile & Herr).
  exists err. split; [exact Hcompile|]. intros Hsome.
  destruct (collectConnectedNodes_errors graph (g_edges graph) depth output _ err Herr)
    as [->|(from & -> & _)]; [reflexivity|].
  destruct (collectConnectedNodes_dangling_edge graph (g_edges graph) depth output _ from Herr)
    as (e & He & <- & Hnone).
  destruct (Hsome e He) as [y Hy]. congruence.
Qed.

Lemma compileGraph_fails_on_a_cycle_witness :
  compileGraph (Sample.externals Sample.table) 40 Sample.fresh_context Sample.engine
    cyclic_graph = Err StackExhausted.
Proof.
  destruct (compileGraph_fails_on_a_cycle (Sample.externals Sample.table) unit 40
              Sample.fresh_context Sample.engine cyclic_graph
              Sample.outputFrag Sample.outputVert (Sample.plain_node "3" add fragment)
              eq_refl eq_refl (or_intror cyclic_graph_reached) cyclic_graph_cycle)
    as (err & Herr & Hstack).
  rewrite Herr. f_equal. apply Hstack.
  intros e He. simpl in He.
  repeat (apply elem_of_cons in He as [->|He]); try (vm_compute; eauto).
  apply elem_of_nil in He as [].
Defined.

(** ** What a compilation changes in the engine context *)

Section Frame.
Context (X : Externals) {T : Type}.
Implicit Types (engineContext : EngineContext T).

Lemma same_but_tree_refl (a : NodeContext) : same_but_tree a a.
Proof. repeat split. Qed.

Lemma same_but_tree_trans (a b c : NodeContext) :
  same_but_tree a b -> same_but_tree b c -> same_but_tree a c.
Proof. unfold same_but_tree. intros (? & ? & ? & ?) (? & ? & ? & ?). repeat split; congruence. Qed.

Lemma fills_only_refl engineContext : fills_only engineContext engineContext.
Proof.
  repeat split; try reflexivity. intros id.
  destruct (ec_nodes engineContext !! id); constructor. apply same_but_tree_refl.
Qed.

Lemma fills_only_trans (a b c : EngineContext T) :
  fills_only a b -> fills_only b c -> fills_only a c.
Proof.
  intros (He1 & Hc1 & Hr1 & Hn1) (He2 & Hc2 & Hr2 & Hn2).
  split; [congruence|]. split; [congruence|]. split; [congruence|].
  intros id. pose proof (Hn1 id) as Ha. pose proof (Hn2 id) as Ha'.
  destruct Ha as [x y Hxy|]; inversion Ha' as [? z Hyz|]; subst; constructor.
  eapply same_but_tree_trans; eassumption.
Qed.

Lemma fills_only_set_context_ast id ast engineContext :
  fills_only engineContext (set_context_ast id ast engineContext).
Proof.
  repeat split; try reflexivity; simpl. intros id'.
  destruct (decide (id = id')) as [<-|Hne].
  - rewrite lookup_alter_eq.
    destruct (ec_nodes engineContext !! id); constructor. repeat split.
  - rewrite lookup_alter_ne by exact Hne.
    destruct (ec_nodes engineContext !! id'); constructor. apply same_but_tree_refl.
Qed.

Lemma compileNode_fills_only depth : forall engine graph edges engineContext node stage ids
    result engineContext',
  compileNode X depth engine graph edges engineContext node stage ids
  = Ok (result, engineContext') ->
  fills_only engineContext engineContext'.
Proof.
  induction depth as [|depth IH];
    intros engine graph edges engineContext node stage ids result engineContext';
    [discriminate|].
  simpl. intros H. apply bind_Ok_inv in H as (parser & _ & H).
  apply bind_Ok_inv in H as ([ast0 inputs0] & _ & H).
  destruct (bool_decide (length (input_edges edges node) ≠ 0)) eqn:Elen.
  - apply bind_Ok_inv in H as ([[continuation compiledIds] context1] & Hloop & H).
    apply bind_Ok_inv in H as (own & _ & H).
    apply bind_Ok_inv in H as (shaderParser & _ & H).
    apply bind_Ok_inv in H as (filler' & _ & H).
    assert (engineContext' = context1) as -> by congruence.
    change (fills_only engineContext (snd (continuation, compiledIds, context1))).
    refine (for_each_invariant
              (fun _ (s : ShaderSections X * NodeIds * EngineContext T) =>
                 fills_only engineContext (snd s))
              _ _ _ [] _ _ _ Hloop); [|apply fills_only_refl].
    intros done x [[c0 ids0] ctx0] [[c1 ids1] ctx1] Hinv Hx Hstep. simpl in Hinv |- *.
    apply bind_Ok_inv in Hstep as (fromNode & Hfrom & Hstep).
    apply bind_Ok_inv in Hstep as ([[[s0 f0] childIds] ctx'] & Hchild & Hstep).
    destruct (negb (Ast.truthy f0)); [discriminate|].
    apply bind_Ok_inv in Hstep as (inputs & _ & Hstep).
    apply bind_Ok_inv in Hstep as (ast & _ & Hstep).
    assert (ctx1 = set_context_ast (n_id node) ast ctx') as -> by congruence.
    eapply fills_only_trans; [exact Hinv|].
    eapply fills_only_trans; [|apply fills_only_set_context_ast].
    eapply IH, Hchild.
  - apply bind_Ok_inv in H as (own & _ & H).
    apply bind_Ok_inv in H as (shaderParser & _ & H).
    apply bind_Ok_inv in H as (filler' & _ & H).
    assert (engineContext' = engineContext) as -> by congruence.
    apply fills_only_refl.
Qed.

End Frame.

(** X12.  [compileNode] changes nothing in the engine context but trees:
    the engine name, the compile counter and the runtime stay, no node
    context appears or disappears, and every node context keeps its inputs,
    id, name and source. *)
Theorem compileNode_fills_trees_only (X : Externals) (T : Type) (depth : nat)
  (engine : Engine T) (graph : Graph) (edges : list Edge)
  (engineContext : EngineContext T) (node : Node) (stage : ShaderStage) (ids : NodeIds)
  (result : CompileNodeResult X) (engineContext' : EngineContext T) :
  compileNode X depth engine graph edges engineContext node stage ids
  = Ok (result, engineContext') ->
  ec_engine engineContext' = ec_engine engineContext
  /\ ec_compileCount engineContext' = ec_compileCount engineContext
  /\ ec_runtime engineContext' = ec_runtime engineContext
  /\ forall id,
       match ec_nodes engineContext !! id, ec_nodes engineContext' !! id with
       | Some before, Some after =>
           nc_inputs after = nc_inputs before /\ nc_id after = nc_id before
           /\ nc_name after = nc_name before /\ nc_source after = nc_source before
       | None, None => True
       | _, _ => False
       end.
Proof.
  intros H. apply compileNode_fills_only in H as (He & Hc & Hr & Hn).
  split; [exact He|]. split; [exact Hc|]. split; [exact Hr|].
  intros id. pose proof (Hn id) as Hsame.
  destruct Hsame as [before after (Hs & Hi & Hid & Hname)|]; [|exact I].
  repeat split; assumption.
Qed.

Lemma Ok_bind {A B} (a : A) (k : A -> Res B) : Ok a ≫= k = k a.
Proof. reflexivity. Qed.

Lemma with_orphan_fragment_compiles :
  is_ok (engineContext ←
           computeGraphContext (Sample.externals Sample.table) 5 Sample.fresh_context
             Sample.engine SampleGraphs.with_orphan;
         compileNode (Sample.externals Sample.table) 5 Sample.engine
           SampleGraphs.with_orphan (g_edges SampleGraphs.with_orphan) engineContext
           Sample.outputFrag fragment JsObject.empty) = true.
Proof. vm_compute. reflexivity. Qed.

Lemma compileNode_fills_trees_only_witness :
  exists engineContext result engineContext',
    computeGraphContext (Sample.externals Sample.table) 5 Sample.fresh_context
      Sample.engine SampleGraphs.with_orphan = Ok engineContext
    /\ compileNode (Sample.externals Sample.table) 5 Sample.engine SampleGraphs.with_orphan
         (g_edges SampleGraphs.with_orphan) engineContext Sample.outputFrag fragment
         JsObject.empty
       = Ok (result, engineContext')
    /\ ec_compileCount engineContext' = ec_compileCount engineContext.
Proof.
  pose proof with_orphan_fragment_compiles as H.
  destruct (computeGraphContext _ _ _ _ _) as [engineContext|] eqn:E1; [|discriminate H].
  rewrite Ok_bind in H.
  destruct (compileNode _ _ _ _ _ engineContext _ _ _) as [[result engineContext']|] eqn:E2;
    [|discriminate H].
  exists engineContext, result, engineContext'.
  split; [reflexivity|]. split; [exact E2|].
  apply (compileNode_fills_trees_only _ _ _ _ _ _ _ _ _ _ _ _ E2).
Defined.

(** X13.  The ids that [compileNode] returns are those that
    [collectConnectedNodes] collects from the same node over the same edges:
    the ids it was given and those of the nodes reached backward from the
    node, the node itself under its own id. *)
Theorem compileNode_returns_connected_nodes (X : Externals) (T : Type) (depth : nat)
  (engine : Engine T) (graph : Graph) (edges : list Edge)
  (engineContext : EngineContext T) (node : Node) (stage : ShaderStage) (ids : NodeIds)
  (sections : ShaderSections X) (filler : AstNode) (r : NodeIds)
  (engineContext' : EngineContext T) :
  compileNode X depth engine graph edges engineContext node stage ids
  = Ok (sections, filler, r, engineContext') ->
  collectConnectedNodes depth graph edges node ids = Ok r
  /\ JsObject.get (n_id node) r = Some node
  /\ forall id,
       JsObject.has id r = true <->
       JsObject.has id ids = true
       \/ exists m, reaches_back graph edges node m /\ n_id m = id.
Proof.
  intros H. apply compileNode_ids in H. split; [exact H|]. split.
  - destruct depth as [|depth]; [discriminate|].
    rewrite collectConnectedNodes_unfold in H.
    destruct (bool_decide _).
    + apply bind_Ok_inv in H as (c & _ & [= <-]).
      rewrite JsObjectFacts.get_set, String.eqb_refl. reflexivity.
    + injection H as <-. rewrite JsObjectFacts.get_set, String.eqb_refl. reflexivity.
  - apply (collectConnectedNodes_collected graph edges depth node ids r H).
Qed.

Lemma compileNode_returns_connected_nodes_witness :
  exists engineContext sections filler r engineContext',
    computeGraphContext (Sample.externals Sample.table) 5 Sample.fresh_context
      Sample.engine SampleGraphs.with_orphan = Ok engineContext
    /\ compileNode (Sample.externals Sample.table) 5 Sample.engine SampleGraphs.with_orphan
         (g_edges SampleGraphs.with_orphan) engineContext Sample.outputFrag fragment
         JsObject.empty
       = Ok (sections, filler, r, engineContext')
    /\ collectConnectedNodes 5 SampleGraphs.with_orphan (g_edges SampleGraphs.with_orphan)
         Sample.outputFrag JsObject.empty = Ok r.
Proof.
  pose proof with_orphan_fragment_compiles as H.
  destruct (computeGraphContext _ _ _ _ _) as [engineContext|] eqn:E1; [|discriminate H].
  rewrite Ok_bind in H.
  destruct (compileNode _ _ _ _ _ engineContext _ _ _)
    as [[[[sections filler] r] engineContext']|] eqn:E2; [|discriminate H].
  exists engineContext, sections, filler, r, engineContext'.
  split; [reflexivity|]. split; [exact E2|].
  apply (compileNode_returns_connected_nodes _ _ _ _ _ _ _ _ _ _ _ _ _ _ E2).
Defined.

(** ** Node contexts *)

Section Contexts.
Context (X : Externals) {T : Type}.
Implicit Types (engineContext : EngineContext T).

Lemma lookup_parser_no_hook (engine : Engine T) (node : Node) (parser : NodeParser T) :
  hook_free engine -> lookup_parser X engine node = Some parser -> no_hook parser.
Proof.
  intros Hfree. unfold lookup_parser.
  destruct (eng_parsers engine (n_type node)) as [p|] eqn:Ep.
  - intros [= <-]. eapply Hfree, Ep.
  - destruct (n_type node) as [| | | |tag]; simpl; try (intros [= <-]; exact I).
    destruct (Js.inherited tag); intros [= <-]; exact I.
Qed.

Lemma computeNodeContext_no_hook engineContext engine graph parser node stage
  nodeContext engineContext' :
  no_hook parser ->
  computeNodeContext engineContext engine graph parser node stage
  = Ok (nodeContext, engineContext') ->
  engineContext' = engineContext
  /\ nc_id nodeContext = Some (n_id node)
  /\ nc_name nodeContext = Some (n_name node)
  /\ is_Some (nc_inputs nodeContext).
Proof.
  intros Hno H. unfold computeNodeContext in H.
  apply bind_Ok_inv in H as (c & Hc & H).
  assert (c = engineContext) as ->.
  { destruct parser as [[hook|] f v|p]; [destruct Hno | |]; congruence. }
  apply bind_Ok_inv in H as (shaderParser & _ & H).
  apply bind_Ok_inv in H as (ast & _ & H).
  apply bind_Ok_inv in H as (inputs & _ & H).
  injection H as <- <-. simpl. eauto.
Qed.

Lemma computeSideContext_invariant engineContext engine graph nodes engineContext' :
  hook_free engine ->
  computeSideContext X engineContext engine graph nodes = Ok engineContext' ->
  ec_engine engineContext' = ec_engine engineContext
  /\ ec_compileCount engineContext' = ec_compileCount engineContext
  /\ ec_runtime engineContext' = ec_runtime engineContext
  /\ (forall node, node ∈ nodes ->
        exists nodeContext,
          ec_nodes engineContext' !! n_id node = Some nodeContext
          /\ nc_id nodeContext = Some (n_id node)
          /\ is_Some (nc_inputs nodeContext))
  /\ (forall id, (forall node, node ∈ nodes -> n_id node <> id) ->
        ec_nodes engineContext' !! id = ec_nodes engineContext !! id)
  /\ (forall id nodeContext,
        ec_nodes engineContext !! id = Some nodeContext ->
        exists nodeContext',
          ec_nodes engineContext' !! id = Some nodeContext'
          /\ nc_source nodeContext' = nc_source nodeContext).
Proof.
  intros Hfree H. unfold computeSideContext in H.
  change nodes with ([] ++ nodes).
  refine (for_each_invariant
            (fun done (c : EngineContext T) =>
               ec_engine c = ec_engine engineContext
               /\ ec_compileCount c = ec_compileCount engineContext
               /\ ec_runtime c = ec_runtime engineContext
               /\ (forall node, node ∈ done ->
                     exists nodeContext,
                       ec_nodes c !! n_id node = Some nodeContext
                       /\ nc_id nodeContext = Some (n_id node)
                       /\ is_Some (nc_inputs nodeContext))
               /\ (forall id, (forall node, node ∈ done -> n_id node <> id) ->
                     ec_nodes c !! id = ec_nodes engineContext !! id)
               /\ (forall id nodeContext,
                     ec_nodes engineContext !! id = Some nodeContext ->
                     exists nodeContext',
                       ec_nodes c !! id = Some nodeContext'
                       /\ nc_source nodeContext' = nc_source nodeContext))
            _ _ _ [] _ _ _ H).
  - intros done node c c' (He & Hc & Hr & Hdone & Hrest & Hsrc) _ Hstep.
    apply bind_Ok_inv in Hstep as (parser & Hp & Hstep). apply from_option_Ok_inv in Hp.
    apply bind_Ok_inv in Hstep as ([nodeContext c1] & Hnc & [= <-]).
    apply computeNodeContext_no_hook in Hnc as (-> & Hid & Hname & Hinputs);
      [|eapply lookup_parser_no_hook; eassumption].
    split; [exact He|]. split; [exact Hc|]. split; [exact Hr|]. simpl. split; [|split].
    + intros node' Hin. apply elem_of_app in Hin as [Hin|Hin].
      * destruct (decide (n_id node = n_id node')) as [Heq|Hne].
        -- rewrite <- Heq, lookup_insert_eq. eexists. split; [reflexivity|].
           simpl. rewrite Hid. auto.
        -- rewrite lookup_insert_ne by exact Hne. apply Hdone, Hin.
      * apply list_elem_of_singleton in Hin as ->. rewrite lookup_insert_eq.
        eexists. split; [reflexivity|]. simpl. auto.
    + intros id Hid'. rewrite lookup_insert_ne.
      * apply Hrest. intros node' Hin. apply Hid'. apply elem_of_app. auto.
      * apply Hid'. apply elem_of_app. right. apply list_elem_of_here.
    + intros id nc0 Hnc0. destruct (Hsrc id nc0 Hnc0) as (nc1 & Hnc1 & Hs1).
      destruct (decide (n_id node = id)) as [<-|Hne].
      * rewrite lookup_insert_eq. eexists. split; [reflexivity|]. simpl.
        rewrite Hnc1. simpl. exact Hs1.
      * rewrite lookup_insert_ne by exact Hne. eauto.
  - repeat split; try reflexivity.
    + intros node Hin. apply elem_of_nil in Hin as [].
    + eauto.
Qed.

End Contexts.

(** X14.  For an engine whose parsers have no [onBeforeCompile] hook,
    [computeSideContext] stores a node context with the node's id and the
    inputs its parser found for every node of the list, leaves the contexts
    of the other ids as they are, keeps the [source] of a context it
    replaces, and changes neither the engine name nor the compile counter
    nor the runtime. *)
Theorem computeSideContext_stores_contexts (X : Externals) (T : Type)
  (engineContext : EngineContext T) (engine : Engine T) (graph : Graph)
  (nodes : list Node) (engineContext' : EngineContext T) :
  hook_free engine ->
  computeSideContext X engineContext engine graph nodes = Ok engineContext' ->
  ec_engine engineContext' = ec_engine engineContext
  /\ ec_compileCount engineContext' = ec_compileCount engineContext
  /\ ec_runtime engineContext' = ec_runtime engineContext
  /\ (forall node, node ∈ nodes ->
        exists nodeContext,
          ec_nodes engineContext' !! n_id node = Some nodeContext
          /\ nc_id nodeContext = Some (n_id node)
          /\ is_Some (nc_inputs nodeContext))
  /\ (forall id, (forall node, node ∈ nodes -> n_id node <> id) ->
        ec_nodes engineContext' !! id = ec_nodes engineContext !! id)
  /\ (forall id nodeContext,
        ec_nodes engineContext !! id = Some nodeContext ->
        exists nodeContext',
          ec_nodes engineContext' !! id = Some nodeContext'
          /\ nc_source nodeContext' = nc_source nodeContext).
Proof. apply computeSideContext_invariant. Qed.

Lemma sample_engine_hook_free : hook_free Sample.engine.
Proof. intros type parser H. discriminate H. Qed.

Lemma outputs_get_contexts :
  is_ok (computeSideContext (Sample.externals Sample.table) Sample.fresh_context
           Sample.engine SampleGraphs.with_orphan [Sample.outputFrag; Sample.outputVert])
  = true.
Proof. vm_compute. reflexivity. Qed.

Lemma computeSideContext_stores_contexts_witness :
  exists engineContext',
    computeSideContext (Sample.externals Sample.table) Sample.fresh_context
      Sample.engine SampleGraphs.with_orphan [Sample.outputFrag; Sample.outputVert]
    = Ok engineContext'
    /\ ec_compileCount engineContext' = 0
    /\ ec_nodes engineContext' !! "3" = None.
Proof.
  pose proof outputs_get_contexts as H.
  destruct (computeSideContext _ _ _ _ _) as [engineContext'|] eqn:E; [|discriminate H].
  destruct (computeSideContext_stores_contexts _ _ _ _ _ _ _ sample_engine_hook_free E)
    as (_ & Hc & _ & _ & Hrest & _).
  exists engineContext'. split; [reflexivity|]. split; [exact Hc|].
  rewrite Hrest; [reflexivity|].
  intros node Hin. simpl in Hin.
  repeat (apply elem_of_cons in Hin as [->|Hin]); try discriminate.
  apply elem_of_nil in Hin as [].
Defined.

(** ** The steps of [compileGraph] *)

Section Steps.
Context (X : Externals) {T : Type}.
Implicit Types (engineContext : EngineContext T).

Lemma computeGraphContext_inv depth engineContext engine graph context0 :
  computeGraphContext X depth engineContext engine graph = Ok context0 ->
  exists outputFrag outputVert vertexIds fragmentIds context,
    find_output graph fragment = Some outputFrag
    /\ find_output graph vertex = Some outputVert
    /\ collectConnectedNodes depth graph (g_edges graph) outputVert JsObject.empty
       = Ok vertexIds
    /\ collectConnectedNodes depth graph (g_edges graph) outputFrag JsObject.empty
       = Ok fragmentIds
    /\ computeSideContext X engineContext engine graph
         (outputFrag :: JsObject.values fragmentIds) = Ok context
    /\ computeSideContext X context engine graph
         (outputVert :: JsObject.values vertexIds
            ++ List.filter (is_orphan fragmentIds vertexIds) (g_nodes graph))
       = Ok context0.
Proof.
  unfold computeGraphContext. intros H.
  apply bind_Ok_inv in H as (outputFrag & Hf & H). apply from_option_Ok_inv in Hf.
  apply bind_Ok_inv in H as (outputVert & Hv & H). apply from_option_Ok_inv in Hv.
  apply bind_Ok_inv in H as (vertexIds & Hvi & H).
  apply bind_Ok_inv in H as (fragmentIds & Hfi & H).
  apply bind_Ok_inv in H as (context & Hc & H).
  exists outputFrag, outputVert, vertexIds, fragmentIds, context. auto 10.
Qed.

Lemma compileGraph_steps depth engineContext engine graph result graph' engineContext' :
  compileGraph X depth engineContext engine graph = Ok (result, graph', engineContext') ->
  exists context0 outputFrag outputVert fragmentFiller fragmentIds context1
         vertexIds vertexFiller ids context2,
    computeGraphContext X depth engineContext engine graph = Ok context0
    /\ find_output graph fragment = Some outputFrag
    /\ find_output graph vertex = Some outputVert
    /\ compileNode X depth engine graph (g_edges graph) context0 outputFrag
         fragment JsObject.empty
       = Ok (r_fragment result, fragmentFiller, fragmentIds, context1)
    /\ collectConnectedNodes depth graph (g_edges graph) outputVert JsObject.empty
       = Ok vertexIds
    /\ compileNode X depth engine graph
         (g_edges graph ++ orphanEdges graph outputVert fragmentIds vertexIds)
         context1 outputVert vertex JsObject.empty
       = Ok (r_vertex result, vertexFiller, ids, context2)
    /\ engineContext'
       = {| ec_engine := ec_engine context2;
            ec_compileCount := S (ec_compileCount context2);
            ec_nodes := ec_nodes context2;
            ec_runtime := ec_runtime context2 |}.
Proof.
  unfold compileGraph. intros H.
  apply bind_Ok_inv in H as (context0 & Hc0 & H).
  apply bind_Ok_inv in H as (outputFrag & Hf & H). apply from_option_Ok_inv in Hf.
  apply bind_Ok_inv in H as ([[[fs ff] fids] context1] & Hcf & H).
  apply bind_Ok_inv in H as (outputVert & Hv & H). apply from_option_Ok_inv in Hv.
  apply bind_Ok_inv in H as (vertexIds & Hvi & H).
  apply bind_Ok_inv in H as ([[[vs vf] vids] context2] & Hcv & H).
  injection H as <- <- <-.
  exists context0, outputFrag, outputVert, ff, fids, context1, vertexIds, vf, vids, context2.
  simpl. repeat split; assumption.
Qed.

End Steps.

(** X15.  [compileGraph] looks for the fragment output first and for the
    vertex output second, before it follows any edge: a graph without a
    fragment output fails with the error of the missing fragment output,
    whatever else it holds, and a graph with a fragment output and no
    vertex output fails with the error of the missing vertex output. *)
Theorem compileGraph_needs_both_outputs (X : Externals) (T : Type) (depth : nat)
  (engineContext : EngineContext T) (engine : Engine T) (graph : Graph) :
  (find_output graph fragment = None ->
   compileGraph X depth engineContext engine graph = Err (MissingOutputNode fragment))
  /\ (is_Some (find_output graph fragment) -> find_output graph vertex = None ->
      compileGraph X depth engineContext engine graph = Err (MissingOutputNode vertex))
  /\ (is_ok (compileGraph X depth engineContext engine graph) = true ->
      is_Some (find_output graph fragment) /\ is_Some (find_output graph vertex)).
Proof.
  unfold compileGraph, computeGraphContext. split; [|split].
  - intros ->. reflexivity.
  - intros [outputFrag ->] ->. reflexivity.
  - destruct (find_output graph fragment); [|discriminate].
    destruct (find_output graph vertex); [|discriminate]. eauto.
Qed.

Lemma compileGraph_needs_both_outputs_witness :
  compileGraph (Sample.externals Sample.table) 5 Sample.fresh_context Sample.engine
    (mkGraph [] [Sample.edge "ghost" "1" "color" fragment])
  = Err (MissingOutputNode fragment).
Proof.
  apply (compileGraph_needs_both_outputs (Sample.externals Sample.table) unit 5
           Sample.fresh_context Sample.engine
           (mkGraph [] [Sample.edge "ghost" "1" "color" fragment])).
  reflexivity.
Defined.

(** X16.  With an engine whose parsers have no [onBeforeCompile] hook, a
    call of [compileGraph] that returns has raised the compile counter of the
    engine context by exactly one and has left its engine name and its
    runtime as they were. *)
Theorem compileGraph_counts_one_compilation (X : Externals) (T : Type) (depth : nat)
  (engineContext : EngineContext T) (engine : Engine T) (graph : Graph)
  (result : CompileGraphResult X) (graph' : Graph) (engineContext' : EngineContext T) :
  hook_free engine ->
  compileGraph X depth engineContext engine graph = Ok (result, graph', engineContext') ->
  ec_compileCount engineContext' = S (ec_compileCount engineContext)
  /\ ec_engine engineContext' = ec_engine engineContext
  /\ ec_runtime engineContext' = ec_runtime engineContext.
Proof.
  intros Hfree H.
  apply compileGraph_steps in H
    as (c0 & oF & oV & ff & fids & c1 & vids & vf & ids & c2
        & Hc0 & _ & _ & Hcf & _ & Hcv & ->).
  apply computeGraphContext_inv in Hc0
    as (oF' & oV' & vids' & fids' & c & _ & _ & _ & _ & Hs1 & Hs2).
  apply (computeSideContext_invariant X _ _ _ _ _ Hfree) in Hs1 as (He1 & Hn1 & Hr1 & _).
  apply (computeSideContext_invariant X _ _ _ _ _ Hfree) in Hs2 as (He2 & Hn2 & Hr2 & _).
  apply compileNode_fills_only in Hcf as (He3 & Hn3 & Hr3 & _).
  apply compileNode_fills_only in Hcv as (He4 & Hn4 & Hr4 & _).
  simpl. repeat split; congruence.
Qed.

Lemma compileGraph_counts_one_compilation_witness :
  exists result graph' engineContext',
    compileGraph (Sample.externals Sample.table) 5 Sample.fresh_context Sample.engine
      SampleGraphs.with_orphan = Ok (result, graph', engineContext')
    /\ ec_compileCount engineContext' = 1.
Proof.
  destruct (compileGraph (Sample.externals Sample.table) 5 Sample.fresh_context
              Sample.engine SampleGraphs.with_orphan)
    as [[[result graph'] engineContext']|] eqn:E.
  - exists result, graph', engineContext'. split; [reflexivity|].
    apply (compileGraph_counts_one_compilation _ _ _ _ _ _ _ _ _
             sample_engine_hook_free E).
  - exfalso. pose proof orphan_statement_leads_main as H. rewrite E in H. discriminate H.
Defined.

(** The ids collected from a node with the empty mapping are those of the
    nodes it reaches backward, each held by a node of that id in the
    values of the mapping. *)
Lemma collected_from_empty (graph : Graph) (edges : list Edge) (depth : nat)
  (node : Node) (r : NodeIds) :
  collectConnectedNodes depth graph edges node JsObject.empty = Ok r ->
  (forall id, JsObject.has id r = true <->
              exists m, reaches_back graph edges node m /\ n_id m = id)
  /\ (forall m, reaches_back graph edges node m ->
                exists m', m' ∈ JsObject.values r /\ n_id m' = n_id m).
Proof.
  intros H. destruct (collectConnectedNodes_collected graph edges depth node _ r H)
    as [Hhas Hin].
  assert (Hhas' : forall id, JsObject.has id r = true <->
                             exists m, reaches_back graph edges node m /\ n_id m = id).
  { intros id. rewrite Hhas. split; [intros [Hf|Hr]; [discriminate Hf | exact Hr] | auto]. }
  split; [exact Hhas'|].
  intros m Hm. assert (Hh : JsObject.has (n_id m) r = true) by (apply Hhas'; eauto).
  unfold JsObject.has in Hh.
  destruct (JsObject.get (n_id m) r) as [m'|] eqn:Hg; [|discriminate].
  apply JsObjectFacts.get_elem_of in Hg. exists m'. split.
  - unfold JsObject.values. apply list_elem_of_fmap. exists (n_id m, m'). auto.
  - apply Hin in Hg as [Hg|[_ Hid]]; [apply elem_of_nil in Hg as [] | exact Hid].
Qed.

Lemma reaches_back_more_edges (graph : Graph) (edges more : list Edge) (n m : Node) :
  reaches_back graph edges n m -> reaches_back graph (edges ++ more) n m.
Proof.
  induction 1 as [n|n y m (e & He & Hto & Hy) _ IH]; [apply rtc_refl|].
  eapply rtc_l; [|exact IH]. exists e. split; [apply elem_of_app; auto | auto].
Qed.

(** The filter of [compileGraph] finds the orphans of the graph. *)
Lemma is_orphan_orphan (graph : Graph) (depth : nat) (outputFrag outputVert node : Node)
  (fragmentIds vertexIds : NodeIds) :
  collectConnectedNodes depth graph (g_edges graph) outputFrag JsObject.empty
  = Ok fragmentIds ->
  collectConnectedNodes depth graph (g_edges graph) outputVert JsObject.empty
  = Ok vertexIds ->
  node ∈ g_nodes graph ->
  (is_orphan fragmentIds vertexIds node = true <-> orphan graph outputFrag outputVert node).
Proof.
  intros Hf Hv Hin.
  destruct (collected_from_empty _ _ _ _ _ Hf) as [Hfrag _].
  destruct (collected_from_empty _ _ _ _ _ Hv) as [Hvert _].
  unfold is_orphan, orphan, JsObject.has_in.
  rewrite !andb_true_iff, negb_true_iff, orb_true_iff, orb_false_iff, bool_decide_eq_true.
  split.
  - intros [[[Hs Hn] Hhas] [Hno Hid]]. split; [exact Hin|]. split; [exact Hs|].
    split; [|split; [|exact Hid]].
    + destruct (n_nextStageNodeId node) as [next|]; [|discriminate].
      exists next. split; [reflexivity|]. split; [intros ->; discriminate|].
      destruct Hhas as [Hhas|Hhas]; [left; apply Hfrag, Hhas | right; exact Hhas].
    + intros m Hm Hidm. assert (JsObject.has (n_id node) vertexIds = true)
        by (apply Hvert; eauto). congruence.
  - intros (_ & Hs & (next & -> & Hne & Hreach) & Hno & Hid).
    split; [split; [split; [exact Hs|]|]|split; [|exact Hid]].
    + destruct next; [congruence | reflexivity].
    + destruct Hreach as [Hreach|Hreach]; [left; apply Hfrag, Hreach | right; exact Hreach].
    + destruct (JsObject.has (n_id node) vertexIds) eqn:Hh; [|reflexivity].
      apply Hvert in Hh as (m & Hm & Hidm). destruct (Hno m Hm Hidm).
Qed.

(** X17.  In a call of [compileGraph] that returns, the vertex side is
    compiled over the edges of the graph followed by one synthesized edge
    per orphan of the graph, in the order of the nodes of the graph; the
    edge goes from the orphan into the input [mainStmts] of the vertex
    output.  The orphans are the nodes of the vertex stage whose non-empty
    [nextStageNodeId] is the id of a node reached backward from the
    fragment output or the name of a member of [Object.prototype], and
    whose own id is neither the id of a node reached backward from the
    vertex output nor such a name. *)
Theorem compileGraph_orphan_edges (X : Externals) (T : Type) (depth : nat)
  (engineContext : EngineContext T) (engine : Engine T) (graph : Graph)
  (result : CompileGraphResult X) (graph' : Graph) (engineContext' : EngineContext T) :
  compileGraph X depth engineContext engine graph = Ok (result, graph', engineContext') ->
  exists outputFrag outputVert (selected : Node -> bool) context1 vertexFiller ids context2,
    find_output graph fragment = Some outputFrag
    /\ find_output graph vertex = Some outputVert
    /\ compileNode X depth engine graph
         (g_edges graph
          ++ map (fun node =>
                    {| e_from := n_id node; e_to := n_id outputVert; e_output := "main";
                       e_input := "mainStmts"; e_stage := Some vertex |})
               (List.filter selected (g_nodes graph)))
         context1 outputVert vertex JsObject.empty
       = Ok (r_vertex result, vertexFiller, ids, context2)
    /\ forall node,
         node ∈ g_nodes graph ->
         (selected node = true <-> orphan graph outputFrag outputVert node).
Proof.
  intros H.
  apply compileGraph_steps in H
    as (c0 & oF & oV & ff & fids & c1 & vids & vf & ids & c2
        & _ & HoF & HoV & Hcf & Hvids & Hcv & _).
  apply compileNode_ids in Hcf.
  exists oF, oV, (is_orphan fids vids), c1, vf, ids, c2.
  split; [exact HoF|]. split; [exact HoV|]. split; [exact Hcv|].
  intros node Hin. exact (is_orphan_orphan graph depth oF oV node fids vids Hcf Hvids Hin).
Qed.

Lemma compileGraph_orphan_edges_witness :
  exists result graph' engineContext' outputVert selected context1 vertexFiller ids context2,
    compileGraph (Sample.externals Sample.table) 5 Sample.fresh_context Sample.engine
      SampleGraphs.with_orphan = Ok (result, graph', engineContext')
    /\ find_output SampleGraphs.with_orphan vertex = Some outputVert
    /\ compileNode (Sample.externals Sample.table) 5 Sample.engine SampleGraphs.with_orphan
         (g_edges SampleGraphs.with_orphan
          ++ map (fun node =>
                    {| e_from := n_id node; e_to := n_id outputVert; e_output := "main";
                       e_input := "mainStmts"; e_stage := Some vertex |})
               (List.filter selected (g_nodes SampleGraphs.with_orphan)))
         context1 outputVert vertex JsObject.empty
       = Ok (r_vertex result, vertexFiller, ids, context2).
Proof.
  destruct (compileGraph (Sample.externals Sample.table) 5 Sample.fresh_context
              Sample.engine SampleGraphs.with_orphan)
    as [[[result graph'] engineContext']|] eqn:E.
  - destruct (compileGraph_orphan_edges _ _ _ _ _ _ _ _ _ E)
      as (oF & oV & selected & c1 & vf & ids & c2 & _ & HoV & Hcv & _).
    exists result, graph', engineContext', oV, selected, c1, vf, ids, c2.
    split; [reflexivity|]. split; [exact HoV | exact Hcv].
  - exfalso. pose proof orphan_statement_leads_main as H. rewrite E in H. discriminate H.
Defined.

(** X18.  With an engine whose parsers have no [onBeforeCompile] hook,
    after a call of [compileGraph] that returns the engine context holds,
    for every node reached backward from the fragment or the vertex output,
    a node context under the id of the node, with that id and with
    inputs. *)
Theorem compileGraph_leaves_contexts (X : Externals) (T : Type) (depth : nat)
  (engineContext : EngineContext T) (engine : Engine T) (graph : Graph)
  (result : CompileGraphResult X) (graph' : Graph) (engineContext' : EngineContext T)
  (outputFrag outputVert m : Node) :
  hook_free engine ->
  compileGraph X depth engineContext engine graph = Ok (result, graph', engineContext') ->
  find_output graph fragment = Some outputFrag ->
  find_output graph vertex = Some outputVert ->
  reaches_back graph (g_edges graph) outputFrag m
  \/ reaches_back graph (g_edges graph) outputVert m ->
  exists nodeContext,
    ec_nodes engineContext' !! n_id m = Some nodeContext
    /\ nc_id nodeContext = Some (n_id m)
    /\ is_Some (nc_inputs nodeContext).
Proof.
  intros Hfree H HoF HoV Hreach.
  apply compileGraph_steps in H
    as (c0 & oF & oV & ff & fids & c1 & vids & vf & ids & c2
        & Hc0 & HoF' & HoV' & Hcf & _ & Hcv & ->).
  rewrite HoF in HoF'. injection HoF' as <-. rewrite HoV in HoV'. injection HoV' as <-.
  apply computeGraphContext_inv in Hc0
    as (oF' & oV' & vids' & fids' & c & HoF' & HoV' & Hvi & Hfi & Hs1 & Hs2).
  rewrite HoF in HoF'. injection HoF' as <-. rewrite HoV in HoV'. injection HoV' as <-.
  apply (computeSideContext_invariant X _ _ _ _ _ Hfree) in Hs1
    as (_ & _ & _ & Hdone1 & _ & _).
  apply (computeSideContext_invariant X _ _ _ _ _ Hfree) in Hs2
    as (_ & _ & _ & Hdone2 & Hrest2 & _).
  assert (H0 : exists nodeContext,
             ec_nodes c0 !! n_id m = Some nodeContext
             /\ nc_id nodeContext = Some (n_id m)
             /\ is_Some (nc_inputs nodeContext)).
  { destruct Hreach as [Hr|Hr].
    - destruct (collected_from_empty _ _ _ _ _ Hfi) as [_ Hval].
      destruct (Hval m Hr) as (m' & Hm' & Hid).
      set (second := outputVert :: JsObject.values vids'
                       ++ List.filter (is_orphan fids' vids') (g_nodes graph)) in *.
      destruct (decide (n_id m ∈ map n_id second)) as [Hin|Hnot].
      + apply list_elem_of_fmap in Hin as (node & Hnode & Hin).
        rewrite Hnode. apply Hdone2, Hin.
      + rewrite Hrest2.
        * rewrite <- Hid. apply Hdone1. apply list_elem_of_further, Hm'.
        * intros node Hnode Heq. apply Hnot. apply list_elem_of_fmap. eauto.
    - destruct (collected_from_empty _ _ _ _ _ Hvi) as [_ Hval].
      destruct (Hval m Hr) as (m' & Hm' & Hid).
      rewrite <- Hid. apply Hdone2.
      apply list_elem_of_further, elem_of_app. left. exact Hm'. }
  destruct H0 as (nc0 & Hnc0 & Hid0 & Hin0).
  apply compileNode_fills_only in Hcf as (_ & _ & _ & Hn1).
  apply compileNode_fills_only in Hcv as (_ & _ & _ & Hn2).
  pose proof (Hn1 (n_id m)) as H1. pose proof (Hn2 (n_id m)) as H2.
  rewrite Hnc0 in H1. inversion H1 as [? nc1 (_ & Hi1 & Hd1 & _) Ha Hb|]; subst.
  rewrite <- Hb in H2. inversion H2 as [? nc2 (_ & Hi2 & Hd2 & _) Ha' Hb'|]; subst.
  exists nc2. simpl. split; [congruence|]. split; [congruence|].
  rewrite Hi2, Hi1. exact Hin0.
Qed.

Lemma compileGraph_leaves_contexts_witness :
  exists result graph' engineContext' nodeContext,
    compileGraph (Sample.externals Sample.table) 5 Sample.fresh_context Sample.engine
      SampleGraphs.with_orphan = Ok (result, graph', engineContext')
    /\ ec_nodes engineContext' !! "8" = Some nodeContext
    /\ nc_id nodeContext = Some "8".
Proof.
  destruct (compileGraph (Sample.externals Sample.table) 5 Sample.fresh_context
              Sample.engine SampleGraphs.with_orphan)
    as [[[result graph'] engineContext']|] eqn:E.
  - destruct (compileGraph_leaves_contexts _ _ _ _ _ _ _ _ _
                Sample.outputFrag Sample.outputVert SampleGraphs.node8
                sample_engine_hook_free E eq_refl eq_refl)
      as (nodeContext & Hnc & Hid & _).
    + left. apply rtc_once. exists (Sample.edge "8" "1" "color" fragment).
      split; [apply list_elem_of_here | split; reflexivity].
    + exists result, graph', engineContext', nodeContext.
      split; [reflexivity|]. split; [exact Hnc | exact Hid].
  - exfalso. pose proof orphan_statement_leads_main as H. rewrite E in H. discriminate H.
Defined.

(** ** What a compilation that returns has checked *)

Section Wired.
Context (X : Externals) {T : Type}.
Implicit Types (engineContext : EngineContext T).

(** What the lookup of a node context found when it did not throw. *)
Lemma node_context_Ok engineContext (node : Node) ast inputs :
  node_context engineContext node = Ok (ast, inputs) ->
  (exists nodeContext,
     ec_nodes engineContext !! n_id node = Some nodeContext
     /\ ast = nc_ast nodeContext /\ inputs = nc_inputs nodeContext)
  \/ (ec_nodes engineContext !! n_id node = None
      /\ Js.inherited (n_id node) = true /\ ast = AUndef /\ inputs = None).
Proof.
  unfold node_context. destruct (ec_nodes engineContext !! n_id node) as [nc|].
  - intros [= <- <-]. left. eauto.
  - destruct (Js.inherited (n_id node)); [|discriminate]. intros [= <- <-]. right. auto.
Qed.

(** An input that was called is a property of the inputs, own or
    inherited. *)
Lemma call_input_Ok (inputs : NodeInputs) (input : string) (fillerAst ast ast' : AstNode) :
  call_input inputs input fillerAst ast = Ok ast' -> JsObject.has_in input inputs = true.
Proof.
  unfold call_input, JsObject.has_in, JsObject.has.
  destruct (JsObject.get input inputs); [reflexivity|].
  destruct (Js.inherited input); [reflexivity | discriminate].
Qed.

Lemma wired_fills_only engine graph edges (a b : EngineContext T) m :
  fills_only a b ->
  wired X engine graph edges b m -> wired X engine graph edges a m.
Proof.
  intros (_ & _ & _ & Hn) (Hp & Hnc & Hedges). split; [exact Hp|].
  pose proof (Hn (n_id m)) as Hsame. split.
  - destruct Hnc as [[nc Hnc]|Hi]; [|right; exact Hi].
    rewrite Hnc in Hsame. inversion Hsame; subst. left. eauto.
  - intros e He Hto. destruct (Hedges e He Hto) as (Hfrom & nc & inputs & Hnc' & Hin & Hhas).
    split; [exact Hfrom|]. rewrite Hnc' in Hsame.
    inversion Hsame as [nc0 ? (_ & Hi & _) Ha Hb|]; subst.
    exists nc0, inputs. split; [reflexivity|]. split; [congruence | exact Hhas].
Qed.

(** All steps of a loop that returns have returned. *)
Lemma for_each_all {A St} (I : St -> Prop) (Q : A -> Prop) (f : St -> A -> Res St)
  (xs : list A) :
  (forall s x s', I s -> x ∈ xs -> f s x = Ok s' -> I s' /\ Q x) ->
  forall s s', I s -> for_each f xs s = Ok s' -> I s' /\ forall x, x ∈ xs -> Q x.
Proof.
  induction xs as [|y xs IH]; intros Hf s s' HI; simpl.
  - intros [= <-]. split; [exact HI|]. intros x Hx. apply elem_of_nil in Hx as [].
  - destruct (f s y) as [s1|e] eqn:Ey; simpl; [|discriminate]. intros Hrest.
    destruct (Hf s y s1 HI (list_elem_of_here _ _) Ey) as [HI1 HQ].
    destruct (IH (fun s x s' HIs Hx => Hf s x s' HIs (list_elem_of_further _ _ _ Hx))
                s1 s' HI1 Hrest) as [HI' HQs].
    split; [exact HI'|]. intros x Hx.
    apply elem_of_cons in Hx as [->|Hx]; [exact HQ | apply HQs, Hx].
Qed.

Lemma compileNode_wired depth : forall engine graph edges engineContext node stage ids
    result engineContext',
  compileNode X depth engine graph edges engineContext node stage ids
  = Ok (result, engineContext') ->
  forall m, reaches_back graph edges node m ->
            wired X engine graph edges engineContext m.
Proof.
  induction depth as [|depth IH];
    intros engine graph edges engineContext node stage ids result engineContext';
    [discriminate|].
  simpl. intros H. apply bind_Ok_inv in H as (parser & Hparser & H).
  apply from_option_Ok_inv in Hparser.
  apply bind_Ok_inv in H as ([ast0 inputs0] & Hnc & H).
  apply node_context_Ok in Hnc.
  assert (Hfound : is_Some (ec_nodes engineContext !! n_id node)
                   \/ Js.inherited (n_id node) = true).
  { destruct Hnc as [(nc & Hnc & _)|(_ & Hi & _)]; [left; eauto | right; exact Hi]. }
  destruct (bool_decide (length (input_edges edges node) ≠ 0)) eqn:Elen.
  - apply bind_Ok_inv in H as ([[continuation compiledIds] context1] & Hloop & _).
    assert (Hall : forall e, e ∈ input_edges edges node ->
              exists y, find_node graph (e_from e) = Some y
                        /\ (exists inputs, inputs0 = Some inputs
                                           /\ JsObject.has_in (e_input e) inputs = true)
                        /\ forall m, reaches_back graph edges y m ->
                                     wired X engine graph edges engineContext m).
    { refine (proj2 (for_each_all
                (fun s : ShaderSections X * NodeIds * EngineContext T =>
                   fills_only engineContext (snd s))
                _ _ _ _ (emptyShaderSections X, ids, engineContext) _
                (fills_only_refl _) Hloop)).
      intros [[c0 ids0] ctx0] x [[c1 ids1] ctx1] Hinv Hx Hstep. simpl in Hinv |- *.
      apply elem_of_input_edges in Hx as [Hx Hto].
      apply bind_Ok_inv in Hstep as (fromNode & Hfrom & Hstep).
      apply from_option_Ok_inv in Hfrom.
      apply bind_Ok_inv in Hstep as ([[[s0 f0] childIds] ctx'] & Hchild & Hstep).
      destruct (negb (Ast.truthy f0)); [discriminate|].
      apply bind_Ok_inv in Hstep as (inputs & Hinputs & Hstep).
      apply from_option_Ok_inv in Hinputs.
      apply bind_Ok_inv in Hstep as (ast & Hcall & Hstep).
      apply call_input_Ok in Hcall.
      assert (ctx1 = set_context_ast (n_id node) ast ctx') as -> by congruence.
      assert (Hne : input_edges edges node <> []).
      { intros E. assert (x ∈ input_edges edges node) by (apply elem_of_input_edges; auto).
        rewrite E in *. eapply elem_of_nil; eassumption. }
      assert (Hfeeds : feeds graph edges node fromNode) by (exists x; auto).
      split.
      - eapply fills_only_trans; [exact Hinv|].
        eapply fills_only_trans; [|apply fills_only_set_context_ast].
        eapply compileNode_fills_only, Hchild.
      - exists fromNode. split; [exact Hfrom|]. split.
        + exists inputs. split; [exact Hinputs | exact Hcall].
        + intros m Hm. eapply wired_fills_only; [exact Hinv|]. eapply IH; eassumption. }
    intros m Hm. apply rtc_inv in Hm as [<-|(y & (e & He & Hto & Hy) & Hm)].
    + split; [eauto|]. split; [exact Hfound|].
      intros e He Hto. destruct (Hall e) as (y & Hy & (inputs & Hinputs & Hhas) & _).
      { apply elem_of_input_edges. auto. }
      split; [eauto|].
      destruct Hnc as [(nc & Hnc & _ & Hi)|(_ & _ & _ & Hi)]; [|congruence].
      exists nc, inputs. split; [exact Hnc|]. split; [congruence | exact Hhas].
    + destruct (Hall e) as (y' & Hy' & _ & Hsub); [apply elem_of_input_edges; auto|].
      rewrite Hy in Hy'. injection Hy' as <-. apply Hsub, Hm.
  - apply bool_decide_eq_false in Elen.
    assert (Hnone : input_edges edges node = []).
    { destruct (input_edges edges node); [reflexivity|]. exfalso. apply Elen. discriminate. }
    intros m Hm. apply rtc_inv in Hm as [<-|(y & (e & He & Hto & Hy) & Hm)].
    + split; [eauto|]. split; [exact Hfound|].
      intros e He Hto. exfalso.
      assert (Hin : e ∈ input_edges edges node) by (apply elem_of_input_edges; auto).
      rewrite Hnone in Hin. apply elem_of_nil in Hin as [].
    + exfalso.
      assert (Hin : e ∈ input_edges edges node) by (apply elem_of_input_edges; auto).
      rewrite Hnone in Hin. apply elem_of_nil in Hin as [].
Qed.

End Wired.

(** X19.  [compileNode] returns only if the part of the graph it walks is
    wired.  Started with a record of node contexts that holds nothing under
    [__proto__], a call that returns has found, for every node reached
    backward from the node, a parser, and under the id of the node a node
    context or a member of [Object.prototype]; and every edge that ends at
    such a node comes from a node of the graph and names an input that the
    node context of its target has, as a property of its own or as a member
    of [Object.prototype]. *)
Theorem compileNode_returns_only_if_wired (X : Externals) (T : Type) (depth : nat)
  (engine : Engine T) (graph : Graph) (edges : list Edge)
  (engineContext : EngineContext T) (node : Node) (stage : ShaderStage) (ids : NodeIds)
  (result : CompileNodeResult X) (engineContext' : EngineContext T) (m : Node) :
  ec_nodes engineContext !! "__proto__" = None ->
  compileNode X depth engine graph edges engineContext node stage ids
  = Ok (result, engineContext') ->
  reaches_back graph edges node m ->
  is_Some (lookup_parser X engine m)
  /\ (is_Some (ec_nodes engineContext !! n_id m) \/ Js.inherited (n_id m) = true)
  /\ forall e, e ∈ edges -> e_to e = n_id m ->
       is_Some (find_node graph (e_from e))
       /\ exists nodeContext inputs,
            ec_nodes engineContext !! n_id m = Some nodeContext
            /\ nc_inputs nodeContext = Some inputs
            /\ (JsObject.has (e_input e) inputs = true
                \/ Js.inherited (e_input e) = true).
Proof.
  intros _ H Hm.
  destruct (compileNode_wired X depth _ _ _ _ _ _ _ _ _ H m Hm) as (Hp & Hnc & Hedges).
  split; [exact Hp|]. split; [exact Hnc|].
  intros e He Hto. destruct (Hedges e He Hto) as (Hfrom & nc & inputs & Hc & Hi & Hhas).
  split; [exact Hfrom|]. exists nc, inputs. split; [exact Hc|]. split; [exact Hi|].
  apply orb_true_iff, Hhas.
Qed.

Example with_orphan_contexts_are_own :
  match computeGraphContext (Sample.externals Sample.table) 5 Sample.fresh_context
          Sample.engine SampleGraphs.with_orphan with
  | Ok engineContext =>
      match ec_nodes engineContext !! "__proto__" with
      | Some _ => false
      | None => true
      end
  | Err _ => false
  end = true.
Proof. vm_compute. reflexivity. Qed.

Lemma compileNode_returns_only_if_wired_witness :
  exists engineContext nodeContext inputs,
    computeGraphContext (Sample.externals Sample.table) 5 Sample.fresh_context
      Sample.engine SampleGraphs.with_orphan = Ok engineContext
    /\ ec_nodes engineContext !! "1" = Some nodeContext
    /\ nc_inputs nodeContext = Some inputs
    /\ (JsObject.has "color" inputs = true \/ Js.inherited "color" = true).
Proof.
  pose proof with_orphan_fragment_compiles as H.
  pose proof with_orphan_contexts_are_own as Hown.
  destruct (computeGraphContext _ _ _ _ _) as [engineContext|] eqn:E1; [|discriminate H].
  rewrite Ok_bind in H.
  destruct (compileNode _ _ _ _ _ engineContext _ _ _) as [[result engineContext']|] eqn:E2;
    [|discriminate H].
  destruct (ec_nodes engineContext !! "__proto__") eqn:Eproto; [discriminate Hown|].
  destruct (compileNode_returns_only_if_wired _ _ _ _ _ _ _ _ _ _ _ _
              Sample.outputFrag Eproto E2 (rtc_refl _ _))
    as (_ & _ & Hedges).
  destruct (Hedges (Sample.edge "8" "1" "color" fragment))
    as (_ & nodeContext & inputs & Hnc & Hinputs & Hhas);
    [apply list_elem_of_here | reflexivity |].
  exists engineContext, nodeContext, inputs. auto.
Defined.

(** ** Orphans and what feeds them *)

(** X20.  With an engine whose parsers have no [onBeforeCompile] hook, an
    engine context without node contexts and a graph in which no node has
    the id [__proto__], [compileGraph] returns only if what feeds an orphan
    is itself connected: every node reached backward from an orphan has the
    id of a node reached backward from the fragment or the vertex output,
    or of an orphan, or an id that names a member of [Object.prototype].
    (Node contexts are computed for the connected nodes and the orphans
    only, the vertex side is compiled through the orphans, and the lookup
    of a node context finds a member of [Object.prototype] under its
    name.) *)
Theorem compileGraph_needs_connected_orphan_inputs (X : Externals) (T : Type)
  (depth : nat) (engineContext : EngineContext T) (engine : Engine T) (graph : Graph)
  (result : CompileGraphResult X) (graph' : Graph) (engineContext' : EngineContext T)
  (outputFrag outputVert node m : Node) :
  hook_free engine ->
  ec_nodes engineContext = ∅ ->
  (forall n, n ∈ g_nodes graph -> n_id n <> "__proto__") ->
  compileGraph X depth engineContext engine graph = Ok (result, graph', engineContext') ->
  find_output graph fragment = Some outputFrag ->
  find_output graph vertex = Some outputVert ->
  orphan graph outputFrag outputVert node ->
  find_node graph (n_id node) = Some node ->
  reaches_back graph (g_edges graph) node m ->
  Js.inherited (n_id m) = true
  \/ exists m',
       n_id m' = n_id m
       /\ (reaches_back graph (g_edges graph) outputFrag m'
           \/ reaches_back graph (g_edges graph) outputVert m'
           \/ orphan graph outputFrag outputVert m').
Proof.
  intros Hfree Hfresh _ H HoF HoV Horphan Hnode Hreach.
  apply compileGraph_steps in H
    as (c0 & oF & oV & ff & fids & c1 & vids & vf & ids & c2
        & Hc0 & HoF' & HoV' & Hcf & Hvids & Hcv & _).
  rewrite HoF in HoF'. injection HoF' as <-. rewrite HoV in HoV'. injection HoV' as <-.
  apply computeGraphContext_inv in Hc0
    as (oF' & oV' & vids' & fids' & c & HoF' & HoV' & Hvi & Hfi & Hs1 & Hs2).
  rewrite HoF in HoF'. injection HoF' as <-. rewrite HoV in HoV'. injection HoV' as <-.
  pose proof (compileNode_ids X _ _ _ _ _ _ _ _ _ _ _ _ Hcf) as Hfids.
  rewrite Hfi in Hfids. injection Hfids as ->.
  rewrite Hvi in Hvids. injection Hvids as ->.
  (* the vertex side walks through the orphan *)
  assert (Hedge : orphan_edge outputVert node ∈ orphanEdges graph outputVert fids vids).
  { unfold orphanEdges. apply list_elem_of_fmap. exists node. split; [reflexivity|].
    apply list_elem_of_In, filter_In. split; [apply list_elem_of_In, Horphan|].
    apply (is_orphan_orphan graph depth outputFrag outputVert node fids vids Hfi Hvi);
      [apply Horphan | exact Horphan]. }
  assert (Hwalk : reaches_back graph (g_edges graph ++ orphanEdges graph outputVert fids vids)
                    outputVert m).
  { eapply rtc_l; [|apply reaches_back_more_edges, Hreach].
    exists (orphan_edge outputVert node).
    split; [apply elem_of_app; right; exact Hedge|]. split; [reflexivity | exact Hnode]. }
  destruct (compileNode_wired X _ _ _ _ _ _ _ _ _ _ Hcv m Hwalk)
    as (_ & [[nc1 Hnc1]|Hinherited] & _); [|left; exact Hinherited].
  right.
  (* its node context was computed before the compilation *)
  apply compileNode_fills_only in Hcf as (_ & _ & _ & Hn1).
  pose proof (Hn1 (n_id m)) as Hsame. rewrite Hnc1 in Hsame.
  inversion Hsame as [nc0 ? _ Hnc0 Hb|]; subst. symmetry in Hnc0.
  apply (computeSideContext_invariant X _ _ _ _ _ Hfree) in Hs1 as (_ & _ & _ & _ & Hrest1 & _).
  apply (computeSideContext_invariant X _ _ _ _ _ Hfree) in Hs2 as (_ & _ & _ & _ & Hrest2 & _).
  set (first := outputFrag :: JsObject.values fids) in *.
  set (second := outputVert :: JsObject.values vids
                   ++ List.filter (is_orphan fids vids) (g_nodes graph)) in *.
  assert (Hlisted : exists m', (m' ∈ first \/ m' ∈ second) /\ n_id m' = n_id m).
  { destruct (decide (n_id m ∈ map n_id second)) as [Hin|Hnot2].
    { apply list_elem_of_fmap in Hin as (m' & Hid & Hin). eauto. }
    destruct (decide (n_id m ∈ map n_id first)) as [Hin|Hnot1].
    { apply list_elem_of_fmap in Hin as (m' & Hid & Hin). eauto. }
    exfalso. rewrite Hrest2, Hrest1, Hfresh in Hnc0; [discriminate| |].
    - intros m' Hin Hid. apply Hnot1. apply list_elem_of_fmap. eauto.
    - intros m' Hin Hid. apply Hnot2. apply list_elem_of_fmap. eauto. }
  destruct Hlisted as (m' & Hin & Hid). exists m'. split; [exact Hid|].
  destruct (collectConnectedNodes_collected _ _ _ _ _ _ Hfi) as [_ Hfvals].
  destruct (collectConnectedNodes_collected _ _ _ _ _ _ Hvi) as [_ Hvvals].
  assert (Hvalues : forall (r : NodeIds) (x : Node),
             x ∈ JsObject.values r -> exists id, (id, x) ∈ r).
  { intros r x Hx. unfold JsObject.values in Hx.
    apply list_elem_of_fmap in Hx as ([id x'] & -> & Hx). eauto. }
  destruct Hin as [Hin|Hin].
  - apply elem_of_cons in Hin as [->|Hin]; [left; apply rtc_refl|].
    apply Hvalues in Hin as [id Hin].
    apply Hfvals in Hin as [Hin|[Hr _]]; [apply elem_of_nil in Hin as [] | auto].
  - apply elem_of_cons in Hin as [->|Hin]; [right; left; apply rtc_refl|].
    apply elem_of_app in Hin as [Hin|Hin].
    + apply Hvalues in Hin as [id Hin].
      apply Hvvals in Hin as [Hin|[Hr _]]; [apply elem_of_nil in Hin as [] | auto].
    + apply list_elem_of_In, filter_In in Hin as [Hin Ho]. apply list_elem_of_In in Hin.
      right. right.
      apply (is_orphan_orphan graph depth outputFrag outputVert m' fids vids Hfi Hvi Hin), Ho.
Qed.

Lemma node7_is_an_orphan :
  orphan SampleGraphs.with_orphan Sample.outputFrag Sample.outputVert SampleGraphs.node7.
Proof.
  split; [do 2 apply list_elem_of_further; apply list_elem_of_here|].
  split; [reflexivity|]. split; [|split; [|reflexivity]].
  - exists "8". split; [reflexivity|]. split; [discriminate|]. left.
    exists SampleGraphs.node8. split; [|reflexivity].
    apply rtc_once. exists (Sample.edge "8" "1" "color" fragment).
    split; [apply list_elem_of_here | split; reflexivity].
  - intros m Hm. apply rtc_inv in Hm as [<-|(y & (e & He & Hto & _) & _)]; [discriminate|].
    simpl in He. apply list_elem_of_singleton in He as ->. discriminate Hto.
Qed.

Lemma with_orphan_ids (n : Node) :
  n ∈ g_nodes SampleGraphs.with_orphan -> n_id n <> "__proto__".
Proof.
  intros Hn. simpl in Hn.
  repeat (apply elem_of_cons in Hn as [->|Hn]; [discriminate|]).
  apply elem_of_nil in Hn as [].
Qed.

Lemma compileGraph_needs_connected_orphan_inputs_witness :
  Js.inherited "7" = true
  \/ exists m',
       n_id m' = "7"
       /\ (reaches_back SampleGraphs.with_orphan (g_edges SampleGraphs.with_orphan)
             Sample.outputFrag m'
           \/ reaches_back SampleGraphs.with_orphan (g_edges SampleGraphs.with_orphan)
                Sample.outputVert m'
           \/ orphan SampleGraphs.with_orphan Sample.outputFrag Sample.outputVert m').
Proof.
  destruct (compileGraph (Sample.externals Sample.table) 5 Sample.fresh_context
              Sample.engine SampleGraphs.with_orphan)
    as [[[result graph'] engineContext']|] eqn:E.
  - apply (compileGraph_needs_connected_orphan_inputs (Sample.externals Sample.table)
             unit 5 Sample.fresh_context Sample.engine SampleGraphs.with_orphan
             result graph' engineContext'
             Sample.outputFrag Sample.outputVert SampleGraphs.node7 SampleGraphs.node7
             sample_engine_hook_free eq_refl with_orphan_ids E eq_refl eq_refl
             node7_is_an_orphan eq_refl (rtc_refl _ _)).
  - exfalso. pose proof orphan_statement_leads_main as H. rewrite E in H. discriminate H.
Defined.

(** An orphan fed by a node that nothing else connects: the compilation
    stops at the node context that was never computed. *)
Example orphan_with_unconnected_input_fails :
  compileGraph (Sample.externals Sample.table) 5 Sample.fresh_context Sample.engine
    orphan_with_input = Err (MissingNodeContext "9").
Proof. vm_compute. reflexivity. Qed.

(** ** The input [position] of vertex shader nodes *)

Lemma list_alter_fixed {A} (f : A -> A) (l : list A) : forall i,
  (forall x, l !! i = Some x -> f x = x) -> alter f i l = l.
Proof.
  induction l as [|y l IH]; intros [|i] H; simpl; try reflexivity.
  - rewrite (H y eq_refl). reflexivity.
  - change (y :: alter f i l = y :: l). rewrite IH by exact H. reflexivity.
Qed.

Lemma alter_field_fixed (g : AstNode -> AstNode) (k : string) (fs : list (string * AstNode)) :
  (Ast.has_field k (AObj fs) = true -> g (Ast.lookup k fs) = Ast.lookup k fs) ->
  Ast.alter_field g k fs = fs.
Proof.
  unfold Ast.lookup. induction fs as [|[k0 v0] fs IH]; simpl; [reflexivity|].
  destruct (String.eqb k0 k); simpl.
  - intros H. rewrite (H eq_refl). reflexivity.
  - intros H. rewrite IH by exact H. reflexivity.
Qed.

(** A mutation that leaves the node at a location as it is leaves the
    tree as it is. *)
Lemma update_at_fixed (f : AstNode -> AstNode) (loc : Loc) : forall n,
  f (Ast.at_loc loc n) = Ast.at_loc loc n -> Ast.update_at f loc n = n.
Proof.
  induction loc as [|[k|k i] loc IH]; intros n; simpl; [auto| |].
  - destruct n as [| | |fs|]; try reflexivity. simpl. intros H.
    rewrite alter_field_fixed; [reflexivity|]. intros _. apply IH, H.
  - destruct n as [| | |fs|]; try reflexivity. simpl. intros H.
    rewrite alter_field_fixed; [reflexivity|]. intros _.
    destruct (Ast.lookup k fs) as [| |l| |]; try reflexivity.
    rewrite list_alter_fixed; [reflexivity|].
    intros c Hc. apply IH. rewrite Hc in H. exact H.
Qed.

Lemma rewrite_reference_other (name text : string) (ref : AstNode) :
  (Ast.type_is "identifier" ref && Ast.is_str name (Ast.field "identifier" ref))
  || (Ast.type_is "parameter_declaration" ref
      && Ast.is_str name
           (Ast.field "identifier" (Ast.field "identifier" (Ast.field "declaration" ref))))
  = false ->
  rewrite_reference name text ref = ref.
Proof.
  unfold rewrite_reference. intros H. apply orb_false_elim in H as [-> ->]. reflexivity.
Qed.



(** ** Stale node contexts *)

Section Mirrored.
Context (X : Externals) {T : Type}.
Implicit Types (a b : EngineContext T).

Lemma builtin_parser_ignores_context (type : ShaderType) (parser : NodeParser T)
  (stage : option ShaderStage) (shaderParser : ShaderParser T) :
  parsers X type = Some parser ->
  stage_parser parser stage = Ok shaderParser ->
  no_hook parser
  /\ (forall a b engine graph node inputEdges,
        produceAst shaderParser a engine graph node inputEdges
        = produceAst shaderParser b engine graph node inputEdges)
  /\ (forall a b node ast nodeContext inputEdges,
        findInputs shaderParser a node ast nodeContext inputEdges
        = findInputs shaderParser b node ast nodeContext inputEdges).
Proof.
  destruct type as [| | | |tag]; simpl; [| | | |destruct (Js.inherited tag)];
    intros [= <-]; try discriminate;
    destruct stage as [[|]|]; simpl; intros [= <-]; repeat split.
Qed.

(** The filler expression of a built-in parser that made one without a
    tree does not depend on the tree. *)
Lemma builtin_filler_without_tree (type : ShaderType) (parser : NodeParser T)
  (stage : ShaderStage) (shaderParser : ShaderParser T) (node : Node) (filler : AstNode) :
  parsers X type = Some parser ->
  stage_parser parser (Some stage) = Ok shaderParser ->
  produceFiller shaderParser node AUndef = Ok filler ->
  forall ast, produceFiller shaderParser node ast = Ok filler.
Proof.
  destruct type as [| | | |tag]; simpl; [| | | |destruct (Js.inherited tag)];
    intros [= <-]; try discriminate;
    destruct stage; simpl; intros [= <-]; simpl; try discriminate; auto.
Qed.

Lemma lookup_parser_builtin (engine : Engine T) (node : Node) :
  builtin_only engine -> lookup_parser X engine node = parsers X (n_type node).
Proof. intros Hb. unfold lookup_parser. rewrite Hb. reflexivity. Qed.

Lemma computeNodeContext_builtin a b engine graph type parser node stage nodeContext a' :
  parsers X type = Some parser ->
  computeNodeContext a engine graph parser node stage = Ok (nodeContext, a') ->
  a' = a /\ computeNodeContext b engine graph parser node stage = Ok (nodeContext, b).
Proof.
  intros Hp H. unfold computeNodeContext in *.
  apply bind_Ok_inv in H as (c & Hc & H).
  apply bind_Ok_inv in H as (shaderParser & Hsp & H).
  destruct (builtin_parser_ignores_context type parser stage shaderParser Hp Hsp)
    as (Hno & Hast & Hinputs).
  assert (c = a) as ->.
  { destruct parser as [[hook|] f v|p]; [destruct Hno | |]; congruence. }
  assert (Hhook : match parser with
                  | ProgramParser (Some onBeforeCompile) _ _ => onBeforeCompile b node
                  | _ => Ok b
                  end = Ok b).
  { destruct parser as [[hook|] f v|p]; [destruct Hno | |]; reflexivity. }
  rewrite Hhook. simpl. rewrite Hsp. simpl.
  apply bind_Ok_inv in H as (ast & Ha & H).
  apply bind_Ok_inv in H as (inputs & Hi & H).
  rewrite (Hast b a), Ha. simpl. rewrite (Hinputs b a), Hi. simpl.
  injection H as <- <-. split; reflexivity.
Qed.

Lemma mirrored_store_context a b id nodeContext :
  mirrored a b ->
  mirrored (store_context id nodeContext a) (store_context id nodeContext b).
Proof.
  intros Hm id' nc. simpl. destruct (decide (id = id')) as [<-|Hne].
  - rewrite !lookup_insert_eq. intros [= <-]. eexists. split; [reflexivity|]. split; reflexivity.
  - rewrite !lookup_insert_ne by exact Hne. apply Hm.
Qed.

Lemma computeSideContext_mirrored engine graph nodes : forall a b a',
  builtin_only engine ->
  mirrored a b ->
  computeSideContext X a engine graph nodes = Ok a' ->
  exists b', computeSideContext X b engine graph nodes = Ok b' /\ mirrored a' b'.
Proof.
  intros a b a' Hb Hm H. unfold computeSideContext in *.
  refine (for_each_related mirrored _ _ nodes _ a b a' Hm H).
  intros s t node s' Hst _ Hstep.
  apply bind_Ok_inv in Hstep as (parser & Hp & Hstep). rewrite Hp. simpl.
  apply from_option_Ok_inv in Hp. rewrite lookup_parser_builtin in Hp by exact Hb.
  apply bind_Ok_inv in Hstep as ([nodeContext s1] & Hnc & [= <-]).
  destruct (computeNodeContext_builtin s t engine graph _ parser node (n_stage node)
              nodeContext s1 Hp Hnc) as [-> Hnc'].
  rewrite Hnc'. simpl. eexists. split; [reflexivity|].
  apply mirrored_store_context, Hst.
Qed.

Lemma mirrored_context_ast a b id :
  mirrored a b -> is_Some (ec_nodes a !! id) -> context_ast b id = context_ast a id.
Proof.
  intros Hm [nc Hnc]. destruct (Hm id nc Hnc) as (nc' & Hnc' & Hast & _).
  unfold context_ast. rewrite Hnc, Hnc'. exact Hast.
Qed.

Lemma mirrored_set_context_ast a b id ast :
  mirrored a b -> mirrored (set_context_ast id ast a) (set_context_ast id ast b).
Proof.
  intros Hm id' nc. simpl. destruct (decide (id = id')) as [<-|Hne].
  - rewrite !lookup_alter_eq.
    destruct (ec_nodes a !! id) as [nc0|] eqn:Ha; [|discriminate].
    destruct (Hm id nc0 Ha) as (nc0' & -> & _ & Hi). simpl. intros [= <-].
    eexists. split; [reflexivity|]. split; [reflexivity | exact Hi].
  - rewrite !lookup_alter_ne by exact Hne. apply Hm.
Qed.

Lemma compileNode_unfold depth engine graph edges a node stage ids :
  compileNode X (S depth) engine graph edges a node stage ids =
    (parser ← from_option (MissingParser (type_name (n_type node)))
                (lookup_parser X engine node);
     '(ast, inputs) ← node_context a node;
     if bool_decide (length (input_edges edges node) ≠ 0) then
       '(continuation, compiledIds, engineContext) ←
         for_each (compile_edge X depth engine graph edges node stage ids inputs)
           (input_edges edges node) (emptyShaderSections X, ids, a);
       own ← own_sections X node (context_ast engineContext (n_id node));
       shaderParser ← stage_parser parser (Some stage);
       filler ← produceFiller shaderParser node (context_ast engineContext (n_id node));
       Ok (mergeShaderSections X continuation own, filler,
           JsObject.set (n_id node) node compiledIds, engineContext)
     else
       sections ← own_sections X node ast;
       shaderParser ← stage_parser parser (Some stage);
       filler ← produceFiller shaderParser node ast;
       Ok (sections, filler, JsObject.set (n_id node) node ids, a)).
Proof. reflexivity. Qed.

(** A node without inputs takes no edge. *)
Lemma compile_edge_without_inputs depth (engine : Engine T) graph edges node stage ids
  s x s' :
  compile_edge X depth engine graph edges node stage ids None s x = Ok s' -> False.
Proof.
  destruct s as [[c0 ids0] s0]. unfold compile_edge. intros H.
  apply bind_Ok_inv in H as (fromNode & _ & H).
  apply bind_Ok_inv in H as ([[[s0' f0] childIds] s2] & _ & H).
  destruct (negb (Ast.truthy f0)); discriminate.
Qed.

Lemma compileNode_mirrored depth : forall engine graph edges a b node stage ids result a',
  builtin_only engine ->
  is_ok (findShaderSections X AUndef) = false ->
  mirrored a b ->
  compileNode X depth engine graph edges a node stage ids = Ok (result, a') ->
  exists b',
    compileNode X depth engine graph edges b node stage ids = Ok (result, b')
    /\ mirrored a' b'.
Proof.
  induction depth as [|depth IH];
    intros engine graph edges a b node stage ids result a' Hb Hfss Hm; [discriminate|].
  rewrite !compileNode_unfold.
  intros H. apply bind_Ok_inv in H as (parser & Hparser & H). rewrite Hparser. simpl.
  apply from_option_Ok_inv in Hparser. rewrite lookup_parser_builtin in Hparser by exact Hb.
  apply bind_Ok_inv in H as ([ast0 inputs0] & Hnc & H).
  apply node_context_Ok in Hnc as [(nodeContext & Hnc & -> & ->)|(Hnone & Hi & -> & ->)].
  - destruct (Hm _ _ Hnc) as (nodeContext' & Hnc' & Hast & Hinputs).
    unfold node_context at 1. rewrite Hnc'. simpl. rewrite Hinputs, Hast.
    destruct (bool_decide (length (input_edges edges node) ≠ 0)) eqn:Elen.
    + apply bind_Ok_inv in H as ([[continuation compiledIds] a1] & Hloop & H).
      assert (Hstep : forall s t x s',
                (fst s = fst t /\ mirrored (snd s) (snd t)
                 /\ is_Some (ec_nodes (snd s) !! n_id node)) ->
                x ∈ input_edges edges node ->
                compile_edge X depth engine graph edges node stage ids
                  (nc_inputs nodeContext) s x = Ok s' ->
                exists t',
                  compile_edge X depth engine graph edges node stage ids
                    (nc_inputs nodeContext) t x = Ok t'
                  /\ (fst s' = fst t' /\ mirrored (snd s') (snd t')
                      /\ is_Some (ec_nodes (snd s') !! n_id node))).
      { intros [[c0 ids0] s0] [[c0' ids0'] t0] x [[c1 ids1] s1] (Heq & Hst & Hsome) _ Hstep.
        simpl in Heq, Hst, Hsome. injection Heq as <- <-. unfold compile_edge in *.
        apply bind_Ok_inv in Hstep as (fromNode & Hfrom & Hstep). rewrite Hfrom. simpl.
        apply bind_Ok_inv in Hstep as ([[[s0' f0] childIds] s2] & Hchild & Hstep).
        destruct (IH _ _ _ _ _ _ _ _ _ _ Hb Hfss Hst Hchild) as (t2 & Hchild' & Hst2).
        rewrite Hchild'. simpl.
        destruct (negb (Ast.truthy f0)); [discriminate|].
        apply bind_Ok_inv in Hstep as (inputs & Hin & Hstep). rewrite Hin. simpl.
        assert (Hsome2 : is_Some (ec_nodes s2 !! n_id node)).
        { apply compileNode_fills_only in Hchild as (_ & _ & _ & Hn).
          pose proof (Hn (n_id node)) as Hsame. destruct Hsome as [nc0 Hnc0].
          rewrite Hnc0 in Hsame. inversion Hsame; eauto. }
        rewrite (mirrored_context_ast _ _ _ Hst2 Hsome2).
        apply bind_Ok_inv in Hstep as (ast & Hfill & Hstep). rewrite Hfill. simpl.
        injection Hstep as <- <- <-. eexists. split; [reflexivity|]. simpl.
        split; [reflexivity|]. split; [apply mirrored_set_context_ast, Hst2|].
        rewrite lookup_alter_eq. destruct Hsome2 as [nc2 ->]. simpl. eauto. }
      destruct (for_each_related _ _ _ _ Hstep
                  (emptyShaderSections X, ids, a) (emptyShaderSections X, ids, b)
                  (continuation, compiledIds, a1))
        as ([[c' ids'] b1] & Hloop' & Heq & Hm1 & Hsome);
        [simpl; split; [reflexivity|]; split; [exact Hm | eauto] | exact Hloop |].
      rewrite Hloop'. simpl in *. injection Heq as <- <-.
      rewrite (mirrored_context_ast _ _ _ Hm1 Hsome).
      apply bind_Ok_inv in H as (own & Hown & H). rewrite Hown. simpl.
      apply bind_Ok_inv in H as (shaderParser & Hsp & H). rewrite Hsp. simpl.
      apply bind_Ok_inv in H as (filler & Hfiller & H). rewrite Hfiller. simpl.
      injection H as <- <-. eexists. split; [reflexivity | exact Hm1].
    + apply bind_Ok_inv in H as (own & Hown & H). rewrite Hown. simpl.
      apply bind_Ok_inv in H as (shaderParser & Hsp & H). rewrite Hsp. simpl.
      apply bind_Ok_inv in H as (filler & Hfiller & H). rewrite Hfiller. simpl.
      injection H as <- <-. eexists. split; [reflexivity | exact Hm].
  - (* the lookup found a member of [Object.prototype]: no tree, no inputs *)
    destruct (bool_decide (length (input_edges edges node) ≠ 0)) eqn:Elen.
    + exfalso. apply bool_decide_eq_true in Elen.
      apply bind_Ok_inv in H as (s' & Hloop & _).
      destruct (input_edges edges node) as [|x xs]; [apply Elen; reflexivity|].
      cbn [for_each] in Hloop. apply bind_Ok_inv in Hloop as (s1 & Hstep & _).
      exact (compile_edge_without_inputs _ _ _ _ _ _ _ _ _ _ Hstep).
    + apply bind_Ok_inv in H as (own & Hown & H).
      apply bind_Ok_inv in H as (shaderParser & Hsp & H).
      apply bind_Ok_inv in H as (filler & Hfiller & H). injection H as <- <-.
      assert (Hexpr : n_expressionOnly node = true /\ own = emptyShaderSections X).
      { unfold own_sections in Hown. destruct (n_expressionOnly node).
        - injection Hown as <-. auto.
        - rewrite Hown in Hfss. discriminate Hfss. }
      destruct Hexpr as [Hexpr ->].
      pose proof (builtin_filler_without_tree _ _ _ _ _ _ Hparser Hsp Hfiller) as Hany.
      exists b. split; [|exact Hm].
      assert (Hb' : exists ast inputs, node_context b node = Ok (ast, inputs)).
      { unfold node_context. destruct (ec_nodes b !! n_id node); [eauto|].
        rewrite Hi. eauto. }
      destruct Hb' as (ast & inputs & ->). simpl.
      unfold own_sections. rewrite Hexpr. simpl. rewrite Hsp. simpl.
      rewrite Hany. reflexivity.
Qed.

End Mirrored.

(** X22.  With the built-in parsers, node contexts left in the engine
    context do not change what a compilation returns: when [compileGraph]
    returns from an engine context without node contexts, it returns the
    same two programs from every engine context.  ([findShaderSections] is
    taken to throw when it is given no tree: a node that is compiled under
    the id of a member of [Object.prototype] has no tree unless a node
    context was left under that id.) *)
Theorem compileGraph_ignores_stale_contexts (X : Externals) (T : Type) (depth : nat)
  (fresh stale : EngineContext T) (engine : Engine T) (graph : Graph)
  (result : CompileGraphResult X) (graph' : Graph) (fresh' : EngineContext T) :
  builtin_only engine ->
  is_ok (findShaderSections X AUndef) = false ->
  ec_nodes fresh = ∅ ->
  compileGraph X depth fresh engine graph = Ok (result, graph', fresh') ->
  exists stale',
    compileGraph X depth stale engine graph = Ok (result, graph', stale').
Proof.
  intros Hb Hfss Hfresh H.
  assert (Hm : mirrored fresh stale).
  { intros id nc Hnc. rewrite Hfresh, lookup_empty in Hnc. discriminate. }
  unfold compileGraph in *.
  apply bind_Ok_inv in H as (a0 & Hc0 & H).
  assert (Hc0' : exists b0, computeGraphContext X depth stale engine graph = Ok b0
                            /\ mirrored a0 b0).
  { unfold computeGraphContext in *.
    apply bind_Ok_inv in Hc0 as (oF & HoF & Hc0). rewrite HoF. simpl.
    apply bind_Ok_inv in Hc0 as (oV & HoV & Hc0). rewrite HoV. simpl.
    apply bind_Ok_inv in Hc0 as (vids & Hv & Hc0). rewrite Hv. simpl.
    apply bind_Ok_inv in Hc0 as (fids & Hf & Hc0). rewrite Hf. simpl.
    apply bind_Ok_inv in Hc0 as (a & Ha & Hc0).
    destruct (computeSideContext_mirrored X _ _ _ _ stale _ Hb Hm Ha) as (b & -> & Hab).
    simpl. exact (computeSideContext_mirrored X _ _ _ _ b _ Hb Hab Hc0). }
  destruct Hc0' as (b0 & -> & Hm0). simpl.
  apply bind_Ok_inv in H as (oF & HoF & H). rewrite HoF. simpl.
  apply bind_Ok_inv in H as ([[[fs ff] fids] a1] & Hcf & H).
  destruct (compileNode_mirrored X _ _ _ _ _ b0 _ _ _ _ _ Hb Hfss Hm0 Hcf)
    as (b1 & -> & Hm1).
  simpl.
  apply bind_Ok_inv in H as (oV & HoV & H). rewrite HoV. simpl.
  apply bind_Ok_inv in H as (vids & Hv & H). rewrite Hv. simpl.
  apply bind_Ok_inv in H as ([[[vs vf] vids'] a2] & Hcv & H).
  destruct (compileNode_mirrored X _ _ _ _ _ b1 _ _ _ _ _ Hb Hfss Hm1 Hcv)
    as (b2 & -> & Hm2).
  simpl. injection H as <- <- _. eexists. reflexivity.
Qed.

Lemma sample_engine_builtin_only : builtin_only Sample.engine.
Proof. intros type. reflexivity. Qed.

Lemma compileGraph_ignores_stale_contexts_witness :
  exists result graph' fresh' stale',
    compileGraph (Sample.externals Sample.table) 5 Sample.fresh_context Sample.engine
      SampleGraphs.with_orphan = Ok (result, graph', fresh')
    /\ compileGraph (Sample.externals Sample.table) 5 stale_context Sample.engine
         SampleGraphs.with_orphan = Ok (result, graph', stale').
Proof.
  destruct (compileGraph (Sample.externals Sample.table) 5 Sample.fresh_context
              Sample.engine SampleGraphs.with_orphan)
    as [[[result graph'] fresh']|] eqn:E.
  - destruct (compileGraph_ignores_stale_contexts (Sample.externals Sample.table) unit 5
                Sample.fresh_context stale_context Sample.engine SampleGraphs.with_orphan
                result graph' fresh' sample_engine_builtin_only eq_refl eq_refl E)
      as [stale' Hstale].
    exists result, graph', fresh', stale'. split; [reflexivity | exact Hstale].
  - exfalso. pose proof orphan_statement_leads_main as H. rewrite E in H. discriminate H.
Defined.

(** The converse fails: a stale node context can make a compilation return
    that stops from an engine context without node contexts. *)
Example stale_context_is_used :
  is_ok (compileGraph (Sample.externals Sample.table) 5 stale_context Sample.engine
           orphan_with_input) = true.
Proof. vm_compute. reflexivity. Qed.

(** Where [findShaderSections] returns on no tree, a node context left
    under the id [toString] shows in the result: without it the node is
    compiled with the member of [Object.prototype] of that name for its
    node context, and contributes no section. *)
Example stale_context_under_prototype_name :
  compiled_text (lenient_externals Sample.table) (map Sample.generate)
    (compileGraph (lenient_externals Sample.table) 5 Sample.fresh_context Sample.engine
       orphan_with_named_input)
  = Some (["voidmain_Colour(){gl_FragColor=vec4(1.0);}";
           "voidmain(){gl_FragColor=main_Colour();}"],
          ["voidmain_Varying(){vPos=position;}";
           "voidmain(){main_Varying();gl_Position=vec4(position,1.0);}"])
  /\ compiled_text (lenient_externals Sample.table) (map Sample.generate)
       (compileGraph (lenient_externals Sample.table) 5 named_stale_context Sample.engine
          orphan_with_named_input)
     = Some (["voidmain_Colour(){gl_FragColor=vec4(1.0);}";
           "voidmain(){gl_FragColor=main_Colour();}"],
             ["voidmain(){vPos=position;}"; "voidmain_Varying(){vPos=position;}";
              "voidmain(){main_Varying();gl_Position=vec4(position,1.0);}"])
  /\ compileGraph (Sample.externals Sample.table) 5 Sample.fresh_context Sample.engine
       orphan_with_named_input = Err TypeError.
Proof. repeat split; vm_compute; reflexivity. Qed.

(** ** Output nodes as inputs *)

Section OutputInputs.
Context (X : Externals) {T : Type}.

(** The built-in parsers of output nodes produce no filler expression. *)
Lemma output_node_has_no_filler depth (engine : Engine T) graph edges
  (engineContext : EngineContext T) node stage ids sections filler r engineContext' :
  eng_parsers engine output = None ->
  n_type node = output ->
  compileNode X depth engine graph edges engineContext node stage ids
  = Ok (sections, filler, r, engineContext') ->
  filler = AUndef.
Proof.
  intros Hb Ht. destruct depth as [|depth]; [discriminate|].
  rewrite compileNode_unfold. unfold lookup_parser. rewrite Ht, Hb. simpl.
  intros H. apply bind_Ok_inv in H as ([ast0 inputs0] & _ & H).
  destruct (bool_decide _).
  - apply bind_Ok_inv in H as ([[c i] e] & _ & H).
    apply bind_Ok_inv in H as (own & _ & H). destruct stage; simpl in H; congruence.
  - apply bind_Ok_inv in H as (own & _ & H). destruct stage; simpl in H; congruence.
Qed.

Lemma compileNode_output_inputs depth : forall (engine : Engine T) graph edges
    (engineContext : EngineContext T) node stage ids result engineContext',
  eng_parsers engine output = None ->
  compileNode X depth engine graph edges engineContext node stage ids
  = Ok (result, engineContext') ->
  forall m y, reaches_back graph edges node m -> feeds graph edges m y ->
              n_type y <> output.
Proof.
  induction depth as [|depth IH];
    intros engine graph edges engineContext node stage ids result engineContext' Hb;
    [discriminate|].
  rewrite compileNode_unfold. intros H.
  apply bind_Ok_inv in H as (parser & _ & H).
  apply bind_Ok_inv in H as ([ast0 inputs0] & _ & H).
  destruct (bool_decide (length (input_edges edges node) ≠ 0)) eqn:Elen.
  - apply bind_Ok_inv in H as ([[continuation compiledIds] context1] & Hloop & _).
    assert (Hall : forall e, e ∈ input_edges edges node ->
              exists y, find_node graph (e_from e) = Some y
                        /\ n_type y <> output
                        /\ forall m y', reaches_back graph edges y m ->
                                        feeds graph edges m y' -> n_type y' <> output).
    { refine (proj2 (for_each_all (fun _ => True) _ _ _ _
                       (emptyShaderSections X, ids, engineContext) _ I Hloop)).
      intros [[c0 ids0] ctx0] x [[c1 ids1] ctx1] _ Hx Hstep. split; [exact I|].
      unfold compile_edge in Hstep.
      apply bind_Ok_inv in Hstep as (fromNode & Hfrom & Hstep).
      apply from_option_Ok_inv in Hfrom.
      apply bind_Ok_inv in Hstep as ([[[s0 f0] childIds] ctx'] & Hchild & Hstep).
      exists fromNode. split; [exact Hfrom|]. split.
      - intros Ht.
        rewrite (output_node_has_no_filler _ _ _ _ _ _ _ _ _ _ _ _ Hb Ht Hchild) in Hstep.
        discriminate Hstep.
      - eapply IH; eassumption. }
    intros m y Hm Hy. apply rtc_inv in Hm as [<-|(y0 & (e & He & Hto & Hy0) & Hm)].
    + destruct Hy as (e & He & Hto & Hy).
      destruct (Hall e) as (y' & Hy' & Hno & _); [apply elem_of_input_edges; auto|].
      rewrite Hy in Hy'. injection Hy' as <-. exact Hno.
    + destruct (Hall e) as (y' & Hy' & _ & Hsub); [apply elem_of_input_edges; auto|].
      rewrite Hy0 in Hy'. injection Hy' as <-. eapply Hsub; eassumption.
  - apply bool_decide_eq_false in Elen.
    assert (Hnone : input_edges edges node = []).
    { destruct (input_edges edges node); [reflexivity|]. exfalso. apply Elen. discriminate. }
    assert (Hno : forall e, e ∈ edges -> e_to e = n_id node -> False).
    { intros e He Hto.
      assert (Hin : e ∈ input_edges edges node) by (apply elem_of_input_edges; auto).
      rewrite Hnone in Hin. apply elem_of_nil in Hin as []. }
    intros m y Hm Hy. exfalso.
    apply rtc_inv in Hm as [<-|(y0 & (e & He & Hto & _) & _)].
    + destruct Hy as (e & He & Hto & _). exact (Hno e He Hto).
    + exact (Hno e He Hto).
Qed.

End OutputInputs.

(** X23.  An output node cannot feed a node: with the built-in parser of
    output nodes, whose filler is empty, [compileNode] returns only if no
    edge into a node reached backward from the compiled node comes from a
    node of type [output]. *)
Theorem compileNode_refuses_output_inputs (X : Externals) (T : Type) (depth : nat)
  (engine : Engine T) (graph : Graph) (edges : list Edge)
  (engineContext : EngineContext T) (node : Node) (stage : ShaderStage) (ids : NodeIds)
  (result : CompileNodeResult X) (engineContext' : EngineContext T) (m : Node) (e : Edge)
  (from : Node) :
  eng_parsers engine output = None ->
  compileNode X depth engine graph edges engineContext node stage ids
  = Ok (result, engineContext') ->
  reaches_back graph edges node m ->
  e ∈ edges -> e_to e = n_id m -> find_node graph (e_from e) = Some from ->
  n_type from <> output.
Proof.
  intros Hb H Hm He Hto Hfrom.
  apply (compileNode_output_inputs X depth _ _ _ _ _ _ _ _ _ Hb H m from Hm).
  exists e. auto.
Qed.

Lemma compileNode_refuses_output_inputs_witness :
  exists engineContext,
    computeGraphContext (Sample.externals Sample.table) 5 Sample.fresh_context
      Sample.engine SampleGraphs.with_orphan = Ok engineContext
    /\ n_type SampleGraphs.node8 <> output.
Proof.
  pose proof with_orphan_fragment_compiles as H.
  destruct (computeGraphContext _ _ _ _ _) as [engineContext|] eqn:E1; [|discriminate H].
  rewrite Ok_bind in H.
  destruct (compileNode _ _ _ _ _ engineContext _ _ _) as [[result engineContext']|] eqn:E2;
    [|discriminate H].
  exists engineContext. split; [reflexivity|].
  apply (compileNode_refuses_output_inputs (Sample.externals Sample.table) unit 5
           Sample.engine SampleGraphs.with_orphan (g_edges SampleGraphs.with_orphan)
           engineContext Sample.outputFrag fragment JsObject.empty result engineContext'
           Sample.outputFrag (Sample.edge "8" "1" "color" fragment) SampleGraphs.node8
           eq_refl E2 (rtc_refl _ _) (list_elem_of_here _ _) eq_refl eq_refl).
Defined.

(** An edge from the vertex output into the fragment output: the
    compilation stops for want of a filler expression. *)
Example output_as_input_fails :
  compileGraph (Sample.externals Sample.table) 5 Sample.fresh_context Sample.engine
    (mkGraph [Sample.outputFrag; Sample.outputVert]
       [Sample.edge "2" "1" "color" fragment])
  = Err (MissingFillerAst "2").
Proof. vm_compute. reflexivity. Qed.

(** ** The Variable strategy *)

(** [{...a, ...b}] for an object [b]: a key of [b] has the value it has in
    [b], another key the value it has in [a]. *)
Lemma get_spread {V} (k : string) (b : list (string * V)) : forall a : JsObject.t V,
  NoDup (map fst b) ->
  JsObject.get k (JsObject.spread a b)
  = match JsObject.get k b with
    | Some v => Some v
    | None => JsObject.get k a
    end.
Proof.
  unfold JsObject.spread. induction b as [|[k0 v0] b IH]; intros a Hnd; simpl; [reflexivity|].
  apply NoDup_cons in Hnd as [Hk0 Hnd]. rewrite IH by exact Hnd.
  rewrite (JsObjectFacts.get_cons k k0 v0 b).
  destruct (String.eqb_spec k0 k) as [->|Hne].
  - assert (JsObject.get k b = None) as ->.
    { destruct (JsObject.get k b) as [v|] eqn:Hg; [|reflexivity]. exfalso. apply Hk0.
      apply JsObjectFacts.get_elem_of in Hg. apply list_elem_of_fmap. exists (k, v). auto. }
    rewrite JsObjectFacts.get_set, String.eqb_refl. reflexivity.
  - destruct (JsObject.get k b); [reflexivity|].
    rewrite JsObjectFacts.get_set. apply String.eqb_neq in Hne.
    rewrite String.eqb_sym, Hne. reflexivity.
Qed.

Lemma NoDup_keys_spread {V} (b : list (string * V)) : forall a : JsObject.t V,
  NoDup (JsObject.keys a) -> NoDup (JsObject.keys (JsObject.spread a b)).
Proof.
  unfold JsObject.spread. induction b as [|[k0 v0] b IH]; intros a Hnd; simpl; [exact Hnd|].
  apply IH, JsObjectFacts.NoDup_keys_set, Hnd.
Qed.

(** X24.  The Variable strategy merges the bindings of all scopes by name
    before it lists references: for scopes that are objects whose bindings
    are objects, it lists the references of one binding per name, the
    binding of the last scope that binds the name, so that the references
    of a binding shadowed by a later scope give no input. *)
Theorem variable_strategy_last_scope_wins (node : Node) (ast : AstNode)
  (scopes : list AstNode) :
  Ast.field "scopes" ast = AArr scopes ->
  Forall (fun scope => exists bindings,
            scope_bindings scope = Some bindings /\ NoDup (map fst bindings)) scopes ->
  exists merged,
    variable_bindings ast scopes = Ok merged
    /\ NoDup (JsObject.keys merged)
    /\ (forall name, JsObject.get name merged = last_bound name scopes)
    /\ variable_strategy node ast
       = for_each
           (fun inputs binding => more ← variable_binding ast binding; Ok (inputs ++ more))
           (JsObject.values merged) [].
Proof.
  intros Hscopes Hall.
  assert (Hmerged : forall acc found,
             NoDup (JsObject.keys acc) ->
             (forall name, JsObject.get name acc = found name) ->
             exists merged,
               for_each
                 (fun acc scope =>
                    match deref ast scope with
                    | AUndef => Err TypeError
                    | scope => Ok (JsObject.spread acc
                                     (own_entries (deref ast (Ast.field "bindings" scope))))
                    end) scopes acc = Ok merged
               /\ NoDup (JsObject.keys merged)
               /\ forall name,
                    JsObject.get name merged
                    = fold_left
                        (fun found scope =>
                           match JsObject.get name (default [] (scope_bindings scope)) with
                           | Some binding => Some binding
                           | None => found
                           end) scopes (found name)).
  { clear Hscopes. induction Hall as [|scope scopes' (bindings & Hb & Hnd) _ IH]; intros acc found Hacc Hget.
    - exists acc. simpl. auto.
    - pose proof Hb as Hsb. unfold scope_bindings in Hb.
      destruct scope as [| | |fs|]; try discriminate Hb.
      destruct (Ast.field "bindings" (AObj fs)) as [| | |bs|] eqn:Ebs; try discriminate Hb.
      injection Hb as ->. cbn [for_each deref]. rewrite Ebs. cbn [deref own_entries].
      destruct (IH (JsObject.spread acc bindings)
                  (fun name => match JsObject.get name bindings with
                               | Some binding => Some binding
                               | None => found name
                               end)) as (merged & Hm & Hndm & Hgetm).
      + apply NoDup_keys_spread, Hacc.
      + intros name. rewrite get_spread by exact Hnd. rewrite Hget. reflexivity.
      + exists merged. split; [exact Hm|]. split; [exact Hndm|].
        intros name. rewrite Hgetm. cbn [fold_left]. rewrite Hsb. reflexivity. }
  destruct (Hmerged JsObject.empty (fun _ => None)) as (merged & Hm & Hnd & Hget).
  - constructor.
  - reflexivity.
  - exists merged. split; [exact Hm|]. split; [exact Hnd|]. split; [exact Hget|].
    unfold variable_strategy. rewrite Hscopes. simpl.
    unfold variable_bindings in Hm. unfold variable_bindings. rewrite Hm. reflexivity.
Qed.

Lemma variable_strategy_last_scope_wins_witness :
  variable_strategy (Sample.plain_node "7" shader fragment) two_locals
  = Ok [(variable_input (AStr "uv"), IdentifierName (ARef [SItem "program" 1]))].
Proof.
  destruct (variable_strategy_last_scope_wins (Sample.plain_node "7" shader fragment)
              two_locals _ eq_refl) as (merged & Hm & _ & _ & ->).
  - repeat constructor; eexists; (split; [reflexivity|]); repeat constructor;
      apply not_elem_of_nil.
  - vm_compute in Hm. injection Hm as <-. reflexivity.
Defined.

(** * Claims that rest on the lemmas above *)

(** ** Mangling in [produceAst] *)

Section Mangled.
Context (X : Externals) {T : Type}.
Variables (bindings functions : AstNode -> list string).
Hypothesis Hcontract : renaming_contract X bindings functions.

Lemma mangling_steps (engine : EngineInfo) (node : Node) (pre ast : AstNode) :
  (fragmentAst ← renameBindings X pre (mangle_binding engine node);
   renameFunctions X fragmentAst (mangle_function node)) = Ok ast ->
  bindings ast = map (mangle_binding engine node) (bindings pre)
  /\ functions ast = map (mangle_function node) (functions pre).
Proof.
  destruct Hcontract as [Hb Hf]. intros H.
  apply bind_Ok_inv in H as (mid & Hmid & H).
  apply Hb in Hmid as [Hbm Hfm]. apply Hf in H as [Hfa Hba].
  split; congruence.
Qed.

Lemma produceAst_mangled (stage : ShaderStage) (engineContext : EngineContext T)
  (engine : EngineInfo) (graph : Graph) (node : Node) (inputEdges : list Edge)
  (ast : AstNode) :
  (stage = vertex -> Js.truthy_string (n_source node) = true) ->
  shader_produceAst X stage engineContext engine graph node inputEdges = Ok ast ->
  exists pre,
    before_mangling X stage engine graph node = Ok pre
    /\ bindings ast = map (mangle_binding engine node) (bindings pre)
    /\ functions ast = map (mangle_function node) (functions pre).
Proof.
  intros Hsource H. unfold before_mangling, parsed_source. destruct stage; simpl in H.
  - rewrite shader_fragment_produceAst_mangles in H.
    apply bind_Ok_inv in H as (preprocessed & E1 & H).
    apply bind_Ok_inv in H as (ast0 & E2 & H).
    apply bind_Ok_inv in H as (ast1 & E3 & H).
    apply bind_Ok_inv in H as (ast2 & Hhack & H).
    apply bind_Ok_inv in H as (ast3 & Hconvert & H).
    exists ast3. rewrite E1. simpl. rewrite E2. simpl. rewrite E3. simpl.
    unfold three_on_babylon. rewrite Hhack. simpl.
    split; [exact Hconvert | apply mangling_steps, H].
  - rewrite shader_vertex_produceAst_mangles in H by (apply Hsource; reflexivity).
    apply bind_Ok_inv in H as (preprocessed & E1 & H).
    apply bind_Ok_inv in H as (ast0 & E2 & H).
    apply bind_Ok_inv in H as (ast1 & E3 & H).
    apply bind_Ok_inv in H as (ast2 & Hposition & H).
    exists ast2. rewrite E1. simpl. rewrite E2. simpl. rewrite E3. simpl. split; [exact Hposition | apply mangling_steps, H].
Qed.

(** The renaming of the varyings of three for babylon comes before the
    mangling, in the fragment parser alone. *)
Lemma before_mangling_three_on_babylon (engine : EngineInfo) (graph : Graph) (node : Node)
  (pre : AstNode) :
  three_on_babylon engine node = true ->
  before_mangling X fragment engine graph node = Ok pre ->
  exists parsed renamed,
    parsed_source X fragment node = Ok parsed
    /\ renameBindings X parsed three_to_babylon = Ok renamed
    /\ bindings renamed = map three_to_babylon (bindings parsed)
    /\ convert300MainToReturn X renamed = Ok pre.
Proof.
  intros Hhack H. unfold before_mangling in H. rewrite Hhack in H.
  apply bind_Ok_inv in H as (parsed & Hparsed & H).
  apply bind_Ok_inv in H as (renamed & Hrenamed & H).
  exists parsed, renamed. split; [exact Hparsed|]. split; [exact Hrenamed|].
  split; [|exact H]. destruct Hcontract as [Hb _]. apply (Hb _ _ _ Hrenamed).
Qed.

End Mangled.


Lemma sample_names_renamed (table : string) (ast : AstNode) (mapper : string -> string)
  (ast' : AstNode) :
  SampleScopes.rename table ast mapper = Ok ast' ->
  SampleScopes.names table ast' = map mapper (SampleScopes.names table ast).
Proof.
  unfold SampleScopes.rename, SampleScopes.names.
  destruct (Ast.at_loc (SampleScopes.scope_table table) ast) as [| | |entries|] eqn:E;
    try discriminate.
  intros H.
  assert (ast' = Ast.update_at
                   (fun _ => AObj (map (fun entry => (mapper (fst entry), snd entry)) entries))
                   (SampleScopes.scope_table table) ast) as -> by congruence.
  rewrite LocFacts.at_loc_update_at by (rewrite E; discriminate).
  rewrite !map_map. reflexivity.
Qed.

Lemma sample_names_kept (table other : string) (ast : AstNode) (mapper : string -> string)
  (ast' : AstNode) :
  table <> other ->
  SampleScopes.rename table ast mapper = Ok ast' ->
  SampleScopes.names other ast' = SampleScopes.names other ast.
Proof.
  intros Hne. unfold SampleScopes.rename, SampleScopes.names.
  destruct (Ast.at_loc (SampleScopes.scope_table table) ast) as [| | |entries|] eqn:E;
    try discriminate.
  intros H.
  assert (ast' = Ast.update_at
                   (fun _ => AObj (map (fun entry => (mapper (fst entry), snd entry)) entries))
                   (SampleScopes.scope_table table) ast) as -> by congruence.
  clear H.
  set (renamed := fun _ : AstNode =>
                    AObj (map (fun entry => (mapper (fst entry), snd entry)) entries)).
  assert (Hsame : Ast.at_loc (SampleScopes.scope_table other)
                    (Ast.update_at renamed (SampleScopes.scope_table table) ast)
                  = Ast.at_loc (SampleScopes.scope_table other) ast);
    [|rewrite Hsame; reflexivity].
  revert E. unfold SampleScopes.scope_table.
  destruct ast as [| | |fs|]; try discriminate. cbn [Ast.at_loc Ast.update_at Ast.field].
  destruct (Ast.lookup "scopes" fs) as [| |l| |] eqn:El; try discriminate.
  rewrite LocFacts.lookup_alter_field by (rewrite El; discriminate). rewrite El.
  destruct l as [|scope l]; [discriminate|]. simpl.
  destruct scope as [| | |gs|]; try discriminate.
  intros _. apply AnchorFacts.lookup_alter_field_ne. intros ->. apply Hne. reflexivity.
Qed.

Lemma sample_renaming_contract (table : list (string * AstNode)) :
  renaming_contract (SampleScopes.externals table)
    (SampleScopes.names "bindings") (SampleScopes.names "functions").
Proof.
  split; intros ast mapper ast' H; simpl in H.
  - split; [eapply sample_names_renamed, H|].
    eapply sample_names_kept; [|exact H]. discriminate.
  - split; [eapply sample_names_renamed, H|].
    eapply sample_names_kept; [|exact H]. discriminate.
Qed.

Example noise_nodes_mangled :
  forall stage,
    shader_produceAst (SampleScopes.externals SampleScopes.table) stage Sample.fresh_context
      (eng_info Sample.engine) (mkGraph [] []) (SampleScopes.noise_node "7" stage None) []
    = Ok (SampleScopes.scoped ["vUv_7"; "x_7"; "position"] ["noise_7"; "main_Noise"]
            [Sample.declaration_statement ["varying"] "vec2" ["vUv"];
             Sample.declaration_statement ["uniform"] "float" ["x"];
             Sample.function "float" "noise" []; Sample.function "void" "main" []])
    /\ shader_produceAst (SampleScopes.externals SampleScopes.table) stage
         Sample.fresh_context (eng_info Sample.engine) (mkGraph [] [])
         (SampleScopes.noise_node "8" stage None) []
       = Ok (SampleScopes.scoped ["vUv_8"; "x_8"; "position"] ["noise_8"; "main_Noise"]
               [Sample.declaration_statement ["varying"] "vec2" ["vUv"];
                Sample.declaration_statement ["uniform"] "float" ["x"];
                Sample.function "float" "noise" []; Sample.function "void" "main" []]).
Proof. intros [|]; split; vm_compute; reflexivity. Qed.


(** A node of three on babylon: [vUv] is renamed to [vMainUV1] before the
    mangling, which then suffixes the new name with the id of the node, or
    leaves it when the engine preserves it. *)
Example three_varyings_on_babylon :
  (ast ← shader_fragment_produceAst (SampleScopes.externals SampleScopes.table)
           Sample.fresh_context (mkEngineInfo "babylon" ∅) (mkGraph [] [])
           (SampleScopes.noise_node "7" fragment (Some "three")) [];
   Ok (SampleScopes.names "bindings" ast)) = Ok ["vMainUV1_7"; "x_7"; "position_7"]
  /\ (ast ← shader_fragment_produceAst (SampleScopes.externals SampleScopes.table)
             Sample.fresh_context SampleScopes.babylon (mkGraph [] [])
             (SampleScopes.noise_node "7" fragment (Some "three")) [];
      Ok (SampleScopes.names "bindings" ast)) = Ok ["vMainUV1"; "x_7"; "position_7"]
  /\ (ast ← shader_fragment_produceAst (SampleScopes.externals SampleScopes.table)
             Sample.fresh_context SampleScopes.babylon (mkGraph [] [])
             (SampleScopes.noise_node "8" fragment (Some "three")) [];
      Ok (SampleScopes.names "bindings" ast)) = Ok ["vMainUV1"; "x_8"; "position_8"].
Proof. repeat split; vm_compute; reflexivity. Qed.

(** ** Dangling edges *)

(** C7, amended.  When both outputs exist and an edge whose source id does
    not resolve ends at a node reachable backward from the vertex output,
    from the fragment output or from an orphan of the graph (a node that
    [compileGraph] connects to the vertex output by an edge of its own),
    [compileGraph] returns no program.  When the node is reachable from an
    output, it aborts with the error of a source id that does not resolve,
    or with the exhausted stack; on a graph whose edges go up in a rank,
    with a stack deeper than the ranks of the outputs, it aborts with the
    error of a source id that does not resolve. *)
Theorem dangling_source_aborts (X : Externals) (T : Type) (depth : nat)
  (engineContext : EngineContext T) (engine : Engine T) (graph : Graph)
  (outputFrag outputVert m : Node) (e : Edge) :
  find_output graph fragment = Some outputFrag ->
  find_output graph vertex = Some outputVert ->
  e ∈ g_edges graph ->
  find_node graph (e_from e) = None ->
  e_to e = n_id m ->
  reaches_back graph (g_edges graph) outputVert m
  \/ reaches_back graph (g_edges graph) outputFrag m
  \/ (exists o, orphan graph outputFrag outputVert o
                /\ find_node graph (n_id o) = Some o
                /\ reaches_back graph (g_edges graph) o m) ->
  exists err,
    compileGraph X depth engineContext engine graph = Err err
    /\ (reaches_back graph (g_edges graph) outputVert m
        \/ reaches_back graph (g_edges graph) outputFrag m ->
        (err = StackExhausted
         \/ exists from, err = DanglingEdge from /\ find_node graph from = None)
        /\ forall rank : string -> nat,
             (forall e, e ∈ g_edges graph -> rank (e_from e) < rank (e_to e)) ->
             rank (n_id outputVert) < depth ->
             rank (n_id outputFrag) < depth ->
             exists from, err = DanglingEdge from /\ find_node graph from = None).
Proof.
  intros Hfrag Hvert He Hfrom Hto Hreach.
  assert (Haborts : exists err, compileGraph X depth engineContext engine graph = Err err).
  { destruct (compileGraph X depth engineContext engine graph)
      as [[[result graph'] engineContext']|err] eqn:E; [exfalso | eauto].
    apply compileGraph_steps in E
      as (c0 & oF & oV & ff & fids & c1 & vids & vf & ids & c2
          & Hc0 & HoF & HoV & Hcf & Hvids & Hcv & _).
    rewrite Hfrag in HoF. injection HoF as <-. rewrite Hvert in HoV. injection HoV as <-.
    assert (Hwalk : reaches_back graph (g_edges graph) outputFrag m
                    \/ reaches_back graph
                         (g_edges graph ++ orphanEdges graph outputVert fids vids)
                         outputVert m).
    { destruct Hreach as [Hr|[Hr|(o & Horphan & Ho & Hr)]];
        [right; apply reaches_back_more_edges, Hr | left; exact Hr | right].
      pose proof (compileNode_ids X _ _ _ _ _ _ _ _ _ _ _ _ Hcf) as Hfids.
      eapply rtc_l; [|apply reaches_back_more_edges, Hr].
      exists (orphan_edge outputVert o). split; [|split; [reflexivity | exact Ho]].
      apply elem_of_app. right. unfold orphanEdges.
      apply list_elem_of_fmap. exists o. split; [reflexivity|].
      apply list_elem_of_In, filter_In. split; [apply list_elem_of_In, Horphan|].
      apply (is_orphan_orphan graph depth outputFrag outputVert o fids vids Hfids Hvids);
        [apply Horphan | exact Horphan]. }
    destruct Hwalk as [Hwalk|Hwalk].
    - destruct (compileNode_wired X _ _ _ _ _ _ _ _ _ _ Hcf m Hwalk) as (_ & _ & Hedges).
      destruct (Hedges e He Hto) as [[from Hsome] _]. congruence.
    - destruct (compileNode_wired X _ _ _ _ _ _ _ _ _ _ Hcv m Hwalk) as (_ & _ & Hedges).
      destruct (Hedges e (proj2 (elem_of_app _ _ _) (or_introl He)) Hto) as [[from Hsome] _].
      congruence. }
  destruct Haborts as [err Hcompile]. exists err. split; [exact Hcompile|].
  intros Hconnected.
  assert (Herr : collectConnectedNodes depth graph (g_edges graph) outputVert JsObject.empty
                 = Err err
                 \/ collectConnectedNodes depth graph (g_edges graph) outputFrag
                      JsObject.empty = Err err).
  { revert Hcompile. unfold compileGraph, computeGraphContext. rewrite Hfrag, Hvert. simpl.
    destruct (collectConnectedNodes depth graph (g_edges graph) outputVert JsObject.empty)
      as [vertexIds|err'] eqn:Ev; simpl; [|intros [= <-]; auto].
    destruct (collectConnectedNodes depth graph (g_edges graph) outputFrag JsObject.empty)
      as [fragmentIds|err'] eqn:Ef; simpl; [|intros [= <-]; auto].
    exfalso. destruct Hconnected as [Hr|Hr].
    - destruct (collectConnectedNodes_dangling graph (g_edges graph) outputVert m e
                  Hr He Hto Hfrom depth JsObject.empty) as [err' Herr']. congruence.
    - destruct (collectConnectedNodes_dangling graph (g_edges graph) outputFrag m e
                  Hr He Hto Hfrom depth JsObject.empty) as [err' Herr']. congruence. }
  assert (Hkind : collect_error graph err).
  { destruct Herr as [Herr|Herr]; eapply collectConnectedNodes_errors, Herr. }
  split; [exact Hkind|].
  intros rank Hrank Hv Hf. destruct Hkind as [->|Hkind]; [|exact Hkind].
  exfalso. destruct Herr as [Herr|Herr].
  - exact (collectConnectedNodes_stack graph (g_edges graph) rank Hrank depth
             outputVert JsObject.empty Hv Herr).
  - exact (collectConnectedNodes_stack graph (g_edges graph) rank Hrank depth
             outputFrag JsObject.empty Hf Herr).
Qed.

Lemma node7_is_fed_a_ghost :
  orphan SampleGraphs.broken_orphan_input Sample.outputFrag Sample.outputVert
    SampleGraphs.node7.
Proof.
  split; [do 2 apply list_elem_of_further; apply list_elem_of_here|].
  split; [reflexivity|]. split; [|split; [|reflexivity]].
  - exists "8". split; [reflexivity|]. split; [discriminate|]. left.
    exists SampleGraphs.node8. split; [|reflexivity].
    apply rtc_once. exists (Sample.edge "8" "1" "color" fragment).
    split; [apply list_elem_of_here | split; reflexivity].
  - intros m Hm. apply rtc_inv in Hm as [<-|(y & (e & He & Hto & _) & _)]; [discriminate|].
    simpl in He. repeat (apply elem_of_cons in He as [->|He]; [discriminate Hto|]).
    apply elem_of_nil in He as [].
Qed.

Lemma dangling_source_aborts_witness :
  (exists err,
     compileGraph (Sample.externals Sample.table) 5 Sample.fresh_context Sample.engine
       SampleGraphs.broken_orphan_input = Err err)
  /\ exists err,
       compileGraph (Sample.externals Sample.table) 5 Sample.fresh_context Sample.engine
         SampleGraphs.broken_input = Err err
       /\ exists from, err = DanglingEdge from
                       /\ find_node SampleGraphs.broken_input from = None.
Proof.
  split.
  - destruct (dangling_source_aborts (Sample.externals Sample.table) unit 5
                Sample.fresh_context Sample.engine SampleGraphs.broken_orphan_input
                Sample.outputFrag Sample.outputVert SampleGraphs.node7
                (Sample.edge "ghost" "7" "position" vertex))
      as (err & Herr & _).
    + reflexivity.
    + reflexivity.
    + apply list_elem_of_further, list_elem_of_here.
    + reflexivity.
    + reflexivity.
    + right. right. exists SampleGraphs.node7.
      split; [exact node7_is_fed_a_ghost|]. split; [reflexivity | apply rtc_refl].
    + exists err. exact Herr.
  - destruct (dangling_source_aborts (Sample.externals Sample.table) unit 5
                Sample.fresh_context Sample.engine SampleGraphs.broken_input
                Sample.outputFrag Sample.outputVert Sample.outputFrag
                (Sample.edge "ghost" "1" "color" fragment))
      as (err & Herr & Hkind).
    + reflexivity.
    + reflexivity.
    + apply list_elem_of_here.
    + reflexivity.
    + reflexivity.
    + right. left. apply rtc_refl.
    + exists err. split; [exact Herr|].
      destruct Hkind as [_ Hkind]; [right; apply rtc_refl|].
      apply (Hkind (fun id => if String.eqb id "ghost" then 0 else 1)).
      * intros e He. simpl in He. apply list_elem_of_singleton in He as ->.
        vm_compute. lia.
      * vm_compute. lia.
      * vm_compute. lia.
Defined.

(** The edge from nowhere into the orphan stops the compilation of the
    vertex side. *)
Example broken_orphan_input_aborts :
  compileGraph (Sample.externals Sample.table) 5 Sample.fresh_context Sample.engine
    SampleGraphs.broken_orphan_input = Err (DanglingEdge "ghost").
Proof. vm_compute. reflexivity. Qed.
